(** * LG4X-V2 [usrmodel.py]: convolution engine and composite lineshapes

    A shallow embedding of [src/Python/usrmodel.py].  Floating-point arrays
    are lists of real numbers and arithmetic is exact; Python exceptions
    (and results that are not real numbers) are [None].  Rounding,
    overflow and underflow of the floating-point operations are outside the
    embedding: [exp] is the real exponential, which neither reaches 0 nor
    leaves the real numbers. *)

From Stdlib Require Import String.
From Stdlib Require Import Reals List ZArith Lia ZifyNat Lra Bool.
Import ListNotations.
Open Scope R_scope.

(** ** Python and numpy built-ins used by the source *)

Module Py.

(** [l[n:]] for a possibly negative [n]: a negative start counts from the
    end and is clamped at the front of the list. *)
Definition slice_from {A : Type} (n : Z) (l : list A) : list A :=
  if (n <? 0)%Z then skipn (Z.to_nat (Z.of_nat (length l) + n)) l
  else skipn (Z.to_nat n) l.

(** One end of a slice, resolved against the length [len] as Python's
    [slice.indices] does. *)
Definition clamp (len i : Z) : Z :=
  if (i <? 0)%Z then Z.max 0 (len + i) else Z.min len i.

(** [l[a:b]] *)
Definition slice {A : Type} (a b : Z) (l : list A) : list A :=
  let len := Z.of_nat (length l) in
  let lo := clamp len a in
  let hi := clamp len b in
  firstn (Z.to_nat (hi - lo)) (skipn (Z.to_nat lo) l).

(** [int(p / q)] on integers [p], [q]: true division, then truncation
    toward zero. *)
Definition int_div (p q : Z) : Z := Z.quot p q.

(** [l[0]] and [l[-1]]; both raise [IndexError] on an empty sequence. *)
Definition first {A : Type} (l : list A) : option A :=
  match l with [] => None | a :: _ => Some a end.

Fixpoint last_elt {A : Type} (l : list A) : option A :=
  match l with
  | [] => None
  | [a] => Some a
  | _ :: l' => last_elt l'
  end.

(** [max(l)] and [min(l)]; both raise [ValueError] on an empty sequence. *)
Definition max (l : list R) : option R :=
  match l with [] => None | a :: l' => Some (fold_left Rmax l' a) end.

Definition min (l : list R) : option R :=
  match l with [] => None | a :: l' => Some (fold_left Rmin l' a) end.

(** [np.sum] and [np.mean]. *)
Definition sum (l : list R) : R := fold_right Rplus 0 l.

Definition mean (l : list R) : R := sum l / INR (length l).

(** [np.ones(n)], [c * arr], [arr1 + arr2] on arrays of one shape. *)
Definition ones (n : nat) : list R := repeat 1 n.

Definition scale (c : R) (l : list R) : list R := map (fun a => c * a) l.

Fixpoint add (u w : list R) : list R :=
  match u, w with
  | a :: u', b :: w' => (a + b) :: add u' w'
  | _, _ => []
  end.

End Py.

(** ** numpy's direct convolution *)

Module Numpy.

(** Inner product of two arrays of one length. *)
Fixpoint dot (u w : list R) : R :=
  match u, w with
  | a :: u', b :: w' => a * b + dot u' w'
  | _, _ => 0
  end.

(** [multiarray.correlate(a, w, 'valid')] for [len(w) <= len(a)]: the
    window [w] slides over [a]. *)
Definition correlate_valid (a w : list R) : list R :=
  map (fun k => dot (firstn (length w) (skipn k a)) w)
      (seq 0 (length a - length w + 1)).

(** [np.convolve(a, v, mode='valid')]: the longer array comes first, an
    empty array raises [ValueError], and the convolution is the correlation
    with the reversed second array. *)
Definition convolve_valid (a v : list R) : option (list R) :=
  let '(a, v) := if (length a <? length v)%nat then (v, a) else (a, v) in
  match a, v with
  | [], _ | _, [] => None
  | _, _ => Some (correlate_valid a (rev v))
  end.

End Numpy.

(** ** The convolution engine: [convolve] *)

Definition min_num_pts (data kernel : list R) : nat :=
  Nat.min (length data) (length kernel).

Definition padding (data kernel : list R) : list R :=
  Py.ones (min_num_pts data kernel).

(** [np.concatenate((padding * data[0], data, padding * data[-1]))] *)
Definition padded_data (data kernel : list R) : option (list R) :=
  match Py.first data, Py.last_elt data with
  | Some d0, Some dl =>
      Some (Py.scale d0 (padding data kernel) ++ data
            ++ Py.scale dl (padding data kernel))
  | _, _ => None
  end.

(** [int((len(out) - min_num_pts) / 2)] *)
Definition n_start_data (out : list R) (npts : nat) : Z :=
  Py.int_div (Z.of_nat (length out) - Z.of_nat npts) 2.

(** [(out[n_start_data:])[:min_num_pts]] *)
Definition crop (out : list R) (npts : nat) : list R :=
  firstn npts (Py.slice_from (n_start_data out npts) out).

Definition conv_out (data kernel : list R) : option (list R) :=
  match padded_data data kernel with
  | None => None
  | Some padded => Numpy.convolve_valid padded kernel
  end.

Definition convolve (data kernel : list R) : option (list R) :=
  match conv_out data kernel with
  | None => None
  | Some out => Some (crop out (min_num_pts data kernel))
  end.

(** ** Complex numbers, as pairs of reals *)

Module Cplx.

Definition C : Type := (R * R)%type.

Definition re (z : C) : R := fst z.
Definition im (z : C) : R := snd z.
Definition of_R (a : R) : C := (a, 0).
Definition zero : C := (0, 0).
Definition one : C := (1, 0).
Definition add (z w : C) : C := (re z + re w, im z + im w).
Definition opp (z : C) : C := (- re z, - im z).
Definition sub (z w : C) : C := add z (opp w).
Definition mul (z w : C) : C :=
  (re z * re w - im z * im w, re z * im w + im z * re w).
Definition conj (z : C) : C := (re z, - im z).

(** [exp(i t)] *)
Definition cis (t : R) : C := (cos t, sin t).

Definition sum (l : list C) : C := fold_right add zero l.

End Cplx.

(** ** scipy's FFT convolution

    [scipy.signal.convolve(in1, in2, mode='valid', method='fft')] on real
    one-dimensional arrays: [fftconvolve] pads both arrays with zeros to a
    fast transform length, multiplies their real-input transforms, inverts
    the product and keeps the centred valid part. *)

Module Scipy.

Import Cplx.

(** [exp(2 pi i e / n)] *)
Definition twiddle (n : nat) (e : Z) : C := cis (2 * PI * IZR e / INR n).

(** The input of a transform of [n] points: cut or padded with zeros. *)
Definition resize (n : nat) (a : list R) : list R :=
  firstn n (a ++ repeat 0 (n - length a)).

(** The [k]-th coefficient of the discrete Fourier transform of the [n]
    points [a]. *)
Definition dft_coeff (n : nat) (a : list R) (k : nat) : C :=
  Cplx.sum (map (fun m => mul (of_R (nth m a 0))
                              (twiddle n (- (Z.of_nat k * Z.of_nat m))))
                (seq 0 n)).

(** [rfft(a, n)]: the coefficients [0 .. n//2] of the transform. *)
Definition rfft (a : list R) (n : nat) : list C :=
  map (dft_coeff n (resize n a)) (seq 0 (n / 2 + 1)).

(** [irfft(A, n)]: the real sequence of [n] points whose transform has
    the half spectrum [A]; the coefficients above [n//2] are the conjugates
    of the given ones, and the imaginary parts of [A[0]] and (for even [n])
    [A[n//2]] are not used. *)
Definition irfft_term (n : nat) (A : list C) (m k : nat) : R :=
  re (mul (nth k A zero) (twiddle n (Z.of_nat k * Z.of_nat m))).

Definition irfft (A : list C) (n : nat) : list R :=
  map (fun m =>
         / INR n *
         (re (nth 0 A zero)
          + 2 * Py.sum (map (irfft_term n A m) (seq 1 ((n - 1) / 2)))
          + (if Nat.even n then re (nth (n / 2) A zero) * (-1) ^ m else 0)))
      (seq 0 n).

(** [sp1 * sp2] *)
Fixpoint mul_spectra (u w : list C) : list C :=
  match u, w with
  | a :: u', b :: w' => mul a b :: mul_spectra u' w'
  | _, _ => []
  end.

(** [next_fast_len(target, real=True)]: the least [n >= target] with no
    prime factor above 5. *)
Fixpoint strip (fuel p n : nat) : nat :=
  match fuel with
  | O => n
  | S f => if ((n mod p =? 0) && (1 <? n))%nat then strip f p (n / p) else n
  end.

Definition smooth5 (n : nat) : bool :=
  (strip n 5 (strip n 3 (strip n 2 n)) =? 1)%nat.

Fixpoint search_fast (fuel n : nat) : nat :=
  match fuel with
  | O => n
  | S f => if smooth5 n then n else search_fast f (S n)
  end.

Definition next_fast_len (target : nat) : nat := search_fast target target.

(** [_freq_domain_conv(in1, in2, axes, shape, calc_fast_len=True)] *)
Definition freq_domain_conv (in1 in2 : list R) (shape : nat) : list R :=
  let fshape := next_fast_len shape in
  let sp1 := rfft in1 fshape in
  let sp2 := rfft in2 fshape in
  let ret := irfft (mul_spectra sp1 sp2) fshape in
  firstn shape ret.

(** [_centered(arr, newshape)] *)
Definition centered (arr : list R) (newshape : nat) : list R :=
  let startind := ((length arr - newshape) / 2)%nat in
  firstn newshape (skipn startind arr).

(** [fftconvolve(in1, in2, mode='valid')], [len(in2) <= len(in1)]; empty
    input gives an empty array. *)
Definition fftconvolve_valid (in1 in2 : list R) : list R :=
  match in1, in2 with
  | [], _ | _, [] => []
  | _, _ =>
      let s1 := length in1 in
      let s2 := length in2 in
      let shape := (s1 + s2 - 1)%nat in
      let ret := freq_domain_conv in1 in2 shape in
      centered ret (s1 - s2 + 1)
  end.

(** [convolve(in1, in2, mode='valid', method='fft')]: the inputs are
    swapped when the second is the longer one, and the look at
    [out.flat[0]] after [fftconvolve] raises [IndexError] when the result
    is empty. *)
Definition convolve_valid_fft (in1 in2 : list R) : option (list R) :=
  let '(volume, kernel) :=
    if (length in1 <? length in2)%nat then (in2, in1) else (in1, in2) in
  let out := fftconvolve_valid volume kernel in
  match out with
  | [] => None
  | _ :: _ => Some out
  end.

End Scipy.

(** ** The convolution engine: [fft_convolve] *)

Definition fft_out (data kernel : list R) : option (list R) :=
  match padded_data data kernel with
  | None => None
  | Some padded => Scipy.convolve_valid_fft padded kernel
  end.

Definition fft_convolve (data kernel : list R) : option (list R) :=
  match fft_out data kernel with
  | None => None
  | Some out => Some (crop out (min_num_pts data kernel))
  end.

(** ** The primitive lineshapes of [lmfit.lineshapes]

    The formulas of the library the source imports [doniach], [gaussian]
    and [thermal_distribution] from. *)

Module Lineshapes.

(** [tiny = 1.0e-15] *)
Definition tiny : R := / 10 ^ 15.

Definition s2pi : R := sqrt (2 * PI).

(** [b ** e] on floats.  A zero base with a negative exponent raises
    [ZeroDivisionError]; a negative base has a real power only for an
    exponent that is a whole number (otherwise the power is a complex
    number, which the [max] that follows refuses). *)
Definition float_pow (b e : R) : option R :=
  if Rlt_dec 0 b then Some (Rpower b e)
  else if Req_dec_T b 0 then
    if Req_dec_T e 0 then Some 1
    else if Rlt_dec 0 e then Some 0 else None
  else if Req_dec_T (IZR (Int_part e)) e then Some (powerRZ b (Int_part e))
  else None.

(** [not_zero(value)]: [copysign(max(tiny, abs(value)), value)] *)
Definition not_zero (v : R) : R :=
  if Rlt_dec v 0 then - Rmax tiny (Rabs v) else Rmax tiny (Rabs v).

Definition gaussian (x : list R) (amplitude center sigma : R) : list R :=
  map (fun xi =>
         (amplitude / Rmax tiny (s2pi * sigma))
         * exp (- (1 * xi - center) ^ 2 / Rmax tiny (2 * sigma ^ 2)))
      x.

(** [doniach]: [sigma ** gm1] is a power of floats; [arg] is an
    array, and the base [1 + arg ** 2] of the second power is at least 1
    at every point. *)
Definition doniach (x : list R) (amplitude center sigma gamma : R)
  : option (list R) :=
  let gm1 := 1 - gamma in
  match float_pow sigma gm1 with
  | None => None
  | Some p =>
      let scale := amplitude / Rmax tiny p in
      Some (map (fun xi =>
                   let arg := (xi - center) / Rmax tiny sigma in
                   scale * cos (PI * gamma / 2 + gm1 * atan arg)
                   / Rpower (1 + arg ^ 2) (gm1 / 2))
              x)
  end.

(** [thermal_distribution(x, amplitude, center, kt, form='fermi')]:
    [real(1 / (amplitude * exp((x - center) / not_zero(kt)) + 1 + tiny*1j))] *)
Definition thermal_distribution_fermi
    (x : list R) (amplitude center kt : R) : list R :=
  map (fun xi =>
         let d := amplitude * exp ((xi - center) / not_zero kt) + 1 in
         d / (d ^ 2 + tiny ^ 2))
      x.

End Lineshapes.

(** ** The composite lineshapes *)

Definition bind {A B : Type} (o : option A) (f : A -> option B) : option B :=
  match o with None => None | Some a => f a end.

Notation "x <- o ;; k" := (bind o (fun x => k))
  (at level 61, o at next level, right associativity).

(** [1 / (np.sqrt(2 * np.pi) * gaussian_sigma) * gaussian(x, amplitude=1,
    center=np.mean(x), sigma=gaussian_sigma)]; dividing by zero leaves the
    real numbers. *)
Definition gaussian_kernel (x : list R) (gaussian_sigma : R)
  : option (list R) :=
  if Req_dec_T (sqrt (2 * PI) * gaussian_sigma) 0 then None
  else Some (Py.scale (1 / (sqrt (2 * PI) * gaussian_sigma))
               (Lineshapes.gaussian x 1 (Py.mean x) gaussian_sigma)).

(** [amplitude * conv_temp / max(conv_temp)] *)
Definition scale_to_amplitude (amplitude : R) (conv_temp : list R)
  : option (list R) :=
  m <- Py.max conv_temp ;;
  if Req_dec_T m 0 then None
  else Some (map (fun c => amplitude * c / m) conv_temp).

(** The local [conv_temp] of [dublett], and [dublett]. *)
Definition dublett_conv_temp (x : list R)
    (sigma gamma gaussian_sigma center soc height_ratio
       fct_coster_kronig : R) : option (list R) :=
  d1 <- Lineshapes.doniach x 1 center sigma gamma ;;
  d2 <- Lineshapes.doniach x height_ratio (center - soc)
          (fct_coster_kronig * sigma) gamma ;;
  kernel <- gaussian_kernel x gaussian_sigma ;;
  fft_convolve (Py.add d1 d2) kernel.

Definition dublett (x : list R)
    (amplitude sigma gamma gaussian_sigma center soc height_ratio
       fct_coster_kronig : R) : option (list R) :=
  conv_temp <- dublett_conv_temp x sigma gamma gaussian_sigma center soc
                 height_ratio fct_coster_kronig ;;
  scale_to_amplitude amplitude conv_temp.

Definition singlett_conv_temp (x : list R)
    (sigma gamma gaussian_sigma center : R) : option (list R) :=
  d <- Lineshapes.doniach x 1 center sigma gamma ;;
  kernel <- gaussian_kernel x gaussian_sigma ;;
  fft_convolve d kernel.

Definition singlett (x : list R)
    (amplitude sigma gamma gaussian_sigma center : R) : option (list R) :=
  conv_temp <- singlett_conv_temp x sigma gamma gaussian_sigma center ;;
  scale_to_amplitude amplitude conv_temp.

(** Boltzmann k in eV/K *)
Definition kb : R := 8.6173e-5.

Definition fermi_edge_conv_temp (x : list R) (center kt sigma : R)
  : option (list R) :=
  kernel <- gaussian_kernel x sigma ;;
  fft_convolve (Lineshapes.thermal_distribution_fermi x 1 center kt) kernel.

Definition fermi_edge (x : list R) (amplitude center kt sigma : R)
  : option (list R) :=
  conv_temp <- fermi_edge_conv_temp x center kt sigma ;;
  scale_to_amplitude amplitude conv_temp.

(** *** The three composite lineshapes, seen as one family

    A composite lineshape with its parameters other than the amplitude;
    [lineshape] dispatches to the function of the source. *)
Inductive shape : Type :=
| Singlet (sigma gamma gaussian_sigma center : R)
| Doublet (sigma gamma gaussian_sigma center soc height_ratio
             fct_coster_kronig : R)
| FermiEdge (center kt sigma : R).

Definition conv_temp_of (s : shape) (x : list R) : option (list R) :=
  match s with
  | Singlet sigma gamma gaussian_sigma center =>
      singlett_conv_temp x sigma gamma gaussian_sigma center
  | Doublet sigma gamma gaussian_sigma center soc height_ratio fck =>
      dublett_conv_temp x sigma gamma gaussian_sigma center soc height_ratio
        fck
  | FermiEdge center kt sigma => fermi_edge_conv_temp x center kt sigma
  end.

Definition lineshape (s : shape) (x : list R) (amplitude : R)
  : option (list R) :=
  match s with
  | Singlet sigma gamma gaussian_sigma center =>
      singlett x amplitude sigma gamma gaussian_sigma center
  | Doublet sigma gamma gaussian_sigma center soc height_ratio fck =>
      dublett x amplitude sigma gamma gaussian_sigma center soc height_ratio
        fck
  | FermiEdge center kt sigma => fermi_edge x amplitude center kt sigma
  end.

(** The curve a lineshape convolves (when the primitive returns one),
    and the width of its kernel. *)
Definition primitive (s : shape) (x : list R) : option (list R) :=
  match s with
  | Singlet sigma gamma _ center => Lineshapes.doniach x 1 center sigma gamma
  | Doublet sigma gamma _ center soc height_ratio fck =>
      d1 <- Lineshapes.doniach x 1 center sigma gamma ;;
      d2 <- Lineshapes.doniach x height_ratio (center - soc)
              (fck * sigma) gamma ;;
      Some (Py.add d1 d2)
  | FermiEdge center kt _ =>
      Some (Lineshapes.thermal_distribution_fermi x 1 center kt)
  end.

Definition kernel_width (s : shape) : R :=
  match s with
  | Singlet _ _ gaussian_sigma _ => gaussian_sigma
  | Doublet _ _ gaussian_sigma _ _ _ _ => gaussian_sigma
  | FermiEdge _ _ sigma => sigma
  end.

(** The lineshape computed with a given kernel in place of the one the
    source builds. *)
Definition with_kernel (data kernel : list R) (amplitude : R)
  : option (list R) :=
  conv_temp <- fft_convolve data kernel ;;
  scale_to_amplitude amplitude conv_temp.

(** ** Derived parameters

    The values of the constraint expressions that [_set_paramhints_prefix]
    registers, as functions of the primary parameters. *)

Module Derived.

(** ['2*gaussian_sigma*1.1774'] *)
Definition gaussian_fwhm (gaussian_sigma : R) : R :=
  2 * gaussian_sigma * 1.1774.

(** ['sigma*(2+gamma*2.5135+(gamma*3.6398)**4)'] *)
Definition lorentzian_fwhm (sigma gamma : R) : R :=
  sigma * (2 + gamma * 2.5135 + (gamma * 3.6398) ^ 4).

(** ['sigma*(2+gamma*2.5135+(gamma*3.6398)**4)*fct_coster_kronig'] *)
Definition lorentzian_fwhm_p2 (sigma gamma fct_coster_kronig : R) : R :=
  sigma * (2 + gamma * 2.5135 + (gamma * 3.6398) ^ 4) * fct_coster_kronig.

(** ['0.5346*lorentzian_fwhm+sqrt(0.2166*lorentzian_fwhm**2+gaussian_fwhm**2)'] *)
Definition fwhm (lorentzian_fwhm gaussian_fwhm : R) : R :=
  0.5346 * lorentzian_fwhm
  + sqrt (0.2166 * lorentzian_fwhm ^ 2 + gaussian_fwhm ^ 2).

Definition height (amplitude : R) : R := amplitude.

Definition height_p2 (amplitude height_ratio : R) : R :=
  amplitude * height_ratio.

Definition area (fwhm height : R) : R := fwhm * height.

End Derived.

(** ** Parameter hints and parameters of the fitting framework *)

Module Params.

Local Open Scope string_scope.

(** The keyword arguments of one [set_param_hint] call, and the entry of
    [param_hints] they are stored in. *)
Record ParamHint : Type := mkParamHint {
  hint_value : option R;
  hint_min : option R;
  hint_max : option R;
  hint_expr : option string
}.

Definition no_hint : ParamHint := mkParamHint None None None None.

Definition or_else {A : Type} (new old : option A) : option A :=
  match new with Some _ => new | None => old end.

Definition merge (old new : ParamHint) : ParamHint :=
  mkParamHint (or_else (hint_value new) (hint_value old))
         (or_else (hint_min new) (hint_min old))
         (or_else (hint_max new) (hint_max old))
         (or_else (hint_expr new) (hint_expr old)).

(** [param_hints]: a dict in insertion order. *)
Definition ParamHints : Type := list (string * ParamHint).

Fixpoint lookup {A : Type} (name : string) (d : list (string * A))
  : option A :=
  match d with
  | [] => None
  | (n, a) :: d' => if String.eqb n name then Some a else lookup name d'
  end.

(** [param_hints[name].update(kwargs)], with a new entry for a name that
    has none. *)
Fixpoint update_hint (name : string) (kw : ParamHint) (hs : ParamHints)
  : ParamHints :=
  match hs with
  | [] => [(name, merge no_hint kw)]
  | (n, h) :: hs' =>
      if String.eqb n name then (n, merge h kw) :: hs'
      else (n, h) :: update_hint name kw hs'
  end.

(** [name[npref:]] when the prefix is not empty and
    [name.startswith(prefix)], and [name] otherwise. *)
Definition strip_prefix (pre name : string) : string :=
  if ((0 <? String.length pre)%nat && String.prefix pre name)%bool
  then substring (String.length pre)
         (String.length name - String.length pre) name
  else name.

(** [set_param_hint(name, **kwargs)] of a model with the prefix [pre]:
    a name that starts with the prefix loses it, and the hint is kept
    under what is left. *)
Definition set_param_hint (pre name : string) (kw : ParamHint)
    (hs : ParamHints) : ParamHints :=
  update_hint (strip_prefix pre name) kw hs.


(** A [Parameter] of the framework: a value kept within its bounds; an
    absent bound is infinite, a value that was never set (the
    framework's [-inf]) is [None], and the value of a parameter with a
    constraint expression is the framework's to compute. *)
Record Param : Type := mkParam {
  value : option R;
  pmin : option R;
  pmax : option R;
  expr : option string
}.

(** The value setter: [if val > max: val = max], then
    [if val < min: val = min]. *)
Definition clip (lo hi : option R) (v : R) : R :=
  let v1 := match hi with
            | Some h => if Rlt_dec h v then h else v
            | None => v
            end in
  match lo with
  | Some l => if Rlt_dec v1 l then l else v1
  | None => v1
  end.

Definition set_value (v : R) (p : Param) : Param :=
  mkParam (Some (clip (pmin p) (pmax p) v)) (pmin p) (pmax p) (expr p).

Definition reclip (p : Param) : Param :=
  match value p with
  | Some v => set_value v p
  | None => p
  end.

(** The hint keys are applied in the order [value], [min], [max], [expr]. *)
Definition apply_hint (h : ParamHint) (p : Param) : Param :=
  let p1 := match hint_value h with Some v => set_value v p | None => p end in
  let p2 := match hint_min h with
            | Some l => reclip (mkParam (value p1) (Some l) (pmax p1) (expr p1))
            | None => p1
            end in
  let p3 := match hint_max h with
            | Some u => reclip (mkParam (value p2) (pmin p2) (Some u) (expr p2))
            | None => p2
            end in
  match hint_expr h with
  | Some e => mkParam (value p3) (pmin p3) (pmax p3) (Some e)
  | None => p3
  end.

Definition ParamSet : Type := list (string * Param).

Definition Kwargs : Type := list (string * R).

(** [make_params]: one parameter for every argument name of the
    model function, then one for every further hint; a hint is applied
    before a keyword value, and names carry the model's prefix. *)
Definition make_param (hs : ParamHints) (kw : Kwargs) (basename : string)
  : Param :=
  let p := mkParam None None None None in
  let p := match lookup basename hs with
           | Some h => apply_hint h p
           | None => p
           end in
  match lookup basename kw with
  | Some v => set_value v p
  | None => p
  end.

Definition mem (name : string) (names : list string) : bool :=
  existsb (String.eqb name) names.

Definition make_params (prefix : string) (param_names : list string)
    (hs : ParamHints) (kw : Kwargs) : ParamSet :=
  List.app
    (map (fun n => (prefix ++ n, make_param hs kw n)) param_names)
    (map (fun nh => (prefix ++ fst nh,
                     apply_hint (snd nh) (mkParam None None None None)))
         (filter (fun nh => negb (mem (fst nh) param_names)) hs)).

(** [update_param_vals]: every keyword that names
    a parameter sets its value; later keywords win. *)
Fixpoint set_param (pname : string) (v : R) (ps : ParamSet) : ParamSet :=
  match ps with
  | [] => []
  | (n, p) :: ps' =>
      if String.eqb n pname then (n, set_value v p) :: ps'
      else (n, p) :: set_param pname v ps'
  end.

Definition update_param_vals (ps : ParamSet) (prefix : string)
    (kw : Kwargs) : ParamSet :=
  fold_left (fun acc kv => set_param (prefix ++ fst kv) (snd kv) acc) kw ps.


End Params.

(** ** The model classes *)

Import Params.

(** The state of a model instance that the source reads and writes. *)
Record Model : Type := mkModel {
  prefix : string;
  param_hints : ParamHints
}.

Definition set_hint (self : Model) (name : string) (kw : ParamHint) : Model :=
  mkModel (prefix self)
    (set_param_hint (prefix self) name kw (param_hints self)).

Definition value_min (v l : R) : ParamHint := mkParamHint (Some v) (Some l) None None.
Definition only_value (v : R) : ParamHint := mkParamHint (Some v) None None None.
Definition only_max (u : R) : ParamHint := mkParamHint None None (Some u) None.
Definition only_expr (e : string) : ParamHint := mkParamHint None None None (Some e).
Definition value_min_max (v l u : R) : ParamHint :=
  mkParamHint (Some v) (Some l) (Some u) None.

(** What a call of [guess] does: it returns [None], raises (or computes
    with values that are not real numbers), or returns a parameter set. *)
Inductive outcome : Type :=
| NoSeed
| Failed
| Seed (ps : ParamSet).

(** The estimate of the external peak-guess helper, read from the
    parameters [guess_from_peak(Model(doniach), data, x, negative=False)]
    returns. *)
Record PeakPars : Type := mkPeakPars {
  pk_amplitude : R;
  pk_center : R;
  pk_sigma : R;
  pk_gamma : R
}.

Module ConvGaussianDoniachSinglett.

Local Open Scope string_scope.

Definition param_names : list string :=
  ["amplitude"; "sigma"; "gamma"; "gaussian_sigma"; "center"].

(** The names the class passes to [set_param_hint]. *)
Definition hint_names : list string :=
  ["amplitude"; "sigma"; "gamma"; "gaussian_sigma"; "center";
   "gaussian_fwhm"; "lorentzian_fwhm"; "fwhm"; "height"; "area"].

Definition _set_paramhints_prefix (self : Model) : Model :=
  let pre := prefix self in
  let self := set_hint self "amplitude" (value_min 100 0) in
  let self := set_hint self "sigma" (value_min 0.2 0) in
  let self := set_hint self "gamma" (value_min 0.02 0) in
  let self := set_hint self "gaussian_sigma" (value_min 0.2 0) in
  let self := set_hint self "center" (value_min 100 0) in
  let g_fwhm_expr := "2*" ++ pre ++ "gaussian_sigma*1.1774" in
  let self := set_hint self "gaussian_fwhm" (only_expr g_fwhm_expr) in
  let l_fwhm_expr :=
    pre ++ "sigma*(2+" ++ pre ++ "gamma*2.5135+(" ++ pre
    ++ "gamma*3.6398)**4)" in
  let self := set_hint self "lorentzian_fwhm" (only_expr l_fwhm_expr) in
  let full_fwhm_expr :=
    "0.5346*" ++ pre ++ "lorentzian_fwhm+" ++ "sqrt(0.2166*" ++ pre
    ++ "lorentzian_fwhm**2+" ++ pre ++ "gaussian_fwhm**2)" in
  let self := set_hint self "fwhm" (only_expr full_fwhm_expr) in
  let h_expr := pre ++ "amplitude" in
  let self := set_hint self "height" (only_expr h_expr) in
  let area_expr := pre ++ "fwhm*" ++ pre ++ "height" in
  set_hint self "area" (only_expr area_expr).

Definition init (pre : string) : Model :=
  _set_paramhints_prefix (mkModel pre []).

Section Guess.

Variable guess_from_peak : list R -> list R -> option PeakPars.

Definition guess (self : Model) (data : list R) (x : option (list R))
    (kwargs : Kwargs) : outcome * Model :=
  match x with
  | None => (NoSeed, self)
  | Some x =>
      match Py.last_elt x, Py.first x with
      | Some xl, Some x0 =>
          let self := set_hint self "sigma" (only_max (0.3 * (xl - x0))) in
          let self := set_hint self "gaussian_sigma" (only_max (0.3 * (xl - x0))) in
          match guess_from_peak data x, nth_error x 1 with
          | Some doniach_pars, Some x1 =>
              let gaussian_sigma := (pk_sigma doniach_pars + x1 - x0) / 2 in
              if Rlt_dec 0 (Py.sum x) then
                let doniach_ampl :=
                  pk_amplitude doniach_pars
                  * sqrt (Py.sum (Lineshapes.gaussian x 1 (Py.mean x)
                                    gaussian_sigma))
                  / (2 * sqrt (Py.sum x)) in
                let params :=
                  make_params (prefix self) param_names (param_hints self)
                    [("amplitude", doniach_ampl);
                     ("sigma", pk_sigma doniach_pars);
                     ("gamma", pk_gamma doniach_pars);
                     ("gaussian_sigma", gaussian_sigma);
                     ("center", pk_center doniach_pars)] in
                (Seed (update_param_vals params (prefix self) kwargs), self)
              else (Failed, self)
          | _, _ => (Failed, self)
          end
      | _, _ => (Failed, self)
      end
  end.

End Guess.

End ConvGaussianDoniachSinglett.

Module ConvGaussianDoniachDublett.

Local Open Scope string_scope.

Definition param_names : list string :=
  ["amplitude"; "sigma"; "gamma"; "gaussian_sigma"; "center"; "soc";
   "height_ratio"; "fct_coster_kronig"].

(** The names the class passes to [set_param_hint]. *)
Definition hint_names : list string :=
  ["amplitude"; "sigma"; "gamma"; "gaussian_sigma"; "center"; "soc";
   "height_ratio"; "fct_coster_kronig"; "gaussian_fwhm";
   "lorentzian_fwhm_p1"; "lorentzian_fwhm_p2"; "fwhm_p1"; "fwhm_p2";
   "height_p1"; "height_p2"; "area_p1"; "area_p2"].

Definition _set_paramhints_prefix (self : Model) : Model :=
  let pre := prefix self in
  let self := set_hint self "amplitude" (value_min 100 0) in
  let self := set_hint self "sigma" (value_min 0.2 0) in
  let self := set_hint self "gamma" (value_min 0.02 0) in
  let self := set_hint self "gaussian_sigma" (value_min 0.2 0) in
  let self := set_hint self "center" (only_value 285) in
  let self := set_hint self "soc" (only_value 2.0) in
  let self := set_hint self "height_ratio" (value_min 0.75 0) in
  let self := set_hint self "fct_coster_kronig" (value_min 1 0) in
  let g_fwhm_expr := "2*" ++ pre ++ "gaussian_sigma*1.1774" in
  let self := set_hint self "gaussian_fwhm" (only_expr g_fwhm_expr) in
  let l_p1_fwhm_expr :=
    pre ++ "sigma*(2+" ++ pre ++ "gamma*2.5135+(" ++ pre
    ++ "gamma*3.6398)**4)" in
  let l_p2_fwhm_expr :=
    pre ++ "sigma*(2+" ++ pre ++ "gamma*2.5135+(" ++ pre
    ++ "gamma*3.6398)**4)*" ++ pre ++ "fct_coster_kronig" in
  let self := set_hint self "lorentzian_fwhm_p1" (only_expr l_p1_fwhm_expr) in
  let self := set_hint self "lorentzian_fwhm_p2" (only_expr l_p2_fwhm_expr) in
  let fwhm_p1_expr :=
    "0.5346*" ++ pre ++ "lorentzian_fwhm_p1+" ++ "sqrt(0.2166*" ++ pre
    ++ "lorentzian_fwhm_p1**2+" ++ pre ++ "gaussian_fwhm**2)" in
  let self := set_hint self "fwhm_p1" (only_expr fwhm_p1_expr) in
  let fwhm_p2_expr :=
    "0.5346*" ++ pre ++ "lorentzian_fwhm_p2+" ++ "sqrt(0.2166*" ++ pre
    ++ "lorentzian_fwhm_p2**2+" ++ pre ++ "gaussian_fwhm**2)" in
  let self := set_hint self "fwhm_p2" (only_expr fwhm_p2_expr) in
  let h_p1_expr := pre ++ "amplitude" in
  let h_p2_expr := pre ++ "amplitude*" ++ pre ++ "height_ratio" in
  let self := set_hint self "height_p1" (only_expr h_p1_expr) in
  let self := set_hint self "height_p2" (only_expr h_p2_expr) in
  let area_p1_expr := pre ++ "fwhm_p1*" ++ pre ++ "height_p1" in
  let self := set_hint self "area_p1" (only_expr area_p1_expr) in
  let area_p2_expr := pre ++ "fwhm_p2*" ++ pre ++ "height_p2" in
  set_hint self "area_p2" (only_expr area_p2_expr).

Definition init (pre : string) : Model :=
  _set_paramhints_prefix (mkModel pre []).

Section Guess.

Variable guess_from_peak : list R -> list R -> option PeakPars.

Definition guess (self : Model) (data : list R) (x : option (list R))
    (kwargs : Kwargs) : outcome * Model :=
  match x with
  | None => (NoSeed, self)
  | Some x =>
      match guess_from_peak data x, nth_error x 1, Py.first x,
            Py.last_elt x with
      | Some doniach_pars, Some x1, Some x0, Some xl =>
          let gaussian_sigma := (pk_sigma doniach_pars + x1 - x0) / 2 in
          if Rlt_dec 0 (Py.sum x) then
            let doniach_ampl :=
              pk_amplitude doniach_pars
              * sqrt (Py.sum (Lineshapes.gaussian x 1 (Py.mean x)
                                gaussian_sigma))
              / (5 * sqrt (Py.sum x)) in
            let soc_guess := 0.3 * (xl - x0) in
            let params :=
              make_params (prefix self) param_names (param_hints self)
                [("amplitude", doniach_ampl);
                 ("sigma", pk_sigma doniach_pars / 5);
                 ("gamma", pk_gamma doniach_pars);
                 ("gaussian_sigma", gaussian_sigma / 5);
                 ("center", pk_center doniach_pars);
                 ("soc", soc_guess);
                 ("height_ratio", 1)] in
            (Seed (update_param_vals params (prefix self) kwargs), self)
          else (Failed, self)
      | _, _, _, _ => (Failed, self)
      end
  end.

End Guess.

End ConvGaussianDoniachDublett.

Module FermiEdgeModel.

Local Open Scope string_scope.

Definition param_names : list string :=
  ["amplitude"; "center"; "kt"; "sigma"].

Definition _set_paramhints_prefix (self : Model) : Model :=
  let self := set_hint self "kt" (value_min 0.02585 0) in
  let self := set_hint self "sigma" (value_min 0.2 0) in
  let self := set_hint self "center" (value_min 100 0) in
  set_hint self "amplitude" (value_min 100 0).

Definition init (pre : string) : Model :=
  _set_paramhints_prefix (mkModel pre []).

Definition guess (self : Model) (data : list R) (x : option (list R))
    (kwargs : Kwargs) : outcome * Model :=
  match x with
  | None => (NoSeed, self)
  | Some x =>
      match Py.min x, Py.max x with
      | Some min_x, Some max_x =>
          let self := set_hint self "center"
                        (value_min_max (Py.mean x) min_x max_x) in
          let self := set_hint self "kt"
                        (value_min_max (kb * 300) 0 (kb * 1500)) in
          match Py.max data, Py.min data with
          | Some max_d, Some min_d =>
              let self := set_hint self "amplitude"
                            (value_min_max ((max_d - min_d) / 10) 0
                               (max_d - min_d)) in
              let self := set_hint self "sigma"
                            (value_min_max
                               ((max_x - min_x) / INR (length x)) 0 2) in
              let params :=
                make_params (prefix self) param_names (param_hints self) [] in
              (Seed (update_param_vals params (prefix self) kwargs), self)
          | _, _ => (Failed, self)
          end
      | _, _ => (Failed, self)
      end
  end.

End FermiEdgeModel.

(** ** The convolution engine as the specification words it *)

Module Spec.

(** The valid convolution: the outputs for which the kernel and the padded
    data overlap fully, [len(padded) - len(kernel) + 1] of them. *)
Definition valid_convolution (padded kernel : list R) : list R :=
  map (fun k =>
         Py.sum (map (fun j =>
                        nth (k + length kernel - 1 - j) padded 0
                        * nth j kernel 0)
                     (seq 0 (length kernel))))
      (seq 0 (length padded + 1 - length kernel)).

Definition padded (data kernel : list R) : list R :=
  let L := Nat.min (length data) (length kernel) in
  repeat (hd 0 data) L ++ data ++ repeat (last data 0) L.

(** [n_start = floor((len(out) - L) / 2)] *)
Definition n_start (out : list R) (L : nat) : Z :=
  ((Z.of_nat (length out) - Z.of_nat L) / 2)%Z.

(** [out[n_start : n_start + L]] *)
Definition convolve (data kernel : list R) : list R :=
  let L := Nat.min (length data) (length kernel) in
  let out := valid_convolution (padded data kernel) kernel in
  Py.slice (n_start out L) (n_start out L + Z.of_nat L) out.

(** The area of a kernel over the grid: its values summed against the
    grid spacing, and the trapezoidal rule on the grid. *)
Definition grid_spacing (x : list R) : R := nth 1 x 0 - nth 0 x 0.

Definition area (x kernel : list R) : R := Py.sum kernel * grid_spacing x.

Fixpoint trapezoid (x kernel : list R) : R :=
  match x, kernel with
  | x0 :: ((x1 :: _) as x'), k0 :: ((k1 :: _) as kernel') =>
      (k0 + k1) / 2 * (x1 - x0) + trapezoid x' kernel'
  | _, _ => 0
  end.

(** The kernel as the specification words it: the Gaussian of unit
    height centred at [mean(x)], scaled by [1 / (sqrt(2 pi) sigma)]. *)
Definition unit_gaussian (x : list R) (center sigma : R) : list R :=
  map (fun xi => exp (- (xi - center) ^ 2 / (2 * sigma ^ 2))) x.

Definition kernel (x : list R) (sigma : R) : list R :=
  Py.scale (1 / (sqrt (2 * PI) * sigma)) (unit_gaussian x (Py.mean x) sigma).

End Spec.

(** ** Notions the properties are stated with *)

(** Finite sums over an index range,
    [fold_right add zero (map f (seq 0 n))]; the sums of reals ([Py.sum])
    and of complex numbers ([Cplx.sum]) are both of this form. *)
Section BigDef.

Variable A : Type.
Variable zero : A.
Variable add : A -> A -> A.

Definition big (f : nat -> A) (n : nat) : A :=
  fold_right add zero (map f (seq 0 n)).

End BigDef.

Definition Rbig : (nat -> R) -> nat -> R := big R 0 Rplus.

Module Sums.

Import Cplx Scipy.

Definition Cbig : (nat -> C) -> nat -> C := big C zero add.

(** The transform of a real sequence, read off the padded list. *)
Definition dft (n : nat) (a : list R) (k : nat) : C :=
  Cbig (fun m => mul (of_R (nth m a 0)) (twiddle n (- (Z.of_nat k * Z.of_nat m)))) n.

(** The terms of the full inverse transform of the product of two
    transforms. *)
Definition product_term (n : nat) (a b : list R) (m k : nat) : C :=
  mul (mul (dft n a k) (dft n b k)) (twiddle n (Z.of_nat k * Z.of_nat m)).

End Sums.

(** The length of the convolution output before it is cropped, for both
    engines: the padded data has [N + 2L] points, and the shorter of it
    and the kernel slides over the longer one. *)
Definition out_length (N M : nat) : nat :=
  let P := (N + 2 * Nat.min N M)%nat in
  (Nat.max P M - Nat.min P M + 1)%nat.

(** The points of the result of [convolve], for a kernel as long as the
    data. *)
Definition conv_point (data kernel : list R) (i : nat) : R :=
  let L := length data in
  let padded := repeat (hd 0 data) L ++ data ++ repeat (last data 0) L in
  Rbig (fun j => nth (i + (L + 1) / 2 + L - 1 - j) padded 0 * nth j kernel 0)
       L.




(** ** Notions for the further properties *)

(** The kernel that is 1 at index [j] and 0 elsewhere. *)
Definition impulse (n j : nat) : list R :=
  map (fun k => if (k =? j)%nat then 1 else 0) (seq 0 n).

(** An index brought back into [0 .. n - 1]. *)
Definition clamp_index (n : nat) (z : Z) : nat :=
  Z.to_nat (Z.max 0 (Z.min (Z.of_nat n - 1) z)).

(** A grid moved by [t], and a lineshape with its centre moved by [t]. *)
Definition shift (t : R) (x : list R) : list R := map (fun xi => xi + t) x.

Definition shift_center (t : R) (s : shape) : shape :=
  match s with
  | Singlet sigma gamma gaussian_sigma center =>
      Singlet sigma gamma gaussian_sigma (center + t)
  | Doublet sigma gamma gaussian_sigma center soc height_ratio fck =>
      Doublet sigma gamma gaussian_sigma (center + t) soc height_ratio fck
  | FermiEdge center kt sigma => FermiEdge (center + t) kt sigma
  end.

(** * Properties *)

(** ** Lengths *)

Lemma length_scale (c : R) (l : list R) : length (Py.scale c l) = length l.
Proof. apply length_map. Qed.

Lemma length_ones (n : nat) : length (Py.ones n) = n.
Proof. apply repeat_length. Qed.

Lemma scale_ones (c : R) (n : nat) : Py.scale c (Py.ones n) = repeat c n.
Proof.
  unfold Py.scale, Py.ones.
  induction n as [|n IH]; simpl; [reflexivity|].
  rewrite IH. f_equal. lra.
Qed.

Lemma last_elt_last {A : Type} (l : list A) (d : A) :
  l <> [] -> Py.last_elt l = Some (last l d).
Proof.
  induction l as [|a [|b l] IH]; intros H.
  - contradiction.
  - reflexivity.
  - change (Py.last_elt (b :: l) = Some (last (b :: l) d)).
    apply IH. discriminate.
Qed.

Lemma padded_data_some (data kernel : list R) :
  data <> [] ->
  padded_data data kernel
  = Some (repeat (hd 0 data) (min_num_pts data kernel) ++ data
          ++ repeat (last data 0) (min_num_pts data kernel)).
Proof.
  intros H. unfold padded_data, padding.
  rewrite (last_elt_last data 0 H).
  destruct data as [|d0 data]; [contradiction|].
  simpl Py.first. cbv iota. rewrite !scale_ones. reflexivity.
Qed.

Lemma padded_data_length (data kernel p : list R) :
  padded_data data kernel = Some p ->
  length p = (length data + 2 * min_num_pts data kernel)%nat.
Proof.
  unfold padded_data.
  destruct (Py.first data); [|discriminate].
  destruct (Py.last_elt data); [|discriminate].
  intros [= <-]. rewrite !length_app, !length_scale.
  unfold padding. rewrite length_ones. lia.
Qed.

Lemma length_correlate_valid (a w : list R) :
  length (Numpy.correlate_valid a w) = (length a - length w + 1)%nat.
Proof. unfold Numpy.correlate_valid. now rewrite length_map, length_seq. Qed.

Lemma convolve_valid_some (a v : list R) :
  a <> [] -> v <> [] ->
  exists out, Numpy.convolve_valid a v = Some out /\
    length out
    = (Nat.max (length a) (length v) - Nat.min (length a) (length v) + 1)%nat.
Proof.
  intros Ha Hv. unfold Numpy.convolve_valid.
  destruct (Nat.ltb_spec (length a) (length v)) as [Hlt|Hge].
  - destruct v as [|v0 v]; [contradiction|].
    destruct a as [|a0 a]; [contradiction|].
    eexists. split; [reflexivity|].
    rewrite length_correlate_valid, length_rev. lia.
  - destruct a as [|a0 a]; [contradiction|].
    destruct v as [|v0 v]; [contradiction|].
    eexists. split; [reflexivity|].
    rewrite length_correlate_valid, length_rev. lia.
Qed.

Lemma length_slice_from {A : Type} (n : Z) (l : list A) :
  length (Py.slice_from n l)
  = if (n <? 0)%Z then Nat.min (length l) (Z.to_nat (- n))
    else (length l - Z.to_nat n)%nat.
Proof.
  unfold Py.slice_from. destruct (Z.ltb_spec n 0); rewrite length_skipn; lia.
Qed.

(** The cropped output has [npts] points exactly when the convolution
    output is at least that long. *)
Lemma length_crop (out : list R) (npts : nat) :
  (length (crop out npts) <= Nat.min npts (length out))%nat /\
  (length (crop out npts) = npts <-> (npts <= length out)%nat).
Proof.
  unfold crop, n_start_data, Py.int_div.
  rewrite length_firstn, length_slice_from.
  set (d := (Z.of_nat (length out) - Z.of_nat npts)%Z).
  assert (Hq : (0 <= d -> 0 <= d ÷ 2 /\ 2 * (d ÷ 2) <= d)%Z)
    by (Z.to_euclidean_division_equations; lia).
  assert (Hn : (d < 0 -> d ÷ 2 <= 0 /\ - d <= 2 * - (d ÷ 2) + 1)%Z)
    by (Z.to_euclidean_division_equations; lia).
  destruct (Z.ltb_spec (d ÷ 2) 0); lia.
Qed.

Lemma search_fast_ge (fuel n : nat) : (n <= Scipy.search_fast fuel n)%nat.
Proof.
  revert n. induction fuel as [|f IH]; intros n; simpl; [lia|].
  destruct (Scipy.smooth5 n); [lia|]. specialize (IH (S n)). lia.
Qed.

Lemma next_fast_len_ge (target : nat) :
  (target <= Scipy.next_fast_len target)%nat.
Proof. apply search_fast_ge. Qed.

Lemma length_irfft (A : list Cplx.C) (n : nat) :
  length (Scipy.irfft A n) = n.
Proof. unfold Scipy.irfft. now rewrite length_map, length_seq. Qed.

Lemma length_freq_domain_conv (in1 in2 : list R) (shape : nat) :
  length (Scipy.freq_domain_conv in1 in2 shape) = shape.
Proof.
  unfold Scipy.freq_domain_conv.
  rewrite length_firstn, length_irfft.
  pose proof (next_fast_len_ge shape). lia.
Qed.

Lemma length_fftconvolve_valid (in1 in2 : list R) :
  in1 <> [] -> in2 <> [] -> (length in2 <= length in1)%nat ->
  length (Scipy.fftconvolve_valid in1 in2)
  = (length in1 - length in2 + 1)%nat.
Proof.
  intros H1 H2 Hle. unfold Scipy.fftconvolve_valid.
  destruct in1 as [|a in1]; [contradiction|].
  destruct in2 as [|b in2]; [contradiction|].
  unfold Scipy.centered.
  rewrite length_firstn, length_skipn, length_freq_domain_conv.
  set (s1 := length (a :: in1)) in *. set (s2 := length (b :: in2)) in *.
  assert (0 < s2)%nat by (unfold s2; simpl; lia).
  assert (((s1 + s2 - 1 - (s1 - s2 + 1)) / 2 = s2 - 1)%nat) as ->.
  { replace (s1 + s2 - 1 - (s1 - s2 + 1))%nat with ((s2 - 1) * 2)%nat by lia.
    apply Nat.div_mul. lia. }
  lia.
Qed.

Lemma length_convolve_valid_fft (a v : list R) :
  a <> [] -> v <> [] ->
  exists out,
    Scipy.convolve_valid_fft a v = Some out /\
    length out
    = (Nat.max (length a) (length v) - Nat.min (length a) (length v) + 1)%nat.
Proof.
  intros Ha Hv. unfold Scipy.convolve_valid_fft.
  destruct (Nat.ltb_spec (length a) (length v)).
  - pose proof (length_fftconvolve_valid v a Hv Ha) as Hl.
    destruct (Scipy.fftconvolve_valid v a) as [|o out];
      [simpl in Hl; lia|].
    eexists. split; [reflexivity|]. rewrite Hl by lia. lia.
  - pose proof (length_fftconvolve_valid a v Ha Hv) as Hl.
    destruct (Scipy.fftconvolve_valid a v) as [|o out];
      [simpl in Hl; lia|].
    eexists. split; [reflexivity|]. rewrite Hl by lia. lia.
Qed.

Lemma padded_nonempty (data kernel p : list R) :
  padded_data data kernel = Some p -> p <> [].
Proof.
  unfold padded_data. destruct data as [|d0 data]; [discriminate|].
  simpl Py.first. destruct (Py.last_elt (d0 :: data)); [|discriminate].
  intros [= <-] H. apply (f_equal (@length R)) in H.
  rewrite !length_app in H. simpl in H. lia.
Qed.


Lemma conv_out_length (data kernel : list R) :
  data <> [] -> kernel <> [] ->
  exists out, conv_out data kernel = Some out /\
    length out = out_length (length data) (length kernel).
Proof.
  intros Hd Hk. unfold conv_out.
  pose proof (padded_data_some data kernel Hd) as Hp. rewrite Hp.
  pose proof (padded_data_length _ _ _ Hp) as Hl.
  pose proof (padded_nonempty _ _ _ Hp) as Hne.
  destruct (convolve_valid_some _ kernel Hne Hk) as [out [-> Hout]].
  exists out. split; [reflexivity|].
  rewrite Hout, Hl. reflexivity.
Qed.

Lemma fft_out_length (data kernel : list R) :
  data <> [] -> kernel <> [] ->
  exists out, fft_out data kernel = Some out /\
    length out = out_length (length data) (length kernel).
Proof.
  intros Hd Hk. unfold fft_out.
  pose proof (padded_data_some data kernel Hd) as Hp. rewrite Hp.
  pose proof (padded_data_length _ _ _ Hp) as Hl.
  pose proof (padded_nonempty _ _ _ Hp) as Hne.
  destruct (length_convolve_valid_fft _ kernel Hne Hk) as [out [-> Hout]].
  exists out. split; [reflexivity|].
  rewrite Hout, Hl. reflexivity.
Qed.

Lemma out_length_enough (N M : nat) :
  (0 < N)%nat -> (0 < M)%nat ->
  (Nat.min N M <= out_length N M)%nat
  <-> (M <= 2 * N + 1 \/ 4 * N <= M + 1)%nat.
Proof. unfold out_length. lia. Qed.

Lemma nonempty_length {A : Type} (l : list A) : l <> [] -> (0 < length l)%nat.
Proof. destruct l; [contradiction|simpl; lia]. Qed.

(** C1, as amended: on non-empty data of length N and a non-empty kernel
    of length M, [convolve] and [fft_convolve] both return a sequence, and
    each has length min(N, M) exactly when M <= 2N + 1 or M >= 4N - 1. *)
Theorem convolve_length (data kernel : list R) :
  data <> [] -> kernel <> [] ->
  exists r r',
    convolve data kernel = Some r /\
    fft_convolve data kernel = Some r' /\
    (length r = Nat.min (length data) (length kernel)
     <-> (length kernel <= 2 * length data + 1
          \/ 4 * length data <= length kernel + 1)%nat) /\
    (length r' = Nat.min (length data) (length kernel)
     <-> (length kernel <= 2 * length data + 1
          \/ 4 * length data <= length kernel + 1)%nat).
Proof.
  intros Hd Hk.
  destruct (conv_out_length data kernel Hd Hk) as [out [Ho Hlo]].
  destruct (fft_out_length data kernel Hd Hk) as [out' [Ho' Hlo']].
  unfold convolve, fft_convolve. rewrite Ho, Ho'.
  do 2 eexists. split; [reflexivity|]. split; [reflexivity|].
  pose proof (out_length_enough (length data) (length kernel)
                (nonempty_length _ Hd) (nonempty_length _ Hk)) as Hen.
  destruct (length_crop out (min_num_pts data kernel)) as [_ Hc].
  destruct (length_crop out' (min_num_pts data kernel)) as [_ Hc'].
  unfold min_num_pts in *. rewrite Hlo in Hc. rewrite Hlo' in Hc'.
  split; [rewrite Hc | rewrite Hc']; exact Hen.
Qed.

Lemma convolve_length_witness :
  exists r r',
    convolve [1; 2; 3] [1; 1] = Some r /\
    fft_convolve [1; 2; 3] [1; 1] = Some r' /\
    (length r = 2%nat <-> (2 <= 2 * 3 + 1 \/ 4 * 3 <= 2 + 1)%nat) /\
    (length r' = 2%nat <-> (2 <= 2 * 3 + 1 \/ 4 * 3 <= 2 + 1)%nat).
Proof.
  apply (convolve_length [1; 2; 3] [1; 1]); discriminate.
Defined.

(** C1 fails as stated: data of 2 points and a kernel of 6 points give a
    single output point in both engines, not min(2, 6) = 2. *)
Lemma convolve_length_counterexample :
  exists r r',
    convolve [1; 2] [1; 1; 1; 1; 1; 1] = Some r /\
    fft_convolve [1; 2] [1; 1; 1; 1; 1; 1] = Some r' /\
    length r <> Nat.min 2 6 /\ length r' <> Nat.min 2 6.
Proof.
  assert (Hd : [1; 2] <> ([] : list R)) by discriminate.
  assert (Hk : [1; 1; 1; 1; 1; 1] <> ([] : list R)) by discriminate.
  destruct (conv_out_length _ _ Hd Hk) as [out [Ho Hlo]].
  destruct (fft_out_length _ _ Hd Hk) as [out' [Ho' Hlo']].
  unfold convolve, fft_convolve. rewrite Ho, Ho'.
  do 2 eexists. split; [reflexivity|]. split; [reflexivity|].
  destruct (length_crop out (min_num_pts [1; 2] [1; 1; 1; 1; 1; 1])) as [Hc _].
  destruct (length_crop out' (min_num_pts [1; 2] [1; 1; 1; 1; 1; 1])) as [Hc' _].
  rewrite Hlo in Hc. rewrite Hlo' in Hc'.
  unfold min_num_pts, out_length in *. simpl in *. lia.
Qed.

(** ** Finite sums over an index range *)

Section Big.

Variable A : Type.
Variable zero : A.
Variable add : A -> A -> A.
Hypothesis add_comm : forall a b, add a b = add b a.
Hypothesis add_assoc : forall a b c, add a (add b c) = add (add a b) c.
Hypothesis add_0_l : forall a, add zero a = a.

Local Abbreviation big := (big A zero add).

Lemma big_0 (f : nat -> A) : big f 0 = zero.
Proof. reflexivity. Qed.

Lemma big_shift (f : nat -> A) (n : nat) :
  big f (S n) = add (f 0%nat) (big (fun i => f (S i)) n).
Proof.
  unfold big. simpl. f_equal. now rewrite <- seq_shift, map_map.
Qed.

Lemma big_ext (f g : nat -> A) (n : nat) :
  (forall i, (i < n)%nat -> f i = g i) -> big f n = big g n.
Proof.
  intros H. unfold big. f_equal. apply map_ext_in.
  intros i Hi. apply in_seq in Hi. apply H. lia.
Qed.

Lemma big_S (f : nat -> A) (n : nat) : big f (S n) = add (big f n) (f n).
Proof.
  revert f. induction n as [|n IH]; intros f.
  - unfold big. simpl. now rewrite add_0_l, add_comm, add_0_l.
  - rewrite big_shift, IH, big_shift. now rewrite add_assoc.
Qed.

Lemma big_zero (n : nat) : big (fun _ => zero) n = zero.
Proof.
  induction n as [|n IH]; [reflexivity|]. now rewrite big_S, IH, add_0_l.
Qed.

Lemma big_add (f g : nat -> A) (n : nat) :
  big (fun i => add (f i) (g i)) n = add (big f n) (big g n).
Proof.
  induction n as [|n IH]; [now rewrite !big_0, add_0_l|].
  rewrite !big_S, IH.
  rewrite <- !add_assoc. f_equal.
  rewrite !add_assoc. f_equal. apply add_comm.
Qed.

Lemma big_swap (f : nat -> nat -> A) (n m : nat) :
  big (fun i => big (fun j => f i j) m) n
  = big (fun j => big (fun i => f i j) n) m.
Proof.
  induction n as [|n IH].
  - rewrite big_0. symmetry. apply big_zero.
  - rewrite big_S, IH, <- big_add. apply big_ext.
    intros j _. now rewrite big_S.
Qed.

Lemma big_rev (f : nat -> A) (n : nat) :
  big f n = big (fun i => f (n - 1 - i)%nat) n.
Proof.
  revert f. induction n as [|n IH]; intros f; [reflexivity|].
  rewrite big_S, big_shift.
  replace (S n - 1 - 0)%nat with n by lia.
  rewrite add_comm. f_equal. rewrite IH. apply big_ext.
  intros i Hi. f_equal. lia.
Qed.

Lemma big_app (f : nat -> A) (n m : nat) :
  big f (n + m) = add (big f n) (big (fun i => f (n + i)%nat) m).
Proof.
  induction m as [|m IH].
  - rewrite Nat.add_0_r, big_0, add_comm. now rewrite add_0_l.
  - rewrite Nat.add_succ_r, !big_S, IH. now rewrite add_assoc.
Qed.

(** A sum with a single term that is not zero. *)
Lemma big_single (f : nat -> A) (n k : nat) :
  (k < n)%nat -> (forall i, (i < n)%nat -> i <> k -> f i = zero) ->
  big f n = f k.
Proof.
  intros Hk Hz.
  replace n with (k + S (n - k - 1))%nat by lia.
  rewrite big_app, big_shift, Nat.add_0_r.
  rewrite (big_ext f (fun _ => zero) k) by (intros; apply Hz; lia).
  rewrite (big_ext (fun i => f (k + S i)%nat) (fun _ => zero))
    by (intros; apply Hz; lia).
  rewrite !big_zero, add_0_l, add_comm. apply add_0_l.
Qed.

End Big.

(** ** Sums of reals *)


Lemma Rplus_assoc' (a b c : R) : a + (b + c) = a + b + c.
Proof. ring. Qed.

Lemma sum_map_seq (f : nat -> R) (n : nat) :
  Py.sum (map f (seq 0 n)) = Rbig f n.
Proof. reflexivity. Qed.

Lemma Rbig_ext (f g : nat -> R) (n : nat) :
  (forall i, (i < n)%nat -> f i = g i) -> Rbig f n = Rbig g n.
Proof. apply big_ext. Qed.

Lemma Rbig_S (f : nat -> R) (n : nat) : Rbig f (S n) = Rbig f n + f n.
Proof. apply big_S; [apply Rplus_comm | apply Rplus_assoc' | apply Rplus_0_l]. Qed.

Lemma Rbig_shift (f : nat -> R) (n : nat) :
  Rbig f (S n) = f 0%nat + Rbig (fun i => f (S i)) n.
Proof. apply big_shift. Qed.

Lemma Rbig_rev (f : nat -> R) (n : nat) :
  Rbig f n = Rbig (fun i => f (n - 1 - i)%nat) n.
Proof. apply big_rev; [apply Rplus_comm | apply Rplus_assoc' | apply Rplus_0_l]. Qed.

Lemma Rbig_add (f g : nat -> R) (n : nat) :
  Rbig (fun i => f i + g i) n = Rbig f n + Rbig g n.
Proof. apply big_add; [apply Rplus_comm | apply Rplus_assoc' | apply Rplus_0_l]. Qed.

Lemma Rbig_scal (c : R) (f : nat -> R) (n : nat) :
  Rbig (fun i => c * f i) n = c * Rbig f n.
Proof.
  induction n as [|n IH]; [unfold Rbig, big; simpl; ring|].
  rewrite !Rbig_S, IH. ring.
Qed.

(** ** The direct convolution, index by index *)

Lemma dot_big (u w : list R) :
  Numpy.dot u w
  = Rbig (fun j => nth j u 0 * nth j w 0) (Nat.min (length u) (length w)).
Proof.
  revert w. induction u as [|a u IH]; intros [|b w]; try reflexivity.
  simpl Numpy.dot. simpl length. simpl Nat.min.
  rewrite Rbig_shift, IH. reflexivity.
Qed.

Lemma correlate_rev_term (p v : list R) (k : nat) :
  (k + length v <= length p)%nat ->
  Numpy.dot (firstn (length (rev v)) (skipn k p)) (rev v)
  = Rbig (fun j => nth (k + length v - 1 - j) p 0 * nth j v 0) (length v).
Proof.
  intros Hk. rewrite dot_big, length_firstn, length_skipn, length_rev.
  replace (Nat.min (Nat.min (length v) (length p - k)) (length v))
    with (length v) by lia.
  rewrite Rbig_rev. apply Rbig_ext. intros j Hj.
  rewrite nth_firstn, nth_skipn, rev_nth by lia.
  destruct (Nat.ltb_spec (length v - 1 - j) (length v)); [|lia].
  f_equal; f_equal; lia.
Qed.

(** For a kernel no longer than the padded data, numpy's valid
    convolution is the valid convolution of the specification. *)
Lemma correlate_valid_spec (p v : list R) :
  (length v <= length p)%nat ->
  Numpy.correlate_valid p (rev v) = Spec.valid_convolution p v.
Proof.
  intros Hle. unfold Numpy.correlate_valid, Spec.valid_convolution.
  rewrite length_rev.
  replace (length p + 1 - length v)%nat with (length p - length v + 1)%nat
    by lia.
  apply map_ext_in. intros k Hk. apply in_seq in Hk.
  rewrite sum_map_seq, <- correlate_rev_term by lia.
  now rewrite length_rev.
Qed.

Lemma convolve_valid_spec (p v : list R) :
  v <> [] -> (length v <= length p)%nat ->
  Numpy.convolve_valid p v = Some (Spec.valid_convolution p v).
Proof.
  intros Hv Hle. unfold Numpy.convolve_valid.
  destruct (Nat.ltb_spec (length p) (length v)); [lia|].
  destruct p as [|a p].
  - destruct v; [contradiction|simpl in Hle; lia].
  - destruct v as [|b v]; [contradiction|].
    now rewrite correlate_valid_spec.
Qed.

(** With a start that is not negative and enough output, the crop of the
    source is the slice of the specification. *)
Lemma crop_slice (out : list R) (L : nat) :
  (L <= length out)%nat ->
  n_start_data out L = Spec.n_start out L /\
  crop out L
  = Py.slice (Spec.n_start out L) (Spec.n_start out L + Z.of_nat L) out.
Proof.
  intros HL.
  assert (Hn : n_start_data out L = Spec.n_start out L).
  { unfold n_start_data, Spec.n_start, Py.int_div.
    apply Z.quot_div_nonneg; lia. }
  split; [exact Hn|].
  unfold crop. rewrite Hn. unfold Spec.n_start, Py.slice, Py.slice_from, Py.clamp.
  set (n := ((Z.of_nat (length out) - Z.of_nat L) / 2)%Z).
  assert (0 <= n /\ 2 * n <= Z.of_nat (length out) - Z.of_nat L)%Z as [Hn0 Hn2].
  { unfold n. split; [apply Z.div_pos; lia|].
    apply Z.mul_div_le. lia. }
  destruct (Z.ltb_spec n 0); [lia|].
  destruct (Z.ltb_spec (n + Z.of_nat L) 0); [lia|].
  rewrite !Z.min_r by lia.
  f_equal. lia.
Qed.

(** With fewer output points than [L] and an even shortfall, the
    truncated start is still the floor, and the crop of the source is
    still the slice of the specification. *)
Lemma crop_slice_short (out : list R) (L : nat) :
  (length out < L)%nat -> Nat.Even (L - length out) ->
  n_start_data out L = Spec.n_start out L /\
  crop out L
  = Py.slice (Spec.n_start out L) (Spec.n_start out L + Z.of_nat L) out.
Proof.
  intros Hlt [k Hk].
  assert (Hq : n_start_data out L = (- Z.of_nat k)%Z).
  { unfold n_start_data, Py.int_div.
    replace (Z.of_nat (length out) - Z.of_nat L)%Z
      with (- Z.of_nat k * 2)%Z by lia.
    apply Z.quot_mul. lia. }
  assert (Hd : Spec.n_start out L = (- Z.of_nat k)%Z).
  { unfold Spec.n_start.
    replace (Z.of_nat (length out) - Z.of_nat L)%Z
      with (- Z.of_nat k * 2)%Z by lia.
    apply Z.div_mul. lia. }
  split; [now rewrite Hq, Hd|].
  unfold crop. rewrite Hq, Hd.
  unfold Py.slice, Py.slice_from, Py.clamp.
  destruct (Z.ltb_spec (- Z.of_nat k) 0); [|lia].
  destruct (Z.ltb_spec (- Z.of_nat k + Z.of_nat L) 0); [lia|].
  rewrite Z.min_l by lia.
  replace (Z.to_nat (Z.max 0 (Z.of_nat (length out) + - Z.of_nat k)))
    with (Z.to_nat (Z.of_nat (length out) + - Z.of_nat k)) by lia.
  set (a := Z.to_nat (Z.of_nat (length out) + - Z.of_nat k)).
  rewrite !firstn_all2; [reflexivity| |]; rewrite length_skipn; lia.
Qed.

(** C4, as amended: for non-empty data of length N and a non-empty kernel
    of length M, with L = min(N, M), the description holds, that is,
    [convolve] pads the data with L copies of [data[0]] in front and L
    copies of [data[-1]] behind, to N + 2L points; its valid convolution
    [out] has [len(padded) - M + 1] points; [n_start], the quotient of
    [len(out) - L] by 2 truncated toward zero, is the floor; and the
    result is [out[n_start : n_start + L]], exactly when M <= 2N + 1, or
    M <= 3N and M is odd. *)
Theorem convolve_algorithm (data kernel : list R) :
  data <> [] -> kernel <> [] ->
  let L := Nat.min (length data) (length kernel) in
  ((length kernel <= 2 * length data + 1)%nat
   \/ ((length kernel <= 3 * length data)%nat /\ Nat.Odd (length kernel)))
  <->
  exists padded out,
    padded_data data kernel = Some padded /\
    padded = repeat (hd 0 data) L ++ data ++ repeat (last data 0) L /\
    length padded = (length data + 2 * L)%nat /\
    conv_out data kernel = Some out /\
    out = Spec.valid_convolution padded kernel /\
    Z.of_nat (length out)
    = (Z.of_nat (length padded) - Z.of_nat (length kernel) + 1)%Z /\
    n_start_data out L = ((Z.of_nat (length out) - Z.of_nat L) / 2)%Z /\
    convolve data kernel
    = Some (Py.slice (n_start_data out L) (n_start_data out L + Z.of_nat L)
              out) /\
    convolve data kernel = Some (Spec.convolve data kernel).
Proof.
  intros Hd Hk L.
  pose proof (padded_data_some data kernel Hd) as Hp.
  pose proof (padded_data_length _ _ _ Hp) as Hl.
  pose proof (nonempty_length _ Hd) as HN.
  pose proof (nonempty_length _ Hk) as HM0.
  set (padded := repeat (hd 0 data) L ++ data ++ repeat (last data 0) L).
  fold L in Hp, Hl. unfold min_num_pts in Hp, Hl. fold L in Hp, Hl.
  fold padded in Hp, Hl.
  split.
  - intros HM.
    assert (Hle : (length kernel <= length padded)%nat) by lia.
    exists padded, (Spec.valid_convolution padded kernel).
    assert (Hout : conv_out data kernel
                   = Some (Spec.valid_convolution padded kernel)).
    { unfold conv_out. rewrite Hp. now apply convolve_valid_spec. }
    assert (Hlen : length (Spec.valid_convolution padded kernel)
                   = (length padded + 1 - length kernel)%nat).
    { unfold Spec.valid_convolution. now rewrite length_map, length_seq. }
    assert (Hcs : n_start_data (Spec.valid_convolution padded kernel) L
                  = Spec.n_start (Spec.valid_convolution padded kernel) L /\
                  crop (Spec.valid_convolution padded kernel) L
                  = Py.slice
                      (Spec.n_start (Spec.valid_convolution padded kernel) L)
                      (Spec.n_start (Spec.valid_convolution padded kernel) L
                       + Z.of_nat L)
                      (Spec.valid_convolution padded kernel)).
    { destruct (Nat.le_gt_cases (length kernel) (2 * length data + 1))
        as [Hs|Hs].
      - apply crop_slice. lia.
      - destruct HM as [HM|[HM [m Hm]]]; [lia|].
        apply crop_slice_short; [lia|].
        exists (m - length data)%nat. lia. }
    destruct Hcs as [Hn Hc].
    assert (Hconv : convolve data kernel
                    = Some (Py.slice
                              (n_start_data
                                 (Spec.valid_convolution padded kernel) L)
                              (n_start_data
                                 (Spec.valid_convolution padded kernel) L
                               + Z.of_nat L)
                              (Spec.valid_convolution padded kernel))).
    { unfold convolve. rewrite Hout. unfold min_num_pts. fold L.
      rewrite Hc, Hn. reflexivity. }
    repeat split; try assumption; try reflexivity.
    + lia.
    + rewrite Hconv, Hn. reflexivity.
  - intros [p [out [Hp' [_ [Hlp [Ho [_ [Hlo [Hn _]]]]]]]]].
    destruct (conv_out_length data kernel Hd Hk) as [out' [Ho' Hlo']].
    rewrite Ho in Ho'. injection Ho' as <-.
    unfold out_length in Hlo'. fold L in Hlo'.
    destruct (Nat.le_gt_cases (length kernel) (2 * length data + 1))
      as [Hs|Hs]; [now left|].
    right.
    assert (HL : L = length data) by lia.
    assert (H3 : (length kernel <= 3 * length data)%nat) by lia.
    split; [exact H3|].
    destruct (Nat.Even_or_Odd (length kernel)) as [[m Hm]|Hodd];
      [|exact Hodd].
    exfalso. unfold n_start_data, Py.int_div in Hn.
    assert (Hlen : length out = (3 * length data + 1 - 2 * m)%nat) by lia.
    rewrite Hlen, HL in Hn.
    revert Hn. Z.to_euclidean_division_equations. lia.
Qed.

Lemma convolve_algorithm_witness :
  [1; 2; 4] <> ([] : list R) /\
  [1; 1; 1; 1; 1; 1; 1; 1; 1] <> ([] : list R) /\
  ((length [1; 1; 1; 1; 1; 1; 1; 1; 1] <= 3 * length [1; 2; 4])%nat /\
   Nat.Odd (length [1; 1; 1; 1; 1; 1; 1; 1; 1])) /\
  convolve [1; 2; 4] [1; 1; 1; 1; 1; 1; 1; 1; 1]
  = Some (Spec.convolve [1; 2; 4] [1; 1; 1; 1; 1; 1; 1; 1; 1]).
Proof.
  assert (Hd : [1; 2; 4] <> ([] : list R)) by discriminate.
  assert (Hk : [1; 1; 1; 1; 1; 1; 1; 1; 1] <> ([] : list R)) by discriminate.
  assert (HM : (length [1; 1; 1; 1; 1; 1; 1; 1; 1] <= 3 * length [1; 2; 4])%nat
               /\ Nat.Odd (length [1; 1; 1; 1; 1; 1; 1; 1; 1])).
  { split; [simpl; lia|]. exists 4%nat. reflexivity. }
  repeat split; try assumption; try (exact (proj1 HM)); try (exact (proj2 HM)).
  destruct (proj1 (convolve_algorithm [1; 2; 4] [1; 1; 1; 1; 1; 1; 1; 1; 1]
                     Hd Hk) (or_intror HM))
    as [p [out [_ [_ [_ [_ [_ [_ [_ [_ H]]]]]]]]]].
  exact H.
Defined.

(** C4 fails as stated: for data of one point and a kernel of five, the
    padded data has 3 points and numpy slides it over the kernel, so [out]
    has 3 points, not [len(padded) - M + 1 = -1]; the source returns one
    point where the algorithm of the specification returns none. *)
Lemma convolve_algorithm_counterexample :
  exists padded out r,
    padded_data [1] [1; 1; 1; 1; 1] = Some padded /\
    conv_out [1] [1; 1; 1; 1; 1] = Some out /\
    Z.of_nat (length out) <> (Z.of_nat (length padded) - 5 + 1)%Z /\
    convolve [1] [1; 1; 1; 1; 1] = Some r /\
    r <> Spec.convolve [1] [1; 1; 1; 1; 1].
Proof.
  assert (Hd : [1] <> ([] : list R)) by discriminate.
  assert (Hk : [1; 1; 1; 1; 1] <> ([] : list R)) by discriminate.
  pose proof (padded_data_some _ [1; 1; 1; 1; 1] Hd) as Hp.
  destruct (conv_out_length _ _ Hd Hk) as [out [Ho Hlo]].
  eexists. exists out. eexists.
  split; [exact Hp|]. split; [exact Ho|].
  split; [rewrite Hlo; unfold min_num_pts, out_length; simpl; lia|].
  unfold convolve. rewrite Ho. split; [reflexivity|].
  intros H. apply (f_equal (@length R)) in H.
  destruct (length_crop out (min_num_pts [1] [1; 1; 1; 1; 1])) as [_ Hc].
  rewrite Hlo in Hc. unfold min_num_pts, out_length in Hc. simpl in Hc.
  assert (length (crop out (min_num_pts [1] [1; 1; 1; 1; 1])) = 1%nat)
    by (apply Hc; lia).
  rewrite H in H0. unfold Spec.convolve, Py.slice in H0.
  rewrite length_firstn, length_skipn in H0.
  unfold Spec.valid_convolution in H0. rewrite length_map, length_seq in H0.
  simpl in H0. lia.
Qed.

(** ** Derived widths *)

Lemma lorentzian_fwhm_increasing (sigma g1 g2 : R) :
  0 < sigma -> 0 <= g1 -> g1 < g2 ->
  Derived.lorentzian_fwhm sigma g1 < Derived.lorentzian_fwhm sigma g2.
Proof.
  intros Hs H1 H12. unfold Derived.lorentzian_fwhm.
  apply Rmult_lt_compat_l; [assumption|].
  assert (H4 : (g1 * 3.6398) ^ 4 <= (g2 * 3.6398) ^ 4).
  { apply pow_incr. lra. }
  lra.
Qed.

(** C7, as amended: for a width [sigma > 0] and asymmetries
    [0 <= gamma1 < gamma2], [lorentzian_fwhm] is strictly larger at
    [gamma2] (and so is the doublet's second-component width when
    [fct_coster_kronig > 0]); [gaussian_fwhm] is strictly increasing in
    [gaussian_sigma] everywhere. *)
Theorem fwhm_monotone (sigma fct g1 g2 s1 s2 : R) :
  0 < sigma -> 0 < fct -> 0 <= g1 -> g1 < g2 -> s1 < s2 ->
  Derived.lorentzian_fwhm sigma g1 < Derived.lorentzian_fwhm sigma g2 /\
  Derived.lorentzian_fwhm_p2 sigma g1 fct
  < Derived.lorentzian_fwhm_p2 sigma g2 fct /\
  Derived.gaussian_fwhm s1 < Derived.gaussian_fwhm s2.
Proof.
  intros Hs Hf H1 H12 Hs12.
  pose proof (lorentzian_fwhm_increasing sigma g1 g2 Hs H1 H12) as HL.
  split; [exact HL|]. split.
  - unfold Derived.lorentzian_fwhm_p2. unfold Derived.lorentzian_fwhm in HL.
    apply Rmult_lt_compat_r; assumption.
  - unfold Derived.gaussian_fwhm. lra.
Qed.

Lemma fwhm_monotone_witness :
  0 < 1 /\ 0 < 1 /\ 0 <= 0 /\ 0 < 1 /\ 0 < 1 /\
  Derived.lorentzian_fwhm 1 0 < Derived.lorentzian_fwhm 1 1 /\
  Derived.lorentzian_fwhm_p2 1 0 1 < Derived.lorentzian_fwhm_p2 1 1 1 /\
  Derived.gaussian_fwhm 0 < Derived.gaussian_fwhm 1.
Proof.
  repeat (split; [lra|]).
  apply (fwhm_monotone 1 1 0 1 0 1); lra.
Defined.

(** C7 fails as stated at the bound [sigma = 0], which the hints allow:
    there [lorentzian_fwhm] is 0 for every [gamma]. *)
Lemma fwhm_monotone_counterexample :
  0 <= 0 /\ 0 <= 0 /\ 0 < 1 /\
  ~ Derived.lorentzian_fwhm 0 0 < Derived.lorentzian_fwhm 0 1.
Proof.
  repeat (split; [lra|]). unfold Derived.lorentzian_fwhm. lra.
Qed.

(** ** Maximum, minimum and mean of a sequence *)

Lemma fold_left_Rmax_spec (l : list R) (a : R) :
  let m := fold_left Rmax l a in
  a <= m /\ (forall b, In b l -> b <= m) /\ (m = a \/ In m l).
Proof.
  revert a. induction l as [|b l IH]; intros a; simpl.
  - split; [lra|]. split; [contradiction|]. now left.
  - destruct (IH (Rmax a b)) as [H1 [H2 H3]].
    pose proof (Rmax_l a b). pose proof (Rmax_r a b).
    split; [lra|]. split.
    + intros c [<-|Hc]; [lra|]. now apply H2.
    + destruct H3 as [H3|H3]; [|now right; right].
      rewrite H3. unfold Rmax. destruct (Rle_dec a b); [right|]; now left.
Qed.


Lemma max_spec (l : list R) (m : R) :
  Py.max l = Some m -> In m l /\ forall b, In b l -> b <= m.
Proof.
  destruct l as [|a l]; [discriminate|]. intros [= <-].
  destruct (fold_left_Rmax_spec l a) as [H1 [H2 H3]]. split.
  - destruct H3 as [->|H3]; [now left|now right].
  - intros b [<-|Hb]; [exact H1|now apply H2].
Qed.


Lemma max_some (l : list R) : l <> [] -> exists m, Py.max l = Some m.
Proof. destruct l; [contradiction|]. intros _. eexists. reflexivity. Qed.

Lemma min_some (l : list R) : l <> [] -> exists m, Py.min l = Some m.
Proof. destruct l; [contradiction|]. intros _. eexists. reflexivity. Qed.



(** ** Hints and parameter sets *)


Lemma lookup_update_hint (name n : string) (kw : ParamHint)
    (hs : ParamHints) :
  lookup n (update_hint name kw hs)
  = if String.eqb name n
    then Some (merge (match lookup n hs with Some h => h | None => no_hint end)
                     kw)
    else lookup n hs.
Proof.
  induction hs as [|[m h] hs IH]; simpl.
  - destruct (String.eqb_spec name n) as [->|Hne]; reflexivity.
  - destruct (String.eqb_spec m name) as [->|Hmn]; simpl.
    + destruct (String.eqb_spec name n) as [->|Hne]; reflexivity.
    + destruct (String.eqb_spec m n) as [->|Hm].
      * destruct (String.eqb_spec name n) as [->|Hne]; [congruence|reflexivity].
      * exact IH.
Qed.


(** *** Names and prefixes *)

Lemma substring_all (s : string) : substring 0 (String.length s) s = s.
Proof. induction s as [|c s IH]; simpl; [reflexivity|]. now rewrite IH. Qed.


Lemma string_length_append (a b : string) :
  String.length (a ++ b) = (String.length a + String.length b)%nat.
Proof. induction a as [|c a IH]; simpl; [reflexivity|]. now rewrite IH. Qed.

Lemma substring_append (pre s : string) :
  substring (String.length pre) (String.length s) (pre ++ s)%string = s.
Proof.
  induction pre as [|c pre IH]; simpl; [apply substring_all|exact IH].
Qed.

Lemma prefix_split (pre n : string) :
  String.prefix pre n = true ->
  n = (pre ++ substring (String.length pre)
                (String.length n - String.length pre) n)%string.
Proof.
  revert n. induction pre as [|c pre IH]; intros n H.
  - simpl. rewrite Nat.sub_0_r. now rewrite substring_all.
  - destruct n as [|d n]; [discriminate|]. simpl in H.
    destruct (Ascii.ascii_dec c d) as [->|]; [|discriminate].
    simpl. f_equal. now apply IH.
Qed.



Lemma strip_prefix_spec (pre n : string) :
  strip_prefix pre n = n
  \/ (pre <> EmptyString /\ n = (pre ++ strip_prefix pre n)%string).
Proof.
  unfold strip_prefix.
  destruct (0 <? String.length pre)%nat eqn:E0; [|now left].
  destruct (String.prefix pre n) eqn:Ep; [|now left].
  right. split; [intros ->; discriminate|]. now apply prefix_split.
Qed.

(** Two names that start with different characters, neither of which
    ends with the other, are kept apart by every prefix. *)
Lemma strip_prefix_distinct (pre n m : string) :
  (forall c s s', n = String c s -> m = String c s' -> False) ->
  substring (String.length m - String.length n) (String.length n) m <> n ->
  substring (String.length n - String.length m) (String.length m) n <> m ->
  String.eqb (strip_prefix pre n) (strip_prefix pre m) = false.
Proof.
  intros Hc Hnm Hmn. apply String.eqb_neq. intros E.
  destruct (strip_prefix_spec pre n) as [En|[Hp En]];
    destruct (strip_prefix_spec pre m) as [Em|[Hq Em]].
  - rewrite En, Em in E. subst m. apply Hnm.
    rewrite Nat.sub_diag. apply substring_all.
  - rewrite En in E. rewrite <- E in Em. apply Hnm. subst m.
    rewrite string_length_append.
    replace (String.length pre + String.length n - String.length n)%nat
      with (String.length pre) by lia.
    apply substring_append.
  - rewrite Em in E. rewrite E in En. apply Hmn. subst n.
    rewrite string_length_append.
    replace (String.length pre + String.length m - String.length m)%nat
      with (String.length pre) by lia.
    apply substring_append.
  - destruct pre as [|c pre]; [now elim Hp|].
    simpl in En, Em. exact (Hc c _ _ En Em).
Qed.

Lemma lookup_after_set (self : Model) (n m : string) (kw : ParamHint) :
  lookup m (param_hints (set_hint self n kw))
  = if String.eqb (strip_prefix (prefix self) n) m
    then Some (merge (match lookup m (param_hints self) with
                      | Some h => h | None => no_hint end) kw)
    else lookup m (param_hints self).
Proof. unfold set_hint, set_param_hint. simpl. apply lookup_update_hint. Qed.



Lemma clip_id (lo hi : option R) (v : R) :
  (forall l, lo = Some l -> l <= v) -> (forall h, hi = Some h -> v <= h) ->
  clip lo hi v = v.
Proof.
  intros Hl Hh. unfold clip.
  destruct hi as [h|].
  - specialize (Hh _ eq_refl). destruct (Rlt_dec h v); [lra|].
    destruct lo as [l|]; [|reflexivity].
    specialize (Hl _ eq_refl). destruct (Rlt_dec v l); [lra|reflexivity].
  - destruct lo as [l|]; [|reflexivity].
    specialize (Hl _ eq_refl). destruct (Rlt_dec v l); [lra|reflexivity].
Qed.




(** ** Initial guesses *)






(** C9: in each of the three models, [guess] called without a grid
    returns [None] and leaves the model's parameter hints as they were,
    whatever the data and keyword arguments. *)
Theorem guess_without_grid
    (guess_from_peak : list R -> list R -> option PeakPars)
    (self : Model) (data : list R) (kwargs : Kwargs) :
  ConvGaussianDoniachSinglett.guess guess_from_peak self data None kwargs
  = (NoSeed, self) /\
  ConvGaussianDoniachDublett.guess guess_from_peak self data None kwargs
  = (NoSeed, self) /\
  FermiEdgeModel.guess self data None kwargs = (NoSeed, self).
Proof. repeat split. Qed.

(** ** Complex arithmetic *)

Module CplxFacts.

Import Cplx.

Lemma eq_parts (z w : C) : re z = re w -> im z = im w -> z = w.
Proof. destruct z, w. simpl. now intros -> ->. Qed.

Ltac parts := intros; apply eq_parts; unfold mul, add, opp, sub, conj,
  of_R, zero, one, re, im; simpl; ring.

Lemma add_comm (z w : C) : add z w = add w z.
Proof. parts. Qed.

Lemma add_assoc (z w u : C) : add z (add w u) = add (add z w) u.
Proof. parts. Qed.

Lemma add_0_l (z : C) : add zero z = z.
Proof. parts. Qed.

Lemma mul_comm (z w : C) : mul z w = mul w z.
Proof. parts. Qed.

Lemma mul_assoc (z w u : C) : mul z (mul w u) = mul (mul z w) u.
Proof. parts. Qed.

Lemma mul_1_l (z : C) : mul one z = z.
Proof. parts. Qed.

Lemma mul_0_l (z : C) : mul zero z = zero.
Proof. parts. Qed.

Lemma mul_0_r (z : C) : mul z zero = zero.
Proof. parts. Qed.

Lemma mul_add_l (z w u : C) : mul (add z w) u = add (mul z u) (mul w u).
Proof. parts. Qed.

Lemma mul_add_r (z w u : C) : mul u (add z w) = add (mul u z) (mul u w).
Proof. parts. Qed.

Lemma sub_def (z w : C) : sub z w = add z (opp w).
Proof. reflexivity. Qed.

Lemma add_opp_r (z : C) : add z (opp z) = zero.
Proof. parts. Qed.

Lemma ring_C : ring_theory zero one add mul sub opp (@eq C).
Proof.
  constructor.
  - exact add_0_l.
  - exact add_comm.
  - exact add_assoc.
  - exact mul_1_l.
  - exact mul_comm.
  - exact mul_assoc.
  - exact mul_add_l.
  - exact sub_def.
  - exact add_opp_r.
Qed.

Lemma of_R_mul (a b : R) : of_R (a * b) = mul (of_R a) (of_R b).
Proof. parts. Qed.

Lemma of_R_0 : of_R 0 = zero.
Proof. reflexivity. Qed.

Lemma conj_mul (z w : C) : conj (mul z w) = mul (conj z) (conj w).
Proof. parts. Qed.

Lemma conj_add (z w : C) : conj (add z w) = add (conj z) (conj w).
Proof. parts. Qed.

Lemma conj_of_R (a : R) : conj (of_R a) = of_R a.
Proof. parts. Qed.

Lemma re_conj (z : C) : re (conj z) = re z.
Proof. reflexivity. Qed.

(** The complex numbers have no zero divisors. *)
Lemma mul_eq_0 (z w : C) : mul z w = zero -> z <> zero -> w = zero.
Proof.
  destruct z as [a b], w as [c d]. unfold mul, zero, re, im. simpl.
  intros [= H1 H2] Hz.
  assert (Hn : 0 < a * a + b * b).
  { destruct (Rtotal_order a 0) as [Ha|[->|Ha]]; [nra| |nra].
    destruct (Rtotal_order b 0) as [Hb|[->|Hb]]; [nra| |nra].
    now elim Hz. }
  assert (Hc : (a * a + b * b) * c = 0).
  { replace ((a * a + b * b) * c)
      with (a * (a * c - b * d) + b * (a * d + b * c)) by ring.
    rewrite H1, H2. ring. }
  assert (Hd : (a * a + b * b) * d = 0).
  { replace ((a * a + b * b) * d)
      with (a * (a * d + b * c) - b * (a * c - b * d)) by ring.
    rewrite H1, H2. ring. }
  apply Rmult_integral in Hc. apply Rmult_integral in Hd.
  f_equal; lra.
Qed.

Lemma cis_add (s t : R) : cis (s + t) = mul (cis s) (cis t).
Proof.
  unfold cis, mul, re, im. simpl. rewrite cos_plus, sin_plus.
  f_equal; ring.
Qed.

Lemma cis_0 : cis 0 = one.
Proof. unfold cis, one. now rewrite cos_0, sin_0. Qed.

Lemma cis_neg (t : R) : cis (- t) = conj (cis t).
Proof. unfold cis, conj, re, im. simpl. now rewrite cos_neg, sin_neg. Qed.

Lemma cis_2PI_nat (k : nat) : cis (2 * PI * INR k) = one.
Proof.
  induction k as [|k IH].
  - simpl. rewrite Rmult_0_r. apply cis_0.
  - rewrite S_INR, Rmult_plus_distr_l, cis_add, IH, Rmult_1_r, mul_1_l.
    unfold cis, one. now rewrite cos_2PI, sin_2PI.
Qed.

Lemma cis_2PI_Z (k : Z) : cis (2 * PI * IZR k) = one.
Proof.
  destruct (Z.le_gt_cases 0 k) as [Hk|Hk].
  - rewrite <- (Z2Nat.id k Hk), <- INR_IZR_INZ. apply cis_2PI_nat.
  - replace k with (- Z.of_nat (Z.to_nat (- k)))%Z by lia.
    rewrite opp_IZR, <- INR_IZR_INZ.
    replace (2 * PI * - INR (Z.to_nat (- k)))
      with (- (2 * PI * INR (Z.to_nat (- k)))) by ring.
    rewrite cis_neg, cis_2PI_nat. unfold conj, one, re, im. simpl.
    f_equal. ring.
Qed.

(** [exp(i t)] is 1 only at the multiples of [2 pi]. *)
Lemma cis_neq_1 (t : R) : 0 < t < 2 * PI -> cis t <> one.
Proof.
  intros [H0 H2] [= Hc Hs].
  destruct (sin_eq_O_2PI_0 t) as [E|[E|E]]; try lra.
  rewrite E, cos_PI in Hc. lra.
Qed.

End CplxFacts.

(** ** Sums of complex numbers and roots of unity *)

Module Fourier.

Import Cplx CplxFacts Scipy Sums.

Add Ring C_ring : ring_C.


Lemma Csum_map_seq (f : nat -> C) (n : nat) :
  Cplx.sum (map f (seq 0 n)) = Cbig f n.
Proof. reflexivity. Qed.

Lemma Cbig_ext (f g : nat -> C) (n : nat) :
  (forall i, (i < n)%nat -> f i = g i) -> Cbig f n = Cbig g n.
Proof. apply big_ext. Qed.

Lemma Cbig_S (f : nat -> C) (n : nat) : Cbig f (S n) = add (Cbig f n) (f n).
Proof. apply big_S; [apply add_comm | apply add_assoc | apply add_0_l]. Qed.

Lemma Cbig_shift (f : nat -> C) (n : nat) :
  Cbig f (S n) = add (f 0%nat) (Cbig (fun i => f (S i)) n).
Proof. apply big_shift. Qed.

Lemma Cbig_zero (n : nat) : Cbig (fun _ => zero) n = zero.
Proof. apply big_zero; [apply add_comm | apply add_assoc | apply add_0_l]. Qed.

Lemma Cbig_swap (f : nat -> nat -> C) (n m : nat) :
  Cbig (fun i => Cbig (fun j => f i j) m) n
  = Cbig (fun j => Cbig (fun i => f i j) n) m.
Proof. apply big_swap; [apply add_comm | apply add_assoc | apply add_0_l]. Qed.

Lemma Cbig_single (f : nat -> C) (n k : nat) :
  (k < n)%nat -> (forall i, (i < n)%nat -> i <> k -> f i = zero) ->
  Cbig f n = f k.
Proof. apply big_single; [apply add_comm | apply add_assoc | apply add_0_l]. Qed.

Lemma Cbig_app (f : nat -> C) (n m : nat) :
  Cbig f (n + m) = add (Cbig f n) (Cbig (fun i => f (n + i)%nat) m).
Proof. apply big_app; [apply add_comm | apply add_assoc | apply add_0_l]. Qed.

Lemma Cbig_mul_l (c : C) (f : nat -> C) (n : nat) :
  mul c (Cbig f n) = Cbig (fun i => mul c (f i)) n.
Proof.
  induction n as [|n IH]; [apply mul_0_r|].
  rewrite !Cbig_S, <- IH. ring.
Qed.

Lemma Cbig_mul_r (c : C) (f : nat -> C) (n : nat) :
  mul (Cbig f n) c = Cbig (fun i => mul (f i) c) n.
Proof.
  induction n as [|n IH]; [apply mul_0_l|].
  rewrite !Cbig_S, <- IH. ring.
Qed.

Lemma re_Cbig (f : nat -> C) (n : nat) :
  re (Cbig f n) = Rbig (fun i => re (f i)) n.
Proof.
  induction n as [|n IH]; [reflexivity|].
  rewrite Cbig_S, Rbig_S, <- IH. reflexivity.
Qed.

Lemma conj_Cbig (f : nat -> C) (n : nat) :
  conj (Cbig f n) = Cbig (fun i => conj (f i)) n.
Proof.
  induction n as [|n IH].
  - unfold Cbig, big, conj, zero, re, im. simpl. f_equal. ring.
  - rewrite !Cbig_S, conj_add, IH. reflexivity.
Qed.

(** *** The roots of unity *)

Lemma twiddle_add (n : nat) (e1 e2 : Z) :
  twiddle n (e1 + e2) = mul (twiddle n e1) (twiddle n e2).
Proof.
  unfold twiddle. rewrite <- cis_add. f_equal. rewrite plus_IZR.
  unfold Rdiv. ring.
Qed.

Lemma twiddle_0 (n : nat) : twiddle n 0 = one.
Proof.
  unfold twiddle. replace (2 * PI * 0 / INR n) with 0; [apply cis_0|].
  unfold Rdiv. ring.
Qed.

Lemma twiddle_opp (n : nat) (e : Z) : twiddle n (- e) = conj (twiddle n e).
Proof.
  unfold twiddle. rewrite <- cis_neg. f_equal. rewrite opp_IZR.
  unfold Rdiv. ring.
Qed.

Lemma twiddle_period (n : nat) (d : Z) :
  (0 < n)%nat -> twiddle n (Z.of_nat n * d) = one.
Proof.
  intros Hn. unfold twiddle. rewrite <- (cis_2PI_Z d). f_equal.
  rewrite mult_IZR, <- INR_IZR_INZ.
  assert (INR n <> 0) by (apply not_0_INR; lia).
  field. assumption.
Qed.

Lemma twiddle_neq_1 (n : nat) (d : Z) :
  (d <> 0)%Z -> (Z.abs d < Z.of_nat n)%Z -> twiddle n d <> one.
Proof.
  intros Hd Hlt.
  assert (Hn : 0 < INR n) by (apply lt_0_INR; lia).
  assert (Hpos : forall e, (0 < e < Z.of_nat n)%Z -> twiddle n e <> one).
  { intros e [He1 He2]. apply cis_neq_1.
    apply IZR_lt in He1, He2. rewrite <- INR_IZR_INZ in He2.
    pose proof PI_RGT_0 as Hpi. split.
    - apply Rdiv_lt_0_compat; [|assumption]. nra.
    - apply Rmult_lt_reg_r with (INR n); [assumption|].
      unfold Rdiv. rewrite Rmult_assoc, Rinv_l by lra. nra. }
  destruct (Z.lt_ge_cases 0 d) as [Hp|Hp].
  - apply Hpos. lia.
  - intros H. apply (Hpos (- d)%Z); [lia|].
    rewrite twiddle_opp, H. unfold conj, one, re, im. simpl. f_equal. ring.
Qed.

(** The sum of the [n] powers of an [n]-th root of unity other than 1
    vanishes; the powers of 1 add up to [n]. *)
Lemma twiddle_sum_0 (n : nat) (d : Z) :
  (d <> 0)%Z -> (Z.abs d < Z.of_nat n)%Z ->
  Cbig (fun k => twiddle n (Z.of_nat k * d)) n = zero.
Proof.
  intros Hd Hlt.
  assert (Hn : (0 < n)%nat) by lia.
  set (f := fun k => twiddle n (Z.of_nat k * d)).
  assert (Hshift : Cbig (fun k => f (S k)) n = Cbig f n).
  { assert (E : add (f 0%nat) (Cbig (fun k => f (S k)) n)
                = add (Cbig f n) (f n)).
    { now rewrite <- Cbig_shift, <- Cbig_S. }
    assert (E0 : f 0%nat = one) by (unfold f; simpl; apply twiddle_0).
    assert (En : f n = one) by (unfold f; now apply twiddle_period).
    rewrite E0, En in E.
    transitivity (add (add one (Cbig (fun k => f (S k)) n)) (opp one));
      [ring|]. rewrite E. ring. }
  assert (Hmul : mul (twiddle n d) (Cbig f n) = Cbig f n).
  { rewrite Cbig_mul_l, <- Hshift. apply Cbig_ext. intros k _. unfold f.
    rewrite <- twiddle_add. f_equal. lia. }
  apply (mul_eq_0 (sub (twiddle n d) one)).
  - transitivity (sub (mul (twiddle n d) (Cbig f n)) (Cbig f n)); [ring|].
    rewrite Hmul. ring.
  - intros H. apply (twiddle_neq_1 n d Hd Hlt).
    transitivity (add (sub (twiddle n d) one) one); [ring|].
    rewrite H. ring.
Qed.

Lemma twiddle_sum_n (n : nat) :
  Cbig (fun k => twiddle n (Z.of_nat k * 0)) n = of_R (INR n).
Proof.
  rewrite (Cbig_ext _ (fun _ => one)).
  - induction n as [|n IH]; [reflexivity|].
    rewrite Cbig_S, IH, S_INR. unfold add, of_R, one, re, im. simpl.
    f_equal. ring.
  - intros k _. rewrite Z.mul_0_r. apply twiddle_0.
Qed.

(** *** The inverse transform of a half spectrum *)

Lemma Rbig_app (f : nat -> R) (n m : nat) :
  Rbig f (n + m) = Rbig f n + Rbig (fun i => f (n + i)%nat) m.
Proof. apply big_app; [apply Rplus_comm | apply Rplus_assoc' | apply Rplus_0_l]. Qed.

Lemma sum_map_seq_1 (f : nat -> R) (h : nat) :
  Py.sum (map f (seq 1 h)) = Rbig (fun i => f (S i)) h.
Proof. unfold Rbig, big. now rewrite <- seq_shift, map_map. Qed.

(** A sum whose terms mirror around the middle is the first term, twice
    the lower half, and the middle term when there is one. *)
Lemma mirrored_sum (T : nat -> R) (n : nat) :
  (0 < n)%nat ->
  (forall k, (0 < k < n)%nat -> T (n - k)%nat = T k) ->
  Rbig T n
  = T 0%nat + 2 * Py.sum (map T (seq 1 ((n - 1) / 2)))
    + (if Nat.even n then T (n / 2)%nat else 0).
Proof.
  intros Hn Hsym. rewrite sum_map_seq_1.
  set (h := ((n - 1) / 2)%nat).
  destruct (Nat.even n) eqn:E.
  - apply Nat.even_spec in E. destruct E as [q Hq].
    assert (Hh : n = S (h + S h)) by (unfold h; lia).
    assert (Hhalf : (n / 2 = S h)%nat) by (unfold h; lia).
    rewrite Hhalf. rewrite Hh at 1.
    rewrite Rbig_shift, Rbig_app, Rbig_shift.
    rewrite (Rbig_rev (fun i => T (S (h + S i)))).
    rewrite (Rbig_ext (fun i => T (S (h + S (h - 1 - i))))
               (fun i => T (S i))).
    + rewrite Nat.add_0_r. ring.
    + intros i Hi. rewrite <- (Hsym (S i)) by lia. f_equal. lia.
  - assert (Ho : Nat.odd n = true).
    { unfold Nat.odd. now rewrite E. }
    apply Nat.odd_spec in Ho. destruct Ho as [q Hq].
    assert (Hh : n = S (h + h)) by (unfold h; lia).
    rewrite Hh at 1.
    rewrite Rbig_shift, Rbig_app.
    rewrite (Rbig_rev (fun i => T (S (h + i)))).
    rewrite (Rbig_ext (fun i => T (S (h + (h - 1 - i))))
               (fun i => T (S i))).
    + ring.
    + intros i Hi. rewrite <- (Hsym (S i)) by lia. f_equal. lia.
Qed.

Lemma nth_map_seq {A : Type} (f : nat -> A) (d : A) (n k : nat) :
  (k < n)%nat -> nth k (map f (seq 0 n)) d = f k.
Proof.
  intros Hk. rewrite (nth_indep _ d (f 0%nat)) by now rewrite length_map, length_seq.
  rewrite map_nth, seq_nth by assumption. reflexivity.
Qed.

Lemma mul_spectra_map (f g : nat -> C) (l : list nat) :
  mul_spectra (map f l) (map g l) = map (fun k => mul (f k) (g k)) l.
Proof. induction l as [|k l IH]; simpl; [reflexivity|now rewrite IH]. Qed.

Lemma nth_resize (n : nat) (a : list R) (i : nat) :
  (i < n)%nat -> nth i (resize n a) 0 = nth i a 0.
Proof.
  intros Hi. unfold resize. rewrite nth_firstn.
  destruct (Nat.ltb_spec i n); [|lia].
  destruct (Nat.lt_ge_cases i (length a)).
  - now rewrite app_nth1.
  - rewrite app_nth2, nth_repeat by assumption.
    now rewrite nth_overflow.
Qed.


Lemma dft_coeff_resize (n : nat) (a : list R) (k : nat) :
  dft_coeff n (resize n a) k = dft n a k.
Proof.
  unfold dft_coeff, dft. rewrite Csum_map_seq. apply Cbig_ext.
  intros m Hm. now rewrite nth_resize.
Qed.

(** The transform of a real sequence is Hermitian. *)
Lemma dft_mirror (n : nat) (a : list R) (k : nat) :
  (0 < k < n)%nat -> dft n a (n - k) = conj (dft n a k).
Proof.
  intros Hk. unfold dft. rewrite conj_Cbig. apply Cbig_ext. intros m _.
  rewrite conj_mul, conj_of_R, <- twiddle_opp. f_equal.
  replace (- (Z.of_nat (n - k) * Z.of_nat m))%Z
    with (- - (Z.of_nat k * Z.of_nat m) + Z.of_nat n * (- Z.of_nat m))%Z
    by lia.
  rewrite twiddle_add, twiddle_period by lia. ring.
Qed.

Lemma cis_PI_nat (m : nat) : cis (PI * INR m) = of_R ((-1) ^ m).
Proof.
  induction m as [|m IH].
  - simpl. rewrite Rmult_0_r. apply cis_0.
  - rewrite S_INR, Rmult_plus_distr_l, cis_add, IH, Rmult_1_r.
    unfold cis, mul, of_R, re, im. rewrite cos_PI, sin_PI. simpl.
    f_equal; ring.
Qed.

Lemma twiddle_half (n m : nat) :
  Nat.even n = true -> (0 < n)%nat ->
  twiddle n (Z.of_nat (n / 2) * Z.of_nat m) = of_R ((-1) ^ m).
Proof.
  intros E Hn. rewrite <- cis_PI_nat. unfold twiddle. f_equal.
  apply Nat.even_spec in E. destruct E as [q Hq].
  assert (Hh : (n / 2 = q)%nat) by lia.
  rewrite Hh, Hq, mult_IZR, <- !INR_IZR_INZ, mult_INR.
  assert (INR q <> 0) by (apply not_0_INR; lia).
  simpl INR. field. assumption.
Qed.


Lemma product_spectrum (n : nat) (a b : list R) :
  mul_spectra (rfft a n) (rfft b n)
  = map (fun k => mul (dft n a k) (dft n b k)) (seq 0 (n / 2 + 1)).
Proof.
  unfold rfft. rewrite mul_spectra_map. apply map_ext.
  intros k. now rewrite !dft_coeff_resize.
Qed.

Lemma product_term_mirror (n : nat) (a b : list R) (m k : nat) :
  (0 < k < n)%nat ->
  re (product_term n a b m (n - k)) = re (product_term n a b m k).
Proof.
  intros Hk. unfold product_term.
  rewrite !dft_mirror by assumption.
  replace (Z.of_nat (n - k) * Z.of_nat m)%Z
    with (- (Z.of_nat k * Z.of_nat m) + Z.of_nat n * Z.of_nat m)%Z by lia.
  rewrite twiddle_add, twiddle_period, twiddle_opp by lia.
  rewrite <- (re_conj (mul (mul (dft n a k) (dft n b k)) _)).
  rewrite !conj_mul. f_equal. ring.
Qed.

(** [irfft] of the product of the two half spectra is the real part of
    the full inverse transform of the product. *)
Lemma irfft_product (n : nat) (a b : list R) (m : nat) :
  (m < n)%nat ->
  nth m (irfft (mul_spectra (rfft a n) (rfft b n)) n) 0
  = / INR n * re (Cbig (product_term n a b m) n).
Proof.
  intros Hm. assert (Hn : (0 < n)%nat) by lia.
  unfold irfft. rewrite nth_map_seq by assumption. f_equal.
  rewrite re_Cbig.
  rewrite (mirrored_sum (fun k => re (product_term n a b m k)) n Hn)
    by (intros k Hk; now apply product_term_mirror).
  rewrite product_spectrum.
  f_equal; [f_equal|].
  - rewrite nth_map_seq by lia. unfold product_term.
    rewrite Z.mul_0_l, twiddle_0. f_equal. ring.
  - f_equal. f_equal. apply map_ext_in. intros k Hk. apply in_seq in Hk.
    unfold irfft_term. rewrite nth_map_seq by lia. reflexivity.
  - destruct (Nat.even n) eqn:E; [|reflexivity].
    rewrite nth_map_seq by lia. unfold product_term.
    rewrite twiddle_half by assumption.
    unfold mul, of_R, re, im. simpl. ring.
Qed.

(** *** The convolution theorem *)

Lemma of_R_Rbig (f : nat -> R) (n : nat) :
  Cbig (fun j => of_R (f j)) n = of_R (Rbig f n).
Proof.
  induction n as [|n IH]; [reflexivity|].
  rewrite Cbig_S, Rbig_S, IH. unfold add, of_R, re, im. simpl.
  f_equal. ring.
Qed.

Lemma nth_nonzero (a : list R) (i : nat) :
  nth i a 0 <> 0 -> (i < length a)%nat.
Proof.
  intros H. destruct (Nat.lt_ge_cases i (length a)); [assumption|].
  now rewrite nth_overflow in H.
Qed.

(** One term of the product, as a double sum over the two inputs. *)
Lemma product_term_expand (n : nat) (a b : list R) (m k : nat) :
  product_term n a b m k
  = Cbig (fun i => Cbig (fun j =>
      mul (of_R (nth i a 0 * nth j b 0))
          (twiddle n (Z.of_nat k
                      * (Z.of_nat m - Z.of_nat i - Z.of_nat j)))) n) n.
Proof.
  unfold product_term, dft.
  rewrite Cbig_mul_r, Cbig_mul_r. apply Cbig_ext. intros i _. cbv beta.
  rewrite Cbig_mul_l, Cbig_mul_r. apply Cbig_ext. intros j _. cbv beta.
  replace (Z.of_nat k * (Z.of_nat m - Z.of_nat i - Z.of_nat j))%Z
    with (- (Z.of_nat k * Z.of_nat i)
          + (- (Z.of_nat k * Z.of_nat j) + Z.of_nat k * Z.of_nat m))%Z
    by lia.
  rewrite !twiddle_add, of_R_mul. ring.
Qed.

(** Summed over the frequencies, a pair of input points contributes only
    when their indices add up to the output index. *)
Lemma frequency_sum (n : nat) (a b : list R) (m i j : nat) :
  (length a + length b <= n + 1)%nat -> (m < n)%nat ->
  Cbig (fun k =>
          mul (of_R (nth i a 0 * nth j b 0))
              (twiddle n (Z.of_nat k
                          * (Z.of_nat m - Z.of_nat i - Z.of_nat j)))) n
  = if (i + j =? m)%nat then of_R (INR n * (nth i a 0 * nth j b 0))
    else zero.
Proof.
  intros Hlen Hm. rewrite <- Cbig_mul_l.
  destruct (Req_dec (nth i a 0 * nth j b 0) 0) as [E0|Hne].
  - rewrite E0, Rmult_0_r, of_R_0, mul_0_l.
    now destruct (i + j =? m)%nat.
  - assert (Hi : (i < length a)%nat).
    { apply nth_nonzero. intros E. apply Hne. rewrite E. ring. }
    assert (Hj : (j < length b)%nat).
    { apply nth_nonzero. intros E. apply Hne. rewrite E. ring. }
    destruct (Nat.eqb_spec (i + j) m) as [E|E].
    + replace (Z.of_nat m - Z.of_nat i - Z.of_nat j)%Z with 0%Z by lia.
      rewrite twiddle_sum_n, <- of_R_mul. f_equal. ring.
    + rewrite twiddle_sum_0 by lia. apply mul_0_r.
Qed.

Lemma dft_product (n : nat) (a b : list R) (m : nat) :
  (length a + length b <= n + 1)%nat ->
  (length b - 1 <= m < n)%nat ->
  Cbig (product_term n a b m) n
  = of_R (INR n * Rbig (fun j => nth (m - j) a 0 * nth j b 0) (length b)).
Proof.
  intros Hlen [Hm1 Hm2].
  rewrite (Cbig_ext _ _ n (fun k _ => product_term_expand n a b m k)).
  rewrite Cbig_swap.
  rewrite (Cbig_ext _
             (fun i => Cbig (fun j =>
                if (i + j =? m)%nat
                then of_R (INR n * (nth i a 0 * nth j b 0)) else zero) n)).
  2:{ intros i _. rewrite Cbig_swap. apply Cbig_ext. intros j _.
      now apply frequency_sum. }
  rewrite Cbig_swap.
  rewrite (Cbig_ext _
             (fun j => of_R (INR n * (nth (m - j) a 0 * nth j b 0)))).
  2:{ intros j Hj. destruct (Nat.le_gt_cases j m) as [Hle|Hgt].
      - rewrite (Cbig_single _ n (m - j)) by
          (first [lia | intros i _ Hi;
                        destruct (Nat.eqb_spec (i + j) m); [lia|reflexivity]]).
        destruct (Nat.eqb_spec (m - j + j) m); [reflexivity|lia].
      - rewrite (Cbig_ext _ (fun _ => zero))
          by (intros i _; destruct (Nat.eqb_spec (i + j) m);
              [lia|reflexivity]).
        rewrite Cbig_zero, (nth_overflow b) by lia.
        rewrite !Rmult_0_r. reflexivity. }
  rewrite of_R_Rbig. f_equal.
  set (F := fun j => INR n * (nth (m - j) a 0 * nth j b 0)).
  assert (Hsplit : Rbig F n
                   = Rbig F (length b)
                     + Rbig (fun i => F (length b + i)%nat) (n - length b)).
  { rewrite <- Rbig_app. f_equal. lia. }
  rewrite Hsplit.
  rewrite (Rbig_ext (fun i => F (length b + i)%nat) (fun _ => 0)).
  2:{ intros i _. unfold F. rewrite (nth_overflow b) by lia. ring. }
  assert (Hz : forall k, Rbig (fun _ => 0) k = 0).
  { intros k. apply (big_zero R 0 Rplus);
      [apply Rplus_comm | apply Rplus_assoc' | apply Rplus_0_l]. }
  rewrite Hz. unfold F. rewrite Rbig_scal. ring.
Qed.

(** The point [m] of [irfft(rfft(a) * rfft(b))] is the point [m] of the
    linear convolution of [a] and [b], when the transform is long
    enough. *)
Lemma irfft_convolution (n : nat) (a b : list R) (m : nat) :
  (length a + length b <= n + 1)%nat ->
  (length b - 1 <= m < n)%nat ->
  nth m (irfft (mul_spectra (rfft a n) (rfft b n)) n) 0
  = Rbig (fun j => nth (m - j) a 0 * nth j b 0) (length b).
Proof.
  intros Hlen Hm. rewrite irfft_product by lia.
  rewrite dft_product by assumption.
  unfold of_R, re. simpl.
  assert (INR n <> 0) by (apply not_0_INR; lia).
  field. assumption.
Qed.

End Fourier.

(** ** The two engines agree *)

Lemma length_valid_convolution (p v : list R) :
  length (Spec.valid_convolution p v) = (length p + 1 - length v)%nat.
Proof. unfold Spec.valid_convolution. now rewrite length_map, length_seq. Qed.

Lemma nth_valid_convolution (p v : list R) (k : nat) :
  (k < length p + 1 - length v)%nat ->
  nth k (Spec.valid_convolution p v) 0
  = Rbig (fun j => nth (k + length v - 1 - j) p 0 * nth j v 0) (length v).
Proof.
  intros Hk. unfold Spec.valid_convolution.
  now rewrite Fourier.nth_map_seq.
Qed.

(** scipy's FFT convolution of a longer with a shorter array is their
    valid convolution. *)
Lemma fftconvolve_valid_spec (p v : list R) :
  p <> [] -> v <> [] -> (length v <= length p)%nat ->
  Scipy.fftconvolve_valid p v = Spec.valid_convolution p v.
Proof.
  intros Hp Hv Hle.
  pose proof (nonempty_length _ Hv) as HM.
  apply (nth_ext _ _ 0 0).
  - rewrite length_fftconvolve_valid, length_valid_convolution by assumption.
    lia.
  - intros k Hk. rewrite length_fftconvolve_valid in Hk by assumption.
    rewrite nth_valid_convolution by lia.
    unfold Scipy.fftconvolve_valid.
    destruct p as [|p0 p']; [contradiction|].
    destruct v as [|v0 v']; [contradiction|].
    set (p := p0 :: p') in *. set (v := v0 :: v') in *.
    cbv zeta. unfold Scipy.centered. rewrite length_freq_domain_conv.
    assert (Hstart : ((length p + length v - 1 - (length p - length v + 1)) / 2
                      = length v - 1)%nat) by lia.
    rewrite Hstart.
    rewrite nth_firstn.
    destruct (Nat.ltb_spec k (length p - length v + 1)); [|lia].
    rewrite nth_skipn. unfold Scipy.freq_domain_conv. rewrite nth_firstn.
    destruct (Nat.ltb_spec (length v - 1 + k) (length p + length v - 1));
      [|lia].
    pose proof (next_fast_len_ge (length p + length v - 1)) as Hfast.
    rewrite Fourier.irfft_convolution by lia.
    apply Rbig_ext. intros j Hj. f_equal. f_equal. lia.
Qed.

Lemma fftconvolve_valid_nil (p : list R) :
  Scipy.fftconvolve_valid p [] = [] /\ Scipy.fftconvolve_valid [] p = [].
Proof. split; [now destruct p | reflexivity]. Qed.

(** numpy's and scipy's valid convolutions return the same, and both
    raise on an empty array. *)
Lemma convolve_valid_fft_spec (a v : list R) :
  Numpy.convolve_valid a v = Scipy.convolve_valid_fft a v.
Proof.
  destruct a as [|a0 a'].
  { unfold Numpy.convolve_valid, Scipy.convolve_valid_fft.
    destruct v as [|v0 v']; reflexivity. }
  destruct v as [|v0 v'].
  { unfold Numpy.convolve_valid, Scipy.convolve_valid_fft. simpl.
    reflexivity. }
  set (a := a0 :: a'). set (v := v0 :: v').
  assert (Ha : a <> []) by discriminate.
  assert (Hv : v <> []) by discriminate.
  destruct (length_convolve_valid_fft a v Ha Hv) as [out [Ho _]].
  rewrite Ho. revert Ho.
  unfold Numpy.convolve_valid, Scipy.convolve_valid_fft.
  destruct (Nat.ltb_spec (length a) (length v)) as [Hlt|Hge].
  - rewrite fftconvolve_valid_spec by (assumption || lia).
    rewrite correlate_valid_spec by lia.
    destruct (Spec.valid_convolution v a); [discriminate|].
    now intros [= <-].
  - rewrite fftconvolve_valid_spec by (assumption || lia).
    rewrite correlate_valid_spec by lia.
    destruct (Spec.valid_convolution a v); [discriminate|].
    now intros [= <-].
Qed.

(** [fft_convolve] computes what [convolve] computes, failure
    included. *)
Lemma fft_convolve_convolve (data kernel : list R) :
  fft_convolve data kernel = convolve data kernel.
Proof.
  unfold fft_convolve, convolve, fft_out, conv_out.
  destruct (padded_data data kernel) as [p|] eqn:Hp; [|reflexivity].
  now rewrite convolve_valid_fft_spec.
Qed.

(** C2: on non-empty [data] and [kernel] of one length, [convolve] and
    [fft_convolve] both return a sequence, and the same one, in exact
    arithmetic. *)
Theorem engines_agree (data kernel : list R) :
  data <> [] -> kernel <> [] -> length data = length kernel ->
  exists r, convolve data kernel = Some r /\
            fft_convolve data kernel = Some r.
Proof.
  intros Hd Hk _.
  destruct (conv_out_length data kernel Hd Hk) as [out [Ho _]].
  exists (crop out (min_num_pts data kernel)).
  assert (Hc : convolve data kernel
               = Some (crop out (min_num_pts data kernel))).
  { unfold convolve. now rewrite Ho. }
  split; [exact Hc|]. now rewrite fft_convolve_convolve.
Qed.

Lemma engines_agree_witness :
  [1; 2] <> ([] : list R) /\ [3; 4] <> ([] : list R) /\
  length [1; 2] = length [3; 4] /\
  exists r, convolve [1; 2] [3; 4] = Some r /\
            fft_convolve [1; 2] [3; 4] = Some r.
Proof.
  repeat (split; [first [discriminate | reflexivity]|]).
  apply (engines_agree [1; 2] [3; 4]); first [discriminate | reflexivity].
Defined.

(** ** Scaling the kernel *)

Lemma dot_scale_l (s : R) (u w : list R) :
  Numpy.dot (Py.scale s u) w = s * Numpy.dot u w.
Proof.
  revert w. induction u as [|a u IH]; intros [|b w]; simpl; try ring.
  rewrite IH. ring.
Qed.

Lemma dot_scale_r (s : R) (u w : list R) :
  Numpy.dot u (Py.scale s w) = s * Numpy.dot u w.
Proof.
  revert w. induction u as [|a u IH]; intros [|b w]; simpl; try ring.
  rewrite IH. ring.
Qed.

Lemma correlate_valid_scale_r (s : R) (a w : list R) :
  Numpy.correlate_valid a (Py.scale s w)
  = Py.scale s (Numpy.correlate_valid a w).
Proof.
  unfold Numpy.correlate_valid. rewrite length_scale.
  unfold Py.scale at 2. rewrite map_map. apply map_ext.
  intros k. apply dot_scale_r.
Qed.

Lemma correlate_valid_scale_l (s : R) (a w : list R) :
  Numpy.correlate_valid (Py.scale s a) w
  = Py.scale s (Numpy.correlate_valid a w).
Proof.
  unfold Numpy.correlate_valid. rewrite length_scale.
  unfold Py.scale at 2. rewrite map_map. apply map_ext.
  intros k. unfold Py.scale. rewrite skipn_map, firstn_map.
  apply dot_scale_l.
Qed.

Lemma rev_scale (s : R) (l : list R) : rev (Py.scale s l) = Py.scale s (rev l).
Proof. unfold Py.scale. now rewrite map_rev. Qed.

Lemma convolve_valid_scale (s : R) (p k : list R) :
  Numpy.convolve_valid p (Py.scale s k)
  = option_map (Py.scale s) (Numpy.convolve_valid p k).
Proof.
  unfold Numpy.convolve_valid. rewrite length_scale.
  destruct (length p <? length k)%nat.
  - destruct k as [|k0 k]; [reflexivity|].
    destruct p as [|p0 p]; [reflexivity|].
    change (Py.scale s (k0 :: k)) with (s * k0 :: Py.scale s k).
    cbv iota. change (s * k0 :: Py.scale s k) with (Py.scale s (k0 :: k)).
    now rewrite correlate_valid_scale_l.
  - destruct p as [|p0 p]; [reflexivity|].
    destruct k as [|k0 k]; [reflexivity|].
    change (Py.scale s (k0 :: k)) with (s * k0 :: Py.scale s k).
    cbv iota. change (s * k0 :: Py.scale s k) with (Py.scale s (k0 :: k)).
    now rewrite rev_scale, correlate_valid_scale_r.
Qed.

Lemma crop_map (f : R -> R) (out : list R) (npts : nat) :
  crop (map f out) npts = map f (crop out npts).
Proof.
  unfold crop, n_start_data, Py.slice_from. rewrite length_map.
  destruct (_ <? 0)%Z; now rewrite skipn_map, firstn_map.
Qed.

Lemma convolve_scale_kernel (s : R) (data kernel : list R) :
  convolve data (Py.scale s kernel)
  = option_map (Py.scale s) (convolve data kernel).
Proof.
  unfold convolve, conv_out.
  assert (Hp : padded_data data (Py.scale s kernel) = padded_data data kernel).
  { unfold padded_data, padding, min_num_pts. now rewrite length_scale. }
  rewrite Hp. destruct (padded_data data kernel) as [p|]; [|reflexivity].
  rewrite convolve_valid_scale.
  destruct (Numpy.convolve_valid p kernel) as [out|]; [|reflexivity].
  simpl. unfold min_num_pts. rewrite length_scale.
  unfold Py.scale. now rewrite crop_map.
Qed.

Lemma scale_nonempty (s : R) (l : list R) : l <> [] -> Py.scale s l <> [].
Proof. destruct l; [contradiction|discriminate]. Qed.

Lemma fft_convolve_scale_kernel (s : R) (data kernel : list R) :
  kernel <> [] ->
  fft_convolve data (Py.scale s kernel)
  = option_map (Py.scale s) (fft_convolve data kernel).
Proof.
  intros Hk.
  rewrite !fft_convolve_convolve by (try apply scale_nonempty; assumption).
  apply convolve_scale_kernel.
Qed.

(** ** Normalising to the amplitude *)

Lemma max_unique (l : list R) (m : R) :
  In m l -> (forall b, In b l -> b <= m) -> Py.max l = Some m.
Proof.
  intros Hin Hle.
  destruct (max_some l) as [m' Hm']; [intros ->; contradiction|].
  destruct (max_spec _ _ Hm') as [Hin' Hle'].
  rewrite Hm'. f_equal. apply Rle_antisym; auto.
Qed.

Lemma max_scale (s : R) (l : list R) :
  0 < s -> Py.max (Py.scale s l) = option_map (Rmult s) (Py.max l).
Proof.
  intros Hs. destruct (Py.max l) as [m|] eqn:Hm.
  - destruct (max_spec _ _ Hm) as [Hin Hle]. simpl.
    apply max_unique.
    + unfold Py.scale. now apply in_map.
    + intros b Hb. unfold Py.scale in Hb. apply in_map_iff in Hb.
      destruct Hb as [c [<- Hc]]. apply Rmult_le_compat_l; [lra|auto].
  - destruct l; [reflexivity|discriminate].
Qed.

Lemma scale_to_amplitude_scale (s amplitude : R) (conv_temp : list R) :
  0 < s ->
  scale_to_amplitude amplitude (Py.scale s conv_temp)
  = scale_to_amplitude amplitude conv_temp.
Proof.
  intros Hs. unfold scale_to_amplitude. rewrite max_scale by assumption.
  destruct (Py.max conv_temp) as [m|]; [|reflexivity]. simpl.
  destruct (Req_dec_T m 0) as [->|Hm].
  - destruct (Req_dec_T (s * 0) 0) as [_|H]; [reflexivity|].
    elim H. ring.
  - destruct (Req_dec_T (s * m) 0) as [H|_].
    + apply Rmult_integral in H. lra.
    + f_equal. unfold Py.scale. rewrite map_map. apply map_ext.
      intros c. field. lra.
Qed.

Lemma scale_to_amplitude_homogeneous (c amplitude : R) (conv_temp : list R) :
  scale_to_amplitude (c * amplitude) conv_temp
  = option_map (Py.scale c) (scale_to_amplitude amplitude conv_temp).
Proof.
  unfold scale_to_amplitude.
  destruct (Py.max conv_temp) as [m|]; [|reflexivity]. simpl.
  destruct (Req_dec_T m 0) as [_|Hm]; [reflexivity|]. simpl. f_equal.
  unfold Py.scale. rewrite map_map. apply map_ext.
  intros a. unfold Rdiv. ring.
Qed.

Lemma scale_to_amplitude_max (amplitude m : R) (conv_temp : list R) :
  Py.max conv_temp = Some m -> 0 < m -> 0 <= amplitude ->
  exists r, scale_to_amplitude amplitude conv_temp = Some r /\
            length r = length conv_temp /\
            Py.max r = Some amplitude.
Proof.
  intros Hm Hpos Ha. unfold scale_to_amplitude. rewrite Hm. simpl.
  destruct (Req_dec_T m 0) as [E|_]; [lra|].
  eexists. split; [reflexivity|]. split; [apply length_map|].
  destruct (max_spec _ _ Hm) as [Hin Hle].
  apply max_unique.
  - apply in_map_iff. exists m. split; [field; lra|assumption].
  - intros b Hb. apply in_map_iff in Hb. destruct Hb as [c [<- Hc]].
    specialize (Hle c Hc).
    apply Rmult_le_reg_r with m; [assumption|].
    unfold Rdiv. rewrite Rmult_assoc, Rinv_l by lra.
    rewrite Rmult_1_r. apply Rmult_le_compat_l; assumption.
Qed.

(** ** The composite lineshapes *)

Lemma lineshape_conv_temp (s : shape) (x : list R) (amplitude : R) :
  lineshape s x amplitude
  = (conv_temp <- conv_temp_of s x ;; scale_to_amplitude amplitude conv_temp).
Proof. destruct s; reflexivity. Qed.

Lemma conv_temp_kernel (s : shape) (x : list R) :
  conv_temp_of s x
  = (data <- primitive s x ;;
     kernel <- gaussian_kernel x (kernel_width s) ;;
     fft_convolve data kernel).
Proof.
  destruct s; unfold conv_temp_of, primitive, singlett_conv_temp,
    dublett_conv_temp, fermi_edge_conv_temp, kernel_width;
    try reflexivity.
  destruct (Lineshapes.doniach x 1 center sigma gamma); [|reflexivity].
  cbn [bind].
  now destruct (Lineshapes.doniach x height_ratio (center - soc)
                  (fct_coster_kronig * sigma) gamma).
Qed.

Lemma lineshape_kernel (s : shape) (x : list R) (amplitude : R) :
  lineshape s x amplitude
  = (data <- primitive s x ;;
     kernel <- gaussian_kernel x (kernel_width s) ;;
     with_kernel data kernel amplitude).
Proof.
  rewrite lineshape_conv_temp, conv_temp_kernel. unfold with_kernel.
  destruct (primitive s x); [|reflexivity]. cbn [bind].
  now destruct (gaussian_kernel x (kernel_width s)).
Qed.

Lemma fft_convolve_nil (kernel : list R) : fft_convolve [] kernel = None.
Proof. reflexivity. Qed.

Lemma length_doniach (x d : list R) (a c s g : R) :
  Lineshapes.doniach x a c s g = Some d -> length d = length x.
Proof.
  unfold Lineshapes.doniach.
  destruct (Lineshapes.float_pow s (1 - g)); [|discriminate].
  intros [= <-]. apply length_map.
Qed.

Lemma primitive_nil (s : shape) (d : list R) :
  primitive s [] = Some d -> d = [].
Proof.
  destruct s; unfold primitive, Lineshapes.doniach; cbn [map].
  - destruct (Lineshapes.float_pow _ _); now intros [= <-].
  - destruct (Lineshapes.float_pow sigma _); [|discriminate]. cbn [bind].
    destruct (Lineshapes.float_pow (fct_coster_kronig * sigma) _);
      [|discriminate].
    now intros [= <-].
  - now intros [= <-].
Qed.

Lemma gaussian_kernel_length (x kernel : list R) (w : R) :
  gaussian_kernel x w = Some kernel -> length kernel = length x.
Proof.
  unfold gaussian_kernel. destruct (Req_dec_T _ 0); [discriminate|].
  intros [= <-]. unfold Lineshapes.gaussian.
  now rewrite length_scale, length_map.
Qed.

Lemma with_kernel_scale (k amplitude : R) (data kernel : list R) :
  0 < k -> length kernel = length data ->
  with_kernel data (Py.scale k kernel) amplitude
  = with_kernel data kernel amplitude.
Proof.
  intros Hk Hlen. unfold with_kernel.
  destruct data as [|d data]; [reflexivity|].
  assert (Hne : kernel <> []) by (destruct kernel; [discriminate|discriminate]).
  rewrite fft_convolve_scale_kernel by assumption.
  destruct (fft_convolve (d :: data) kernel) as [c|]; [|reflexivity].
  simpl. now apply scale_to_amplitude_scale.
Qed.

Lemma length_add (u w : list R) :
  length (Py.add u w) = Nat.min (length u) (length w).
Proof.
  revert w. induction u as [|a u IH]; intros [|b w]; simpl; try reflexivity.
  now rewrite IH.
Qed.

Lemma primitive_length (s : shape) (x d : list R) :
  primitive s x = Some d -> length d = length x.
Proof.
  destruct s; unfold primitive.
  - apply length_doniach.
  - destruct (Lineshapes.doniach x 1 center sigma gamma) as [d1|] eqn:E1;
      [|discriminate].
    cbn [bind].
    destruct (Lineshapes.doniach x height_ratio (center - soc)
                (fct_coster_kronig * sigma) gamma) as [d2|] eqn:E2;
      [|discriminate].
    intros [= <-]. rewrite length_add.
    apply length_doniach in E1, E2. lia.
  - intros [= <-]. unfold Lineshapes.thermal_distribution_fermi.
    apply length_map.
Qed.

(** C10: every composite lineshape is homogeneous in the amplitude, and
    multiplying the Gaussian kernel by a positive scalar does not change
    it; with a positive kernel width the prefactor
    [1 / (sqrt(2 pi) * sigma)] can be left out altogether. *)
Theorem amplitude_homogeneous (s : shape) (x : list R)
    (amplitude c k : R) :
  0 < c -> 0 < k -> 0 < kernel_width s ->
  lineshape s x (c * amplitude)
  = option_map (Py.scale c) (lineshape s x amplitude) /\
  (data <- primitive s x ;;
   kernel <- gaussian_kernel x (kernel_width s) ;;
   with_kernel data (Py.scale k kernel) amplitude)
  = lineshape s x amplitude /\
  (data <- primitive s x ;;
   with_kernel data
     (Lineshapes.gaussian x 1 (Py.mean x) (kernel_width s)) amplitude)
  = lineshape s x amplitude.
Proof.
  intros Hc Hk Hw. split; [|split].
  - rewrite !lineshape_conv_temp.
    destruct (conv_temp_of s x) as [conv|]; [|reflexivity]. simpl.
    apply scale_to_amplitude_homogeneous.
  - rewrite lineshape_kernel.
    destruct (primitive s x) as [data|] eqn:Ep; [|reflexivity]. cbn [bind].
    destruct (gaussian_kernel x (kernel_width s)) as [kernel|] eqn:E;
      [|reflexivity].
    simpl. apply with_kernel_scale; [assumption|].
    rewrite (primitive_length _ _ _ Ep).
    now apply gaussian_kernel_length with (w := kernel_width s).
  - rewrite lineshape_kernel.
    destruct (primitive s x) as [data|] eqn:Ep; [|reflexivity]. cbn [bind].
    unfold gaussian_kernel.
    assert (Hs : 0 < sqrt (2 * PI) * kernel_width s).
    { apply Rmult_lt_0_compat; [|assumption].
      apply sqrt_lt_R0. pose proof PI_RGT_0. lra. }
    destruct (Req_dec_T _ 0) as [E|_]; [lra|]. simpl. symmetry.
    apply with_kernel_scale.
    + unfold Rdiv. rewrite Rmult_1_l. now apply Rinv_0_lt_compat.
    + unfold Lineshapes.gaussian.
      now rewrite length_map, (primitive_length _ _ _ Ep).
Qed.

(** C3, as amended: for every grid and every parameter set with an
    amplitude that is not negative and a convolved curve whose maximum is
    positive, the maximum of each composite lineshape is the amplitude. *)
Theorem amplitude_normalisation (s : shape) (x conv_temp : list R)
    (amplitude m : R) :
  0 <= amplitude ->
  conv_temp_of s x = Some conv_temp -> Py.max conv_temp = Some m -> 0 < m ->
  exists r, lineshape s x amplitude = Some r /\ Py.max r = Some amplitude.
Proof.
  intros Ha Hc Hm Hpos. rewrite lineshape_conv_temp, Hc. simpl.
  destruct (scale_to_amplitude_max amplitude m conv_temp Hm Hpos Ha)
    as [r [Hr [_ Hmax]]].
  now exists r.
Qed.

(** ** Doublet and singlet *)

(** Whether [doniach] returns depends on the power [sigma ** (1 - gamma)]
    alone. *)
Lemma doniach_defined (x : list R) (a c s g : R) :
  Lineshapes.doniach x a c s g = None
  <-> Lineshapes.float_pow s (1 - g) = None.
Proof.
  unfold Lineshapes.doniach.
  destruct (Lineshapes.float_pow s (1 - g)); split; intros H;
    (discriminate || reflexivity).
Qed.

Lemma doniach_zero_amplitude (x d : list R) (center sigma gamma : R) :
  Lineshapes.doniach x 0 center sigma gamma = Some d ->
  d = map (fun _ => 0) x.
Proof.
  unfold Lineshapes.doniach.
  destruct (Lineshapes.float_pow sigma (1 - gamma)); [|discriminate].
  intros [= <-]. apply map_ext. intros xi. unfold Rdiv. ring.
Qed.

Lemma add_zeros {A : Type} (d : list R) (x : list A) :
  length d = length x -> Py.add d (map (fun _ => 0) x) = d.
Proof.
  revert x. induction d as [|a d IH]; intros [|b x] H; try discriminate;
    simpl; [reflexivity|].
  rewrite IH by (now injection H). f_equal. ring.
Qed.

(** The doublet with a vanishing second peak is the singlet with the
    same shared parameters, when the second Doniach curve can be
    computed. *)
Lemma dublett_at_zero (x : list R)
    (amplitude sigma gamma gaussian_sigma center soc fct_coster_kronig : R) :
  Lineshapes.float_pow (fct_coster_kronig * sigma) (1 - gamma) <> None ->
  dublett x amplitude sigma gamma gaussian_sigma center soc 0
    fct_coster_kronig
  = singlett x amplitude sigma gamma gaussian_sigma center.
Proof.
  intros Hp.
  unfold dublett, singlett, dublett_conv_temp, singlett_conv_temp.
  destruct (Lineshapes.doniach x 1 center sigma gamma) as [d1|] eqn:E1;
    [|reflexivity].
  cbn [bind].
  destruct (Lineshapes.doniach x 0 (center - soc)
              (fct_coster_kronig * sigma) gamma) as [d2|] eqn:E2.
  - cbn [bind]. rewrite (doniach_zero_amplitude _ _ _ _ _ E2).
    rewrite add_zeros by (now apply length_doniach in E1). reflexivity.
  - apply doniach_defined in E2. contradiction.
Qed.

(** ** Positive curves *)

Lemma in_firstn {A : Type} (n : nat) (l : list A) (a : A) :
  In a (firstn n l) -> In a l.
Proof.
  revert l. induction n as [|n IH]; intros [|b l]; simpl; try contradiction.
  intros [H|H]; [now left|right; now apply IH].
Qed.

Lemma in_skipn {A : Type} (n : nat) (l : list A) (a : A) :
  In a (skipn n l) -> In a l.
Proof.
  revert l. induction n as [|n IH]; intros [|b l]; simpl; try contradiction;
    try (intros H; exact H).
  intros H. right. now apply IH.
Qed.

Lemma in_crop (out : list R) (npts : nat) (a : R) :
  In a (crop out npts) -> In a out.
Proof.
  unfold crop, Py.slice_from. intros H. apply in_firstn in H.
  destruct (_ <? 0)%Z; now apply in_skipn in H.
Qed.

Lemma Rbig_pos (f : nat -> R) (n : nat) :
  (0 < n)%nat -> (forall i, (i < n)%nat -> 0 < f i) -> 0 < Rbig f n.
Proof.
  intros Hn Hf. destruct n as [|n]; [lia|]. clear Hn.
  induction n as [|n IH].
  - rewrite Rbig_S. unfold Rbig, big. simpl.
    assert (0 < f 0%nat) by (apply Hf; lia). lra.
  - rewrite Rbig_S. assert (0 < f (S n)) by (apply Hf; lia).
    assert (0 < Rbig f (S n)) by (apply IH; intros; apply Hf; lia). lra.
Qed.

Lemma valid_convolution_positive (p v : list R) :
  v <> [] -> (length v <= length p)%nat ->
  (forall a, In a p -> 0 < a) -> (forall b, In b v -> 0 < b) ->
  forall c, In c (Spec.valid_convolution p v) -> 0 < c.
Proof.
  intros Hv Hle Hp Hk c Hc.
  apply (In_nth _ _ 0) in Hc. destruct Hc as [k [Hlt <-]].
  rewrite length_valid_convolution in Hlt.
  rewrite nth_valid_convolution by assumption.
  apply Rbig_pos; [now apply nonempty_length|].
  intros j Hj. apply Rmult_lt_0_compat.
  - apply Hp. apply nth_In. lia.
  - apply Hk. now apply nth_In.
Qed.

Lemma in_hd (l : list R) : l <> [] -> In (hd 0 l) l.
Proof. destruct l; [contradiction|]. intros _. now left. Qed.

Lemma in_last (l : list R) : l <> [] -> In (last l 0) l.
Proof.
  intros H. destruct (exists_last H) as [l' [a ->]].
  rewrite last_last. apply in_or_app. right. now left.
Qed.

(** The convolution of a positive curve with a positive kernel of the
    same length has a positive maximum. *)
Lemma convolve_positive (data kernel : list R) :
  data <> [] -> length kernel = length data ->
  (forall a, In a data -> 0 < a) -> (forall b, In b kernel -> 0 < b) ->
  exists r m, convolve data kernel = Some r /\ Py.max r = Some m /\ 0 < m.
Proof.
  intros Hd Hlen Hpos Hkpos.
  assert (Hk : kernel <> []).
  { intros ->. apply nonempty_length in Hd. simpl in Hlen. lia. }
  pose proof (padded_data_some data kernel Hd) as Hp.
  pose proof (padded_data_length _ _ _ Hp) as Hl.
  set (p := repeat (hd 0 data) (min_num_pts data kernel) ++ data
            ++ repeat (last data 0) (min_num_pts data kernel)) in *.
  unfold min_num_pts in Hl. rewrite Hlen, Nat.min_id in Hl.
  assert (Hle : (length kernel <= length p)%nat) by lia.
  assert (Hout : conv_out data kernel = Some (Spec.valid_convolution p kernel)).
  { unfold conv_out. rewrite Hp. now apply convolve_valid_spec. }
  assert (Hppos : forall a, In a p -> 0 < a).
  { intros a Ha. unfold p in Ha.
    apply in_app_or in Ha. destruct Ha as [Ha|Ha];
      [apply repeat_spec in Ha; subst a; apply Hpos; now apply in_hd|].
    apply in_app_or in Ha. destruct Ha as [Ha|Ha]; [now apply Hpos|].
    apply repeat_spec in Ha. subst a. apply Hpos. now apply in_last. }
  set (out := Spec.valid_convolution p kernel) in *.
  set (r := crop out (min_num_pts data kernel)).
  assert (Hr : convolve data kernel = Some r).
  { unfold convolve. now rewrite Hout. }
  assert (Hlr : length r = min_num_pts data kernel).
  { apply (length_crop out (min_num_pts data kernel)).
    unfold out. rewrite length_valid_convolution.
    unfold min_num_pts. lia. }
  assert (Hrne : r <> []).
  { intros E. rewrite E in Hlr. unfold min_num_pts in Hlr.
    apply nonempty_length in Hd. simpl in Hlr. lia. }
  destruct (max_some r Hrne) as [m Hm].
  exists r, m. split; [exact Hr|]. split; [exact Hm|].
  destruct (max_spec _ _ Hm) as [Hin _].
  apply in_crop in Hin.
  now apply (valid_convolution_positive p kernel Hk Hle Hppos Hkpos).
Qed.

Lemma tiny_pos : 0 < Lineshapes.tiny.
Proof. unfold Lineshapes.tiny. apply Rinv_0_lt_compat. apply pow_lt. lra. Qed.

Lemma Rmax_tiny_pos (a : R) : 0 < Rmax Lineshapes.tiny a.
Proof. pose proof tiny_pos. pose proof (Rmax_l Lineshapes.tiny a). lra. Qed.

Lemma gaussian_positive (x : list R) (center sigma : R) :
  forall g, In g (Lineshapes.gaussian x 1 center sigma) -> 0 < g.
Proof.
  intros g Hg. unfold Lineshapes.gaussian in Hg. apply in_map_iff in Hg.
  destruct Hg as [xi [<- _]]. apply Rmult_lt_0_compat; [|apply exp_pos].
  apply Rdiv_lt_0_compat; [lra|apply Rmax_tiny_pos].
Qed.

Lemma s2pi_pos : 0 < sqrt (2 * PI).
Proof. apply sqrt_lt_R0. pose proof PI_RGT_0. lra. Qed.

Lemma gaussian_kernel_positive (x : list R) (sigma : R) :
  0 < sigma ->
  exists kernel, gaussian_kernel x sigma = Some kernel /\
    length kernel = length x /\ forall k, In k kernel -> 0 < k.
Proof.
  intros Hs. unfold gaussian_kernel.
  assert (H : 0 < sqrt (2 * PI) * sigma)
    by (apply Rmult_lt_0_compat; [apply s2pi_pos|assumption]).
  destruct (Req_dec_T _ 0) as [E|_]; [lra|].
  eexists. split; [reflexivity|]. split.
  - unfold Lineshapes.gaussian. now rewrite length_scale, length_map.
  - intros k Hk. unfold Py.scale in Hk. apply in_map_iff in Hk.
    destruct Hk as [g [<- Hg]]. apply Rmult_lt_0_compat.
    + unfold Rdiv. rewrite Rmult_1_l. now apply Rinv_0_lt_compat.
    + now apply gaussian_positive in Hg.
Qed.

(** A lineshape whose primitive curve is positive has a convolved curve
    with a positive maximum. *)
Lemma conv_temp_positive (s : shape) (x data : list R) :
  x <> [] -> 0 < kernel_width s ->
  primitive s x = Some data ->
  (forall a, In a data -> 0 < a) ->
  exists conv_temp m,
    conv_temp_of s x = Some conv_temp /\ Py.max conv_temp = Some m /\ 0 < m.
Proof.
  intros Hx Hw Hp Hpos.
  destruct (gaussian_kernel_positive x (kernel_width s) Hw)
    as [kernel [Hk [Hlen Hkpos]]].
  rewrite conv_temp_kernel, Hp. cbn [bind]. rewrite Hk. cbn [bind].
  pose proof (primitive_length _ _ _ Hp) as Hld.
  assert (Hne : kernel <> []).
  { intros ->. apply nonempty_length in Hx. simpl in Hlen. lia. }
  rewrite fft_convolve_convolve.
  apply convolve_positive; try assumption.
  - intros E. rewrite E in Hld. apply nonempty_length in Hx.
    simpl in Hld. lia.
  - lia.
Qed.

Lemma thermal_positive (x : list R) (center kt : R) :
  forall a, In a (Lineshapes.thermal_distribution_fermi x 1 center kt) ->
            0 < a.
Proof.
  intros a Ha. unfold Lineshapes.thermal_distribution_fermi in Ha.
  apply in_map_iff in Ha. destruct Ha as [xi [<- _]].
  set (d := 1 * exp ((xi - center) / Lineshapes.not_zero kt) + 1).
  assert (Hd : 0 < d).
  { unfold d. pose proof (exp_pos ((xi - center) / Lineshapes.not_zero kt)).
    lra. }
  apply Rdiv_lt_0_compat; [assumption|].
  pose proof tiny_pos. nra.
Qed.

Lemma float_pow_pos_base (b e : R) :
  0 < b -> Lineshapes.float_pow b e = Some (Rpower b e).
Proof.
  intros Hb. unfold Lineshapes.float_pow.
  now destruct (Rlt_dec 0 b).
Qed.

Lemma float_pow_zero_negative (e : R) :
  e < 0 -> Lineshapes.float_pow 0 e = None.
Proof.
  intros He. unfold Lineshapes.float_pow.
  destruct (Rlt_dec 0 0) as [H|_]; [lra|].
  destruct (Req_dec_T 0 0) as [_|H]; [|lra].
  destruct (Req_dec_T e 0) as [H|_]; [lra|].
  destruct (Rlt_dec 0 e) as [H|_]; [lra|reflexivity].
Qed.

(** For an asymmetry below 1 the Doniach primitive of amplitude 1 is
    positive everywhere. *)
Lemma doniach_positive (x d : list R) (center sigma gamma : R) :
  0 <= gamma < 1 ->
  Lineshapes.doniach x 1 center sigma gamma = Some d ->
  forall v, In v d -> 0 < v.
Proof.
  intros [Hg0 Hg1]. unfold Lineshapes.doniach.
  destruct (Lineshapes.float_pow sigma (1 - gamma)) as [p|]; [|discriminate].
  intros [= <-] v Hv. apply in_map_iff in Hv. destruct Hv as [xi [<- _]].
  set (arg := (xi - center) / Rmax Lineshapes.tiny sigma).
  pose proof (atan_bound arg) as [Hlo Hhi].
  pose proof PI_RGT_0 as Hpi.
  assert (Hcos : 0 < cos (PI * gamma / 2 + (1 - gamma) * atan arg)).
  { apply cos_gt_0.
    - assert ((1 - gamma) * (- PI / 2) < (1 - gamma) * atan arg)
        by (apply Rmult_lt_compat_l; lra).
      nra.
    - assert ((1 - gamma) * atan arg < (1 - gamma) * (PI / 2))
        by (apply Rmult_lt_compat_l; lra).
      nra. }
  apply Rdiv_lt_0_compat; [|unfold Rpower; apply exp_pos].
  apply Rmult_lt_0_compat; [|assumption].
  apply Rdiv_lt_0_compat; [lra|apply Rmax_tiny_pos].
Qed.

Lemma amplitude_normalisation_witness :
  0 <= 2 /\
  exists r, lineshape (Singlet 1 (1 / 2) 1 1) [0; 1; 2] 2 = Some r /\
            Py.max r = Some 2.
Proof.
  split; [lra|].
  assert (Hd : exists d, Lineshapes.doniach [0; 1; 2] 1 1 1 (1 / 2) = Some d).
  { unfold Lineshapes.doniach. rewrite float_pow_pos_base by lra.
    eexists. reflexivity. }
  destruct Hd as [d Hd].
  destruct (conv_temp_positive (Singlet 1 (1 / 2) 1 1) [0; 1; 2] d)
    as [conv_temp [m [Hc [Hm Hpos]]]].
  - discriminate.
  - simpl. lra.
  - exact Hd.
  - apply (doniach_positive [0; 1; 2] d 1 1 (1 / 2)); [lra|exact Hd].
  - apply (amplitude_normalisation (Singlet 1 (1 / 2) 1 1) [0; 1; 2]
             conv_temp 2 m); [lra|assumption|assumption|assumption].
Defined.

Lemma amplitude_homogeneous_witness :
  0 < 2 /\ 0 < 3 /\ 0 < kernel_width (FermiEdge 0 1 1) /\
  lineshape (FermiEdge 0 1 1) [0; 1] (2 * 1)
  = option_map (Py.scale 2) (lineshape (FermiEdge 0 1 1) [0; 1] 1) /\
  (data <- primitive (FermiEdge 0 1 1) [0; 1] ;;
   kernel <- gaussian_kernel [0; 1] (kernel_width (FermiEdge 0 1 1)) ;;
   with_kernel data (Py.scale 3 kernel) 1)
  = lineshape (FermiEdge 0 1 1) [0; 1] 1 /\
  (data <- primitive (FermiEdge 0 1 1) [0; 1] ;;
   with_kernel data
     (Lineshapes.gaussian [0; 1] 1 (Py.mean [0; 1])
        (kernel_width (FermiEdge 0 1 1))) 1)
  = lineshape (FermiEdge 0 1 1) [0; 1] 1.
Proof.
  assert (H2 : 0 < 2) by lra.
  assert (H3 : 0 < 3) by lra.
  assert (Hw : 0 < kernel_width (FermiEdge 0 1 1)) by (simpl; lra).
  repeat (split; [assumption|]).
  apply (amplitude_homogeneous (FermiEdge 0 1 1) [0; 1] 1 2 3); assumption.
Defined.

(** ** A singlet with a negative convolved curve *)

Lemma Rmax_tiny_1 : Rmax Lineshapes.tiny 1 = 1.
Proof.
  apply Rmax_right. unfold Lineshapes.tiny.
  assert (H : 1 <= 10 ^ 15) by (apply pow_R1_Rle; lra).
  apply Rmult_le_reg_l with (10 ^ 15); [lra|].
  rewrite Rinv_r by lra. lra.
Qed.

Lemma Rpower_1_base (y : R) : Rpower 1 y = 1.
Proof. unfold Rpower. rewrite ln_1, Rmult_0_r. apply exp_0. Qed.

Lemma sin_cos_atan (t : R) : sin (atan t) * cos (atan t) = t / (1 + t * t).
Proof.
  rewrite sin_atan, cos_atan. unfold Rsqr.
  assert (Hp : 0 < 1 + t * t) by nra.
  assert (Hs : sqrt (1 + t * t) * sqrt (1 + t * t) = 1 + t * t)
    by (apply sqrt_sqrt; lra).
  assert (Hs0 : sqrt (1 + t * t) <> 0).
  { intros E. rewrite E in Hs. lra. }
  unfold Rdiv. rewrite Rmult_1_l.
  replace (t * / sqrt (1 + t * t) * / sqrt (1 + t * t))
    with (t * / (sqrt (1 + t * t) * sqrt (1 + t * t))) by (field; assumption).
  now rewrite Hs.
Qed.

(** At [gamma = 3], unit width and centre 0 the Doniach primitive is the
    line [-2 x]. *)
Lemma doniach_gamma_3 (x : list R) :
  Lineshapes.doniach x 1 0 1 3 = Some (map (fun t => -2 * t) x).
Proof.
  unfold Lineshapes.doniach, Lineshapes.float_pow.
  destruct (Rlt_dec 0 1) as [_|H]; [|lra].
  f_equal. apply map_ext. intros t.
  rewrite Rmax_tiny_1.
  assert (Hp : 0 < 1 + ((t - 0) / 1) ^ 2) by nra.
  rewrite Rpower_1_base, Rmax_tiny_1.
  replace ((1 - 3) / 2) with (- (1)) by lra.
  rewrite Rpower_Ropp, Rpower_1 by assumption.
  replace ((t - 0) / 1) with t by (unfold Rdiv; rewrite Rinv_1; ring).
  replace (PI * 3 / 2 + (1 - 3) * atan t)
    with (3 * (PI / 2) + - (2 * atan t)) by lra.
  rewrite cos_plus, cos_3PI2, sin_3PI2, sin_neg, sin_2a.
  replace (2 * sin (atan t) * cos (atan t))
    with (2 * (sin (atan t) * cos (atan t))) by ring.
  rewrite sin_cos_atan.
  assert (Hq : 1 + t * t <> 0) by nra.
  replace (t ^ 2) with (t * t) by ring.
  field. assumption.
Qed.

Lemma gaussian_kernel_1_2 :
  exists k, 0 < k /\ gaussian_kernel [1; 2] 1 = Some [k; k].
Proof.
  destruct (gaussian_kernel_positive [1; 2] 1) as [kernel [Hk [_ Hpos]]];
    [lra|].
  unfold gaussian_kernel in *.
  destruct (Req_dec_T (sqrt (2 * PI) * 1) 0) as [E|_]; [discriminate|].
  injection Hk as <-.
  unfold Lineshapes.gaussian, Py.scale in *. cbn [map] in *.
  assert (Hm : Py.mean [1; 2] = 3 / 2).
  { unfold Py.mean, Py.sum. simpl. lra. }
  rewrite Hm in *.
  replace ((1 * 2 - 3 / 2) ^ 2) with ((1 * 1 - 3 / 2) ^ 2) in * by lra.
  eexists. split; [|reflexivity].
  apply Hpos. now left.
Qed.

Lemma convolve_two_points (a b k : R) :
  convolve [a; b] [k; k] = Some [a * 1 * k + (a * k + 0); a * k + (b * k + 0)].
Proof. reflexivity. Qed.

Lemma singlett_gamma_3 :
  exists conv_temp m r,
    singlett_conv_temp [1; 2] 1 3 1 0 = Some conv_temp /\
    Py.max conv_temp = Some m /\ m < 0 /\
    singlett [1; 2] 1 1 3 1 0 = Some r /\
    Py.max r = Some (3 / 2).
Proof.
  destruct gaussian_kernel_1_2 as [k [Hk Hker]].
  assert (Hconv : singlett_conv_temp [1; 2] 1 3 1 0
                  = Some [-2 * 1 * 1 * k + (-2 * 1 * k + 0);
                          -2 * 1 * k + (-2 * 2 * k + 0)]).
  { unfold singlett_conv_temp. rewrite doniach_gamma_3. cbn [bind].
    rewrite Hker. cbn [bind map].
    rewrite fft_convolve_convolve. apply convolve_two_points. }
  set (c1 := -2 * 1 * 1 * k + (-2 * 1 * k + 0)) in *.
  set (c2 := -2 * 1 * k + (-2 * 2 * k + 0)) in *.
  assert (Hmax : Py.max [c1; c2] = Some c1).
  { apply max_unique; [now left|].
    intros b [<-|[<-|[]]]; unfold c1, c2; lra. }
  exists [c1; c2], c1.
  assert (Hneg : c1 < 0) by (unfold c1; lra).
  exists (map (fun c => 1 * c / c1) [c1; c2]).
  split; [exact Hconv|]. split; [exact Hmax|]. split; [exact Hneg|].
  split.
  { unfold singlett. rewrite Hconv. cbn [bind].
    unfold scale_to_amplitude. rewrite Hmax. cbn [bind].
    destruct (Req_dec_T c1 0) as [E|_]; [|reflexivity].
    exfalso. clear - E Hneg. lra. }
  cbn [map]. apply max_unique.
  - right. left. unfold c1, c2. field. lra.
  - intros b [<-|[<-|[]]]; unfold c1, c2.
    + replace (1 * (-2 * 1 * 1 * k + (-2 * 1 * k + 0))
               / (-2 * 1 * 1 * k + (-2 * 1 * k + 0))) with 1
        by (field; lra).
      lra.
    + replace (1 * (-2 * 1 * k + (-2 * 2 * k + 0))
               / (-2 * 1 * 1 * k + (-2 * 1 * k + 0))) with (3 / 2)
        by (field; lra).
      lra.
Qed.

(** C3 fails as stated: the asymmetry [gamma = 3] is within the declared
    bound [gamma >= 0], the convolved curve on the grid [1, 2] has the
    maximum [-4 k <> 0], and the singlet of amplitude 1 peaks at 3/2. *)
Lemma amplitude_normalisation_counterexample :
  0 <= 1 /\ 0 <= 3 /\ 0 <= 0 /\
  exists conv_temp m r mr,
    conv_temp_of (Singlet 1 3 1 0) [1; 2] = Some conv_temp /\
    Py.max conv_temp = Some m /\ m <> 0 /\
    singlett [1; 2] 1 1 3 1 0 = Some r /\
    Py.max r = Some mr /\ mr <> 1.
Proof.
  repeat (split; [lra|]).
  destruct singlett_gamma_3 as [conv [m [r [Hc [Hm [Hneg [Hr Hmr]]]]]]].
  exists conv, m, r, (3 / 2).
  repeat split; try assumption; lra.
Qed.

(** ** The Gaussian kernel *)

Lemma s2pi_sqr : sqrt (2 * PI) * sqrt (2 * PI) = 2 * PI.
Proof. apply sqrt_sqrt. pose proof PI_RGT_0. lra. Qed.

Lemma s2pi_gt_2 : 2 < sqrt (2 * PI).
Proof.
  pose proof PI2_3_2 as Hpi.
  replace 2 with (sqrt (2 * 2)) at 1 by (apply sqrt_square; lra).
  apply sqrt_lt_1; lra.
Qed.

Lemma sum_scale (c : R) (l : list R) : Py.sum (Py.scale c l) = c * Py.sum l.
Proof.
  unfold Py.sum, Py.scale.
  induction l as [|a l IH]; simpl; [ring|]. rewrite IH. ring.
Qed.

(** Above its [tiny] guards the library's Gaussian of amplitude 1 is the
    kernel the specification describes: the unit-area density. *)
Lemma gaussian_unit_area_density (x : list R) (sigma : R) :
  Lineshapes.tiny <= sqrt (2 * PI) * sigma ->
  Lineshapes.tiny <= 2 * sigma ^ 2 ->
  Lineshapes.gaussian x 1 (Py.mean x) sigma = Spec.kernel x sigma.
Proof.
  intros Ht1 Ht2.
  unfold Lineshapes.gaussian, Spec.kernel, Spec.unit_gaussian, Py.scale,
    Lineshapes.s2pi.
  rewrite map_map. apply map_ext. intros xi.
  rewrite !Rmax_right by assumption.
  now replace (- (1 * xi - Py.mean x) ^ 2) with (- (xi - Py.mean x) ^ 2)
    by ring.
Qed.

(** C5, the code against the specification: the kernel that [singlett],
    [dublett] and [fermi_edge] build is the kernel the specification
    describes (the
    Gaussian of unit height scaled by [1 / (sqrt(2 pi) sigma)]) scaled by
    that factor a second time, because the library's Gaussian of
    amplitude 1 carries the factor already.  Its values summed against the
    grid spacing are those of the described kernel divided by
    [sqrt(2 pi) sigma]: where the described kernel has unit area, the
    kernel of the code has not, unless [sqrt(2 pi) sigma = 1]. *)
Theorem gaussian_kernel_scaled_twice (x : list R) (sigma : R) :
  0 < sigma ->
  Lineshapes.tiny <= sqrt (2 * PI) * sigma ->
  Lineshapes.tiny <= 2 * sigma ^ 2 ->
  exists kernel,
    gaussian_kernel x sigma = Some kernel /\
    kernel = Py.scale (1 / (sqrt (2 * PI) * sigma)) (Spec.kernel x sigma) /\
    Spec.area x kernel
    = Spec.area x (Spec.kernel x sigma) / (sqrt (2 * PI) * sigma) /\
    (Spec.area x (Spec.kernel x sigma) = 1 ->
     sqrt (2 * PI) * sigma <> 1 -> Spec.area x kernel <> 1).
Proof.
  intros Hs Ht1 Ht2.
  assert (Hq : 0 < sqrt (2 * PI) * sigma)
    by (apply Rmult_lt_0_compat; [apply s2pi_pos|assumption]).
  unfold gaussian_kernel.
  destruct (Req_dec_T _ 0) as [E|_]; [lra|].
  eexists. split; [reflexivity|].
  rewrite gaussian_unit_area_density by assumption.
  split; [reflexivity|].
  assert (Ha : Spec.area x (Py.scale (1 / (sqrt (2 * PI) * sigma))
                              (Spec.kernel x sigma))
               = Spec.area x (Spec.kernel x sigma)
                 / (sqrt (2 * PI) * sigma)).
  { unfold Spec.area. rewrite sum_scale.
    set (q := sqrt (2 * PI) * sigma) in *. field. lra. }
  split; [exact Ha|].
  intros H1 Hne. rewrite Ha, H1. intros E. apply Hne.
  set (q := sqrt (2 * PI) * sigma) in *.
  assert (H : q * (1 / q) = 1) by (field; lra).
  rewrite E in H. lra.
Qed.

Lemma gaussian_kernel_scaled_twice_witness :
  0 < 1 /\
  Lineshapes.tiny <= sqrt (2 * PI) * 1 /\
  Lineshapes.tiny <= 2 * 1 ^ 2 /\
  exists kernel,
    gaussian_kernel [-1; 0; 1] 1 = Some kernel /\
    kernel
    = Py.scale (1 / (sqrt (2 * PI) * 1)) (Spec.kernel [-1; 0; 1] 1) /\
    Spec.area [-1; 0; 1] kernel
    = Spec.area [-1; 0; 1] (Spec.kernel [-1; 0; 1] 1)
      / (sqrt (2 * PI) * 1).
Proof.
  assert (Hw : 0 < 1) by lra.
  assert (Ht : Lineshapes.tiny <= 1).
  { pose proof (Rmax_l Lineshapes.tiny 1) as H. now rewrite Rmax_tiny_1 in H. }
  assert (Ht1 : Lineshapes.tiny <= sqrt (2 * PI) * 1).
  { pose proof s2pi_gt_2. lra. }
  assert (Ht2 : Lineshapes.tiny <= 2 * 1 ^ 2) by lra.
  repeat (split; [assumption|]).
  destruct (gaussian_kernel_scaled_twice [-1; 0; 1] 1 Hw Ht1 Ht2)
    as [kernel [Hk [Hv [Ha _]]]].
  exists kernel. split; [exact Hk|]. split; [exact Hv|exact Ha].
Defined.

(** ** Linearity of [convolve] in the data *)

Lemma nth_add_scale (h : R) (u w : list R) (i : nat) :
  length u = length w ->
  nth i (Py.add u (Py.scale h w)) 0 = nth i u 0 + h * nth i w 0.
Proof.
  revert w i. induction u as [|a u IH]; intros [|b w] i Hlen;
    try discriminate.
  - destruct i; simpl; ring.
  - destruct i as [|i]; simpl; [reflexivity|].
    apply IH. now injection Hlen.
Qed.

Lemma length_add_scale (h : R) (u w : list R) :
  length u = length w -> length (Py.add u (Py.scale h w)) = length u.
Proof. intros H. rewrite length_add, length_scale. lia. Qed.

Lemma hd_nth (l : list R) : hd 0 l = nth 0 l 0.
Proof. now destruct l. Qed.

Lemma last_nth (l : list R) : last l 0 = nth (length l - 1) l 0.
Proof.
  induction l as [|a [|b l] IH]; try reflexivity.
  change (last (a :: b :: l) 0) with (last (b :: l) 0). rewrite IH.
  simpl. now rewrite Nat.sub_0_r.
Qed.

Lemma nth_padded (data : list R) (L t : nat) :
  nth t (repeat (hd 0 data) L ++ data ++ repeat (last data 0) L) 0
  = if (t <? L)%nat then nth 0 data 0
    else if (t <? L + length data)%nat then nth (t - L) data 0
    else if (t <? L + length data + L)%nat
         then nth (length data - 1) data 0
         else 0.
Proof.
  rewrite hd_nth, last_nth.
  destruct (Nat.ltb_spec t L).
  - rewrite app_nth1 by (rewrite repeat_length; lia). now rewrite nth_repeat_lt.
  - rewrite app_nth2 by (rewrite repeat_length; lia). rewrite repeat_length.
    destruct (Nat.ltb_spec t (L + length data)).
    + now rewrite app_nth1 by lia.
    + rewrite app_nth2 by lia.
      destruct (Nat.ltb_spec t (L + length data + L)).
      * now rewrite nth_repeat_lt by lia.
      * apply nth_overflow. rewrite repeat_length. lia.
Qed.


Lemma nth_crop (out : list R) (L i : nat) :
  (L <= length out)%nat -> (i < L)%nat ->
  nth i (crop out L) 0 = nth (i + (length out - L) / 2) out 0.
Proof.
  intros HL Hi. unfold crop, n_start_data, Py.int_div, Py.slice_from.
  assert (Hq : ((Z.of_nat (length out) - Z.of_nat L) ÷ 2
                = Z.of_nat ((length out - L) / 2))%Z).
  { rewrite Z.quot_div_nonneg by lia. rewrite Nat2Z.inj_div. f_equal. lia. }
  rewrite Hq. destruct (Z.ltb_spec (Z.of_nat ((length out - L) / 2)) 0);
    [lia|].
  rewrite Nat2Z.id, nth_firstn.
  destruct (Nat.ltb_spec i L); [|lia].
  rewrite nth_skipn. f_equal. lia.
Qed.

Lemma convolve_points (data kernel : list R) :
  data <> [] -> length kernel = length data ->
  exists r, convolve data kernel = Some r /\ length r = length data /\
            forall i, (i < length data)%nat ->
                      nth i r 0 = conv_point data kernel i.
Proof.
  intros Hd Hlen.
  assert (Hk : kernel <> []).
  { intros ->. apply nonempty_length in Hd. simpl in Hlen. lia. }
  pose proof (nonempty_length _ Hd) as HN.
  pose proof (padded_data_some data kernel Hd) as Hp.
  pose proof (padded_data_length _ _ _ Hp) as Hl.
  unfold min_num_pts in Hp, Hl. rewrite Hlen, Nat.min_id in Hp, Hl.
  set (L := length data) in *.
  set (p := repeat (hd 0 data) L ++ data ++ repeat (last data 0) L) in *.
  assert (Hout : conv_out data kernel = Some (Spec.valid_convolution p kernel)).
  { unfold conv_out. rewrite Hp. apply convolve_valid_spec; [assumption|lia]. }
  assert (Hlo : length (Spec.valid_convolution p kernel) = (2 * L + 1)%nat).
  { rewrite length_valid_convolution. lia. }
  exists (crop (Spec.valid_convolution p kernel) L).
  split; [|split].
  - unfold convolve. rewrite Hout. unfold min_num_pts.
    now rewrite Hlen, Nat.min_id.
  - apply (length_crop (Spec.valid_convolution p kernel) L). lia.
  - intros i Hi. rewrite nth_crop by lia. rewrite Hlo.
    assert (Hs : ((2 * L + 1 - L) / 2 = (L + 1) / 2)%nat) by (f_equal; lia).
    rewrite Hs, nth_valid_convolution by lia.
    unfold conv_point. fold L. fold p. rewrite Hlen. reflexivity.
Qed.

Lemma conv_point_linear (h : R) (u w kernel : list R) (i : nat) :
  length u = length w -> u <> [] ->
  conv_point (Py.add u (Py.scale h w)) kernel i
  = conv_point u kernel i + h * conv_point w kernel i.
Proof.
  intros Hlen Hu. unfold conv_point.
  rewrite length_add_scale by assumption. rewrite <- Hlen.
  rewrite <- Rbig_scal, <- Rbig_add. apply Rbig_ext. intros j Hj.
  rewrite !nth_padded, !length_add_scale by assumption. rewrite <- !Hlen.
  rewrite !nth_add_scale by assumption.
  repeat match goal with |- context [(?a <? ?b)%nat] =>
           destruct (a <? b)%nat end; ring.
Qed.

(** ** The doublet near a vanishing second peak *)

Lemma abs_bound (l : list R) :
  exists bound, 0 <= bound /\ forall i, Rabs (nth i l 0) <= bound.
Proof.
  induction l as [|a l [bound [H0 Hb]]].
  - exists 0. split; [lra|]. intros [|i]; simpl; rewrite Rabs_R0; lra.
  - exists (Rmax (Rabs a) bound).
    pose proof (Rmax_l (Rabs a) bound). pose proof (Rmax_r (Rabs a) bound).
    split; [lra|]. intros [|i]; simpl; [lra|].
    specialize (Hb i). lra.
Qed.

Lemma mult_abs_le (h b bound : R) :
  Rabs b <= bound -> h * b <= Rabs h * bound /\ - (h * b) <= Rabs h * bound.
Proof.
  intros Hb.
  assert (H : Rabs (h * b) <= Rabs h * bound).
  { rewrite Rabs_mult. apply Rmult_le_compat_l; [apply Rabs_pos|assumption]. }
  pose proof (Rle_abs (h * b)). pose proof (Rle_abs (- (h * b))) as H'.
  rewrite Rabs_Ropp in H'. lra.
Qed.

(** The maximum moves by at most [|h|] times the size of the
    perturbation. *)
Lemma max_perturbed (h bound m0 mh : R) (A B : list R) :
  length A = length B ->
  (forall i, Rabs (nth i B 0) <= bound) ->
  Py.max A = Some m0 -> Py.max (Py.add A (Py.scale h B)) = Some mh ->
  Rabs (mh - m0) <= Rabs h * bound.
Proof.
  intros Hlen Hb H0 Hh.
  destruct (max_spec _ _ H0) as [Hin0 Hle0].
  destruct (max_spec _ _ Hh) as [Hinh Hleh].
  apply (In_nth _ _ 0) in Hinh. destruct Hinh as [i [Hi Ei]].
  rewrite length_add_scale in Hi by assumption.
  rewrite nth_add_scale in Ei by assumption.
  apply (In_nth _ _ 0) in Hin0. destruct Hin0 as [j [Hj Ej]].
  assert (H1 : nth i A 0 <= m0) by (apply Hle0; now apply nth_In).
  assert (H2 : nth j A 0 + h * nth j B 0 <= mh).
  { apply Hleh. rewrite <- nth_add_scale by assumption.
    apply nth_In. now rewrite length_add_scale. }
  destruct (mult_abs_le h _ bound (Hb i)) as [H3 _].
  destruct (mult_abs_le h _ bound (Hb j)) as [_ H4].
  apply Rabs_le. lra.
Qed.

Lemma nth_scaled (amplitude m : R) (l : list R) (i : nat) :
  nth i (map (fun c => amplitude * c / m) l) 0 = amplitude * nth i l 0 / m.
Proof.
  rewrite <- (map_nth (fun c => amplitude * c / m)). f_equal.
  unfold Rdiv. ring.
Qed.

(** The quotient estimate behind the limit. *)
Lemma quotient_close (a Ai Bi h m0 mh An Bn eps : R) :
  0 < eps -> m0 <> 0 ->
  Rabs Ai <= An -> Rabs Bi <= Bn ->
  Rabs (mh - m0) <= Rabs h * Bn ->
  Rabs h < Rabs m0 / (2 * (Bn + 1)) ->
  Rabs h < eps * (Rabs m0 * Rabs m0)
           / (2 * ((Rabs a + 1) * (Bn + 1) * (An + Rabs m0 + 1))) ->
  mh <> 0 /\ Rabs (a * (Ai + h * Bi) / mh - a * Ai / m0) < eps.
Proof.
  intros Heps Hm0 HA HB Hm Hd1 Hd2.
  pose proof (Rabs_pos a) as Pa. pose proof (Rabs_pos h) as Ph.
  pose proof (Rabs_pos Ai) as PA. pose proof (Rabs_pos Bi) as PB.
  assert (Pq : 0 < Rabs m0) by now apply Rabs_pos_lt.
  set (q := Rabs m0) in *. set (eta := Rabs h) in *.
  assert (HBn : 0 < Bn + 1) by lra.
  assert (HT : 0 < (Rabs a + 1) * (Bn + 1) * (An + q + 1)).
  { apply Rmult_lt_0_compat; [apply Rmult_lt_0_compat|]; lra. }
  set (T := (Rabs a + 1) * (Bn + 1) * (An + q + 1)) in *.
  assert (E1 : eta * (Bn + 1) < q / 2).
  { apply Rmult_lt_compat_r with (r := Bn + 1) in Hd1; [|assumption].
    replace (q / (2 * (Bn + 1)) * (Bn + 1)) with (q / 2) in Hd1
      by (field; lra).
    exact Hd1. }
  assert (E2 : eta * T < eps * (q * q) / 2).
  { apply Rmult_lt_compat_r with (r := T) in Hd2; [|assumption].
    replace (eps * (q * q) / (2 * T) * T) with (eps * (q * q) / 2) in Hd2
      by (field; lra).
    exact Hd2. }
  assert (E3 : eta * Bn <= eta * (Bn + 1)) by nra.
  assert (Hmh : q / 2 < Rabs mh).
  { assert (H : q <= Rabs mh + Rabs (mh - m0)).
    { unfold q. replace m0 with (mh - (mh - m0)) at 1 by ring.
      apply Rabs_triang_inv2 || (rewrite <- (Rabs_Ropp (mh - m0));
        apply Rabs_triang). }
    lra. }
  assert (Hmh0 : mh <> 0).
  { intros E. rewrite E, Rabs_R0 in Hmh. lra. }
  split; [exact Hmh0|].
  replace (a * (Ai + h * Bi) / mh - a * Ai / m0)
    with (a * (Ai * (m0 - mh) + h * Bi * m0) / (mh * m0)) by (field; split; assumption).
  assert (HD : mh * m0 <> 0) by (apply Rmult_integral_contrapositive; split; assumption).
  unfold Rdiv. rewrite (Rabs_mult _ (/ (mh * m0))), Rabs_inv.
  rewrite (Rabs_mult mh m0). fold q.
  assert (HN : Rabs (a * (Ai * (m0 - mh) + h * Bi * m0))
               <= Rabs a * (An * (eta * Bn) + eta * Bn * q)).
  { rewrite Rabs_mult. apply Rmult_le_compat_l; [assumption|].
    eapply Rle_trans; [apply Rabs_triang|].
    rewrite !Rabs_mult. fold q eta.
    rewrite (Rabs_minus_sym m0 mh).
    apply Rplus_le_compat.
    - apply Rmult_le_compat; try assumption; apply Rabs_pos.
    - apply Rmult_le_compat_r; [lra|].
      apply Rmult_le_compat_l; assumption. }
  assert (HNT : Rabs a * (An * (eta * Bn) + eta * Bn * q) <= eta * T).
  { unfold T.
    assert (0 <= An) by lra. assert (0 <= Bn) by lra.
    assert (0 <= Rabs a * Bn) by (apply Rmult_le_pos; assumption).
    assert (0 <= Rabs a * Bn * (An + q)) by (apply Rmult_le_pos; lra).
    assert (Rabs a * Bn * (An + q) <= (Rabs a + 1) * (Bn + 1) * (An + q + 1)).
    { apply Rmult_le_compat; try lra; apply Rmult_le_compat; lra. }
    replace (Rabs a * (An * (eta * Bn) + eta * Bn * q))
      with (eta * (Rabs a * Bn * (An + q))) by ring.
    apply Rmult_le_compat_l; assumption. }
  assert (HDq : q * q / 2 < Rabs mh * q).
  { apply Rmult_lt_compat_r with (r := q) in Hmh; [|assumption]. lra. }
  assert (HDpos : 0 < Rabs mh * q) by nra.
  apply Rmult_lt_reg_r with (Rabs mh * q); [assumption|].
  rewrite Rmult_assoc, Rinv_l by lra. rewrite Rmult_1_r.
  assert (eps * (q * q / 2) < eps * (Rabs mh * q))
    by (apply Rmult_lt_compat_l; assumption).
  lra.
Qed.

(** Normalising [A + h B] tends to normalising [A] as [h] tends to 0. *)
Lemma scale_to_amplitude_continuous (amplitude : R) (A B r0 : list R) :
  length A = length B ->
  scale_to_amplitude amplitude A = Some r0 ->
  forall eps, 0 < eps ->
  exists delta, 0 < delta /\
    forall h, Rabs h < delta ->
    exists r,
      scale_to_amplitude amplitude (Py.add A (Py.scale h B)) = Some r /\
      length r = length r0 /\
      forall i, Rabs (nth i r 0 - nth i r0 0) < eps.
Proof.
  intros Hlen Hr0 eps Heps.
  unfold scale_to_amplitude in Hr0.
  destruct (Py.max A) as [m0|] eqn:Hm0; [|discriminate].
  simpl in Hr0. destruct (Req_dec_T m0 0) as [|Hne]; [discriminate|].
  injection Hr0 as <-.
  destruct (abs_bound A) as [An [HAn0 HAn]].
  destruct (abs_bound B) as [Bn [HBn0 HBn]].
  assert (Pq : 0 < Rabs m0) by now apply Rabs_pos_lt.
  set (d1 := Rabs m0 / (2 * (Bn + 1))).
  set (d2 := eps * (Rabs m0 * Rabs m0)
             / (2 * ((Rabs amplitude + 1) * (Bn + 1) * (An + Rabs m0 + 1)))).
  assert (Hd1 : 0 < d1).
  { unfold d1. apply Rdiv_lt_0_compat; lra. }
  assert (Hd2 : 0 < d2).
  { unfold d2. pose proof (Rabs_pos amplitude).
    apply Rdiv_lt_0_compat.
    - apply Rmult_lt_0_compat; [assumption|now apply Rmult_lt_0_compat].
    - apply Rmult_lt_0_compat; [lra|].
      apply Rmult_lt_0_compat; [apply Rmult_lt_0_compat|]; lra. }
  exists (Rmin d1 d2). split; [now apply Rmin_pos|].
  intros h Hh.
  assert (Hh1 : Rabs h < d1) by (pose proof (Rmin_l d1 d2); lra).
  assert (Hh2 : Rabs h < d2) by (pose proof (Rmin_r d1 d2); lra).
  assert (HAne : A <> []) by (intros ->; discriminate).
  assert (Hne' : Py.add A (Py.scale h B) <> []).
  { intros E. apply (f_equal (@length R)) in E.
    rewrite length_add_scale in E by assumption.
    apply nonempty_length in HAne. simpl in E. lia. }
  destruct (max_some _ Hne') as [mh Hmh].
  pose proof (max_perturbed h Bn m0 mh A B Hlen HBn Hm0 Hmh) as Hpert.
  assert (Hq : forall i,
             mh <> 0 /\
             Rabs (amplitude * (nth i A 0 + h * nth i B 0) / mh
                   - amplitude * nth i A 0 / m0) < eps).
  { intros i. apply (quotient_close amplitude _ _ h m0 mh An Bn); auto. }
  unfold scale_to_amplitude. rewrite Hmh. simpl.
  destruct (Req_dec_T mh 0) as [E|_]; [now destruct (Hq 0%nat)|].
  eexists. split; [reflexivity|]. split.
  - rewrite !length_map. now apply length_add_scale.
  - intros i. rewrite !nth_scaled, nth_add_scale by assumption.
    apply Hq.
Qed.

Lemma doniach_scale (x : list R) (h center sigma gamma : R) :
  Lineshapes.doniach x h center sigma gamma
  = option_map (Py.scale h) (Lineshapes.doniach x 1 center sigma gamma).
Proof.
  unfold Lineshapes.doniach.
  destruct (Lineshapes.float_pow sigma (1 - gamma)); [|reflexivity].
  simpl. f_equal. unfold Py.scale. rewrite map_map. apply map_ext.
  intros xi. unfold Rdiv. ring.
Qed.

(** Where the second Doniach curve cannot be computed the doublet
    fails, whatever its height ratio. *)
Lemma dublett_undefined (x : list R)
    (amplitude sigma gamma gaussian_sigma center soc height_ratio fct : R) :
  Lineshapes.float_pow (fct * sigma) (1 - gamma) = None ->
  dublett x amplitude sigma gamma gaussian_sigma center soc height_ratio fct
  = None.
Proof.
  intros Hp. unfold dublett, dublett_conv_temp.
  destruct (Lineshapes.doniach x 1 center sigma gamma); [|reflexivity].
  cbn [bind].
  now rewrite (proj2 (doniach_defined x height_ratio (center - soc)
                        (fct * sigma) gamma) Hp).
Qed.

(** The convolved curve of the doublet is affine in [height_ratio]. *)
Lemma dublett_conv_temp_affine (x : list R)
    (sigma gamma gaussian_sigma center soc fct : R) (A : list R) :
  Lineshapes.float_pow (fct * sigma) (1 - gamma) <> None ->
  singlett_conv_temp x sigma gamma gaussian_sigma center = Some A ->
  exists B, length A = length B /\
    forall h, dublett_conv_temp x sigma gamma gaussian_sigma center soc h fct
              = Some (Py.add A (Py.scale h B)).
Proof.
  intros Hp. unfold singlett_conv_temp, dublett_conv_temp.
  destruct (Lineshapes.doniach x 1 center sigma gamma) as [D1|] eqn:ED1;
    [|discriminate].
  cbn [bind].
  destruct (Lineshapes.doniach x 1 (center - soc) (fct * sigma) gamma)
    as [U|] eqn:EU; [|now apply doniach_defined in EU].
  destruct (gaussian_kernel x gaussian_sigma) as [kernel|] eqn:Hk;
    [|discriminate].
  cbn [bind]. intros HA.
  pose proof (gaussian_kernel_length _ _ _ Hk) as Hlen.
  pose proof (length_doniach _ _ _ _ _ _ ED1) as HD1.
  pose proof (length_doniach _ _ _ _ _ _ EU) as HU.
  assert (Hx : x <> []).
  { intros ->. destruct D1; [|discriminate]. simpl in HA. discriminate. }
  assert (HD1ne : D1 <> []).
  { intros E. rewrite E in HD1. apply nonempty_length in Hx.
    simpl in HD1. lia. }
  assert (HUne : U <> []).
  { intros E. rewrite E in HU. apply nonempty_length in Hx.
    simpl in HU. lia. }
  assert (Hkne : kernel <> []).
  { intros E. rewrite E in Hlen. apply nonempty_length in Hx.
    simpl in Hlen. lia. }
  rewrite fft_convolve_convolve in HA.
  destruct (convolve_points D1 kernel HD1ne) as [A' [HA' [HlA HpA]]]; [lia|].
  rewrite HA' in HA. injection HA as ->.
  destruct (convolve_points U kernel HUne) as [B [HB [HlB HpB]]]; [lia|].
  exists B. split; [lia|]. intros h.
  rewrite doniach_scale, EU. cbn [option_map bind].
  rewrite fft_convolve_convolve.
  assert (Hlin : length (Py.add D1 (Py.scale h U)) = length x).
  { rewrite length_add_scale; lia. }
  destruct (convolve_points (Py.add D1 (Py.scale h U)) kernel)
    as [r [Hr [Hlr Hpr]]].
  { intros E. rewrite E in Hlin. apply nonempty_length in Hx.
    simpl in Hlin. lia. }
  { lia. }
  rewrite Hr. f_equal. apply (nth_ext _ _ 0 0).
  - rewrite length_add_scale; lia.
  - intros i Hi. rewrite nth_add_scale by lia.
    rewrite Hpr, conv_point_linear, HpA, HpB by (assumption || lia).
    reflexivity.
Qed.

(** C6, as amended: with [height_ratio = 0] the doublet equals the
    singlet with the same shared parameters exactly when the second
    Doniach curve can be computed (its power
    [(fct_coster_kronig * sigma) ** (1 - gamma)] exists) or the singlet
    itself fails; and where that power exists, the doublet tends to the
    singlet point by point as [height_ratio] tends to 0, wherever the
    singlet is defined. *)
Theorem dublett_zero_ratio (x : list R)
    (amplitude sigma gamma gaussian_sigma center soc fct_coster_kronig : R) :
  (dublett x amplitude sigma gamma gaussian_sigma center soc 0
     fct_coster_kronig
   = singlett x amplitude sigma gamma gaussian_sigma center
   <-> (Lineshapes.float_pow (fct_coster_kronig * sigma) (1 - gamma) <> None
        \/ singlett x amplitude sigma gamma gaussian_sigma center = None)) /\
  (Lineshapes.float_pow (fct_coster_kronig * sigma) (1 - gamma) <> None ->
   forall r0,
     singlett x amplitude sigma gamma gaussian_sigma center = Some r0 ->
     forall eps, 0 < eps ->
     exists delta, 0 < delta /\
       forall height_ratio, Rabs height_ratio < delta ->
       exists r,
         dublett x amplitude sigma gamma gaussian_sigma center soc
           height_ratio fct_coster_kronig = Some r /\
         length r = length r0 /\
         forall i, Rabs (nth i r 0 - nth i r0 0) < eps).
Proof.
  split.
  - destruct (Lineshapes.float_pow (fct_coster_kronig * sigma) (1 - gamma))
      as [p|] eqn:Ep.
    + split; [intros _; left; discriminate|].
      intros _. apply dublett_at_zero. rewrite Ep. discriminate.
    + rewrite (dublett_undefined _ _ _ _ _ _ _ _ _ Ep). split.
      * intros H. right. now symmetry.
      * intros [H|H]; [now contradiction H|now symmetry].
  - intros Hp r0 Hr0 eps Heps. unfold singlett in Hr0.
    destruct (singlett_conv_temp x sigma gamma gaussian_sigma center)
      as [A|] eqn:HA; [|discriminate].
    simpl in Hr0.
    destruct (dublett_conv_temp_affine x sigma gamma gaussian_sigma center
                soc fct_coster_kronig A Hp HA) as [B [Hlen Haff]].
    destruct (scale_to_amplitude_continuous amplitude A B r0 Hlen Hr0 eps
                Heps) as [delta [Hd Hlim]].
    exists delta. split; [exact Hd|].
    intros h Hh. unfold dublett. rewrite Haff. simpl. now apply Hlim.
Qed.

Lemma dublett_zero_ratio_witness :
  dublett [1; 2] 1 1 3 1 0 2 0 1 = singlett [1; 2] 1 1 3 1 0 /\
  exists r0, singlett [1; 2] 1 1 3 1 0 = Some r0 /\
    exists delta, 0 < delta /\
      forall height_ratio, Rabs height_ratio < delta ->
      exists r,
        dublett [1; 2] 1 1 3 1 0 2 height_ratio 1 = Some r /\
        length r = length r0 /\
        forall i, Rabs (nth i r 0 - nth i r0 0) < 1 / 10.
Proof.
  assert (Hp : Lineshapes.float_pow (1 * 1) (1 - 3) <> None).
  { rewrite float_pow_pos_base by lra. discriminate. }
  destruct (dublett_zero_ratio [1; 2] 1 1 3 1 0 2 1) as [H0 Hlim].
  split; [apply H0; now left|].
  destruct singlett_gamma_3 as [_ [_ [r0 [_ [_ [_ [Hr0 _]]]]]]].
  exists r0. split; [exact Hr0|].
  apply (Hlim Hp r0 Hr0 (1 / 10)). lra.
Defined.

(** C6 fails as stated: with [fct_coster_kronig = 0] and the asymmetry
    [gamma = 3], both within their declared bounds, the second Doniach
    curve of the doublet raises on [0.0 ** -2.0] also at
    [height_ratio = 0], while the singlet with the same shared parameters
    returns a curve. *)
Lemma dublett_zero_ratio_counterexample :
  0 <= 0 /\ 0 <= 3 /\
  dublett [1; 2] 1 1 3 1 0 2 0 0 = None /\
  exists r0, singlett [1; 2] 1 1 3 1 0 = Some r0 /\
             dublett [1; 2] 1 1 3 1 0 2 0 0 <> singlett [1; 2] 1 1 3 1 0.
Proof.
  repeat (split; [lra|]).
  assert (Hd : dublett [1; 2] 1 1 3 1 0 2 0 0 = None).
  { apply dublett_undefined.
    replace (0 * 1) with 0 by ring. apply float_pow_zero_negative. lra. }
  split; [exact Hd|].
  destruct singlett_gamma_3 as [_ [_ [r0 [_ [_ [_ [Hr0 _]]]]]]].
  exists r0. split; [exact Hr0|]. rewrite Hd, Hr0. discriminate.
Qed.

(** * Further properties of the convolution engine *)

Lemma convolve_valid_empty_kernel (p : list R) :
  Numpy.convolve_valid p [] = None.
Proof. unfold Numpy.convolve_valid. now destruct p. Qed.

(** X1: the two engines fail on the same inputs: [convolve] and
    [fft_convolve] each raise exactly when the data or the kernel is
    empty. *)
Theorem convolve_fails_iff_empty (data kernel : list R) :
  (convolve data kernel = None <-> data = [] \/ kernel = []) /\
  (fft_convolve data kernel = None <-> data = [] \/ kernel = []).
Proof.
  assert (H : convolve data kernel = None <-> data = [] \/ kernel = []).
  { split.
    - intros H. destruct data as [|d data]; [now left|].
      destruct kernel as [|k kernel]; [now right|].
      destruct (conv_out_length (d :: data) (k :: kernel)) as [out [Ho _]];
        try discriminate.
      unfold convolve in H. rewrite Ho in H. discriminate.
    - intros [-> | ->]; [reflexivity|].
      unfold convolve, conv_out.
      destruct (padded_data data []); [|reflexivity].
      now rewrite convolve_valid_empty_kernel. }
  split; [exact H|]. now rewrite fft_convolve_convolve.
Qed.

(** X2: on non-empty inputs of any two lengths the two engines return the
    same sequence. *)
Theorem engines_agree_any_length (data kernel : list R) :
  data <> [] -> kernel <> [] ->
  exists r, convolve data kernel = Some r /\
            fft_convolve data kernel = Some r.
Proof.
  intros Hd Hk.
  destruct (conv_out_length data kernel Hd Hk) as [out [Ho _]].
  exists (crop out (min_num_pts data kernel)).
  assert (Hc : convolve data kernel
               = Some (crop out (min_num_pts data kernel))).
  { unfold convolve. now rewrite Ho. }
  split; [exact Hc|]. now rewrite fft_convolve_convolve.
Qed.

Lemma engines_agree_any_length_witness :
  [1; 2; 3] <> ([] : list R) /\ [1; 1; 1; 1; 1; 1; 1] <> ([] : list R) /\
  exists r, convolve [1; 2; 3] [1; 1; 1; 1; 1; 1; 1] = Some r /\
            fft_convolve [1; 2; 3] [1; 1; 1; 1; 1; 1; 1] = Some r.
Proof.
  repeat (split; [discriminate|]).
  apply (engines_agree_any_length [1; 2; 3] [1; 1; 1; 1; 1; 1; 1]);
    discriminate.
Defined.

Lemma sum_nth (l : list R) :
  Py.sum l = Rbig (fun j => nth j l 0) (length l).
Proof.
  induction l as [|a l IH]; [reflexivity|].
  change (length (a :: l)) with (S (length l)).
  rewrite Rbig_shift. simpl nth. rewrite <- IH. reflexivity.
Qed.

Lemma all_equal_repeat (l : list R) (v : R) :
  (forall a, In a l -> a = v) -> l = repeat v (length l).
Proof.
  induction l as [|a l IH]; intros H; [reflexivity|].
  simpl. rewrite (H a) by now left. f_equal. apply IH.
  intros b Hb. apply H. now right.
Qed.

Lemma hd_repeat (c : R) (n : nat) : (0 < n)%nat -> hd 0 (repeat c n) = c.
Proof. destruct n; [lia|reflexivity]. Qed.

Lemma last_repeat (c : R) (n : nat) : (0 < n)%nat -> last (repeat c n) 0 = c.
Proof.
  intros Hn. rewrite last_nth, repeat_length.
  apply nth_repeat_lt. lia.
Qed.

(** X3: edge padding leaves a constant curve constant: convolving [N]
    copies of [c] with a kernel of at most [2N + 1] points gives
    [min(N, M)] copies of [c * sum(kernel)], in both engines. *)
Theorem convolve_constant (c : R) (N : nat) (kernel : list R) :
  (0 < N)%nat -> kernel <> [] -> (length kernel <= 2 * N + 1)%nat ->
  convolve (repeat c N) kernel
  = Some (repeat (c * Py.sum kernel) (Nat.min N (length kernel))) /\
  fft_convolve (repeat c N) kernel
  = Some (repeat (c * Py.sum kernel) (Nat.min N (length kernel))).
Proof.
  intros HN Hk HM.
  assert (Hconv : convolve (repeat c N) kernel
                  = Some (repeat (c * Py.sum kernel)
                            (Nat.min N (length kernel)))).
  { assert (Hd : repeat c N <> []) by (destruct N; [lia|discriminate]).
    pose proof (nonempty_length _ Hk) as HM0.
    pose proof (padded_data_some (repeat c N) kernel Hd) as Hp.
    rewrite hd_repeat, last_repeat in Hp by assumption.
    pose proof (padded_data_length _ _ _ Hp) as Hl.
    unfold min_num_pts in Hp, Hl. rewrite repeat_length in Hp, Hl.
    set (L := Nat.min N (length kernel)) in *.
    set (p := repeat c L ++ repeat c N ++ repeat c L) in *.
    assert (Hle : (length kernel <= length p)%nat) by lia.
    assert (Hout : conv_out (repeat c N) kernel
                   = Some (Spec.valid_convolution p kernel)).
    { unfold conv_out. rewrite Hp. now apply convolve_valid_spec. }
    unfold convolve. rewrite Hout. f_equal.
    unfold min_num_pts. rewrite repeat_length. fold L.
    assert (Hlen : length (crop (Spec.valid_convolution p kernel) L) = L).
    { apply length_crop. rewrite length_valid_convolution. lia. }
    rewrite <- Hlen at 2. apply all_equal_repeat.
    intros a Ha. apply in_crop in Ha.
    apply (In_nth _ _ 0) in Ha. destruct Ha as [k [Hklt <-]].
    rewrite length_valid_convolution in Hklt.
    rewrite nth_valid_convolution by assumption.
    rewrite sum_nth, <- Rbig_scal. apply Rbig_ext. intros j Hj.
    f_equal. unfold p.
    assert (Hin : In (nth (k + length kernel - 1 - j)
                        (repeat c L ++ repeat c N ++ repeat c L) 0)
                     (repeat c L ++ repeat c N ++ repeat c L)).
    { apply nth_In. fold p. lia. }
    apply in_app_or in Hin. destruct Hin as [Hin|Hin];
      [now apply repeat_spec in Hin|].
    apply in_app_or in Hin. destruct Hin as [Hin|Hin];
      now apply repeat_spec in Hin. }
  split; [exact Hconv|].
  now rewrite fft_convolve_convolve.
Qed.

Lemma convolve_constant_witness :
  (0 < 3)%nat /\ [1; 2] <> ([] : list R) /\
  (length [1; 2] <= 2 * 3 + 1)%nat /\
  convolve (repeat 5 3) [1; 2]
  = Some (repeat (5 * Py.sum [1; 2]) (Nat.min 3 (length [1; 2]))).
Proof.
  assert (H1 : (0 < 3)%nat) by lia.
  assert (H2 : [1; 2] <> ([] : list R)) by discriminate.
  assert (H3 : (length [1; 2] <= 2 * 3 + 1)%nat) by (simpl; lia).
  repeat (split; [assumption|]).
  exact (proj1 (convolve_constant 5 3 [1; 2] H1 H2 H3)).
Defined.

Lemma Rbig_single (f : nat -> R) (n k : nat) :
  (k < n)%nat -> (forall i, (i < n)%nat -> i <> k -> f i = 0) ->
  Rbig f n = f k.
Proof.
  apply (big_single R 0 Rplus);
    [apply Rplus_comm | apply Rplus_assoc' | apply Rplus_0_l].
Qed.

Lemma nth_impulse (n j k : nat) :
  (k < n)%nat -> nth k (impulse n j) 0 = if (k =? j)%nat then 1 else 0.
Proof. intros Hk. unfold impulse. now rewrite Fourier.nth_map_seq. Qed.

Lemma length_impulse (n j : nat) : length (impulse n j) = n.
Proof. unfold impulse. now rewrite length_map, length_seq. Qed.

Lemma conv_point_impulse (data : list R) (i j : nat) :
  (i < length data)%nat -> (j < length data)%nat ->
  conv_point data (impulse (length data) j) i
  = nth (clamp_index (length data)
           (Z.of_nat i + (Z.of_nat ((length data + 1) / 2) - 1) - Z.of_nat j))
        data 0.
Proof.
  intros Hi Hj. unfold conv_point. set (L := length data) in *.
  rewrite (Rbig_single _ L j Hj).
  - rewrite nth_impulse, Nat.eqb_refl, Rmult_1_r by assumption.
    rewrite nth_padded. fold L. unfold clamp_index.
    assert (Hh : (1 <= (L + 1) / 2 <= L)%nat) by lia.
    destruct (Nat.ltb_spec (i + (L + 1) / 2 + L - 1 - j) L).
    + f_equal. lia.
    + destruct (Nat.ltb_spec (i + (L + 1) / 2 + L - 1 - j) (L + L)).
      * f_equal. lia.
      * destruct (Nat.ltb_spec (i + (L + 1) / 2 + L - 1 - j) (L + L + L));
          [|lia].
        f_equal. lia.
  - intros k Hk Hne. rewrite nth_impulse by assumption.
    destruct (Nat.eqb_spec k j); [contradiction|]. ring.
Qed.

(** X4: the origin of the kernel is its index [(N + 1) // 2 - 1]: for
    data of [N] points, convolving with the impulse at index [j] moves the
    data by [(N + 1) // 2 - 1 - j] points and repeats the edge values, and
    the impulse at the origin returns the data. *)
Theorem convolve_impulse (data : list R) (j : nat) :
  (j < length data)%nat ->
  (exists r,
     convolve data (impulse (length data) j) = Some r /\
     length r = length data /\
     forall i, (i < length data)%nat ->
       nth i r 0
       = nth (clamp_index (length data)
                (Z.of_nat i + (Z.of_nat ((length data + 1) / 2) - 1)
                 - Z.of_nat j))
             data 0) /\
  (j = ((length data + 1) / 2 - 1)%nat ->
   convolve data (impulse (length data) j) = Some data).
Proof.
  intros Hj.
  assert (Hd : data <> []) by (intros ->; simpl in Hj; lia).
  destruct (convolve_points data (impulse (length data) j) Hd
              (length_impulse _ _)) as [r [Hr [Hlen Hp]]].
  assert (Hpts : forall i, (i < length data)%nat ->
            nth i r 0
            = nth (clamp_index (length data)
                     (Z.of_nat i + (Z.of_nat ((length data + 1) / 2) - 1)
                      - Z.of_nat j)) data 0).
  { intros i Hi. rewrite Hp by assumption. now apply conv_point_impulse. }
  split.
  - exists r. repeat split; assumption.
  - intros Hj0. rewrite Hr. f_equal. apply (nth_ext _ _ 0 0); [assumption|].
    intros i Hi. rewrite Hlen in Hi. rewrite Hpts by assumption.
    f_equal. unfold clamp_index. lia.
Qed.

Lemma convolve_impulse_witness :
  (1 < length [1; 2; 3])%nat /\
  convolve [1; 2; 3] (impulse (length [1; 2; 3]) 1) = Some [1; 2; 3].
Proof.
  assert (H : (1 < length [1; 2; 3])%nat) by (simpl; lia).
  split; [exact H|].
  apply (proj2 (convolve_impulse [1; 2; 3] 1 H)). reflexivity.
Defined.

Lemma conv_point_linear_kernel (h : R) (data k1 k2 : list R) (i : nat) :
  length k1 = length k2 ->
  conv_point data (Py.add k1 (Py.scale h k2)) i
  = conv_point data k1 i + h * conv_point data k2 i.
Proof.
  intros Hlen. unfold conv_point.
  rewrite <- Rbig_scal, <- Rbig_add. apply Rbig_ext. intros j Hj.
  rewrite nth_add_scale by assumption. ring.
Qed.

(** X5: [convolve] is linear in the kernel: a factor on the kernel comes
    out as a factor on the result, for data and kernels of any lengths and
    also where the engine fails, in both engines; and for kernels as long
    as the data the result of [k1 + h k2] is the result of [k1] plus [h]
    times the result of [k2]. *)
Theorem convolve_linear_kernel (h : R) (data k1 k2 : list R) :
  convolve data (Py.scale h k1)
  = option_map (Py.scale h) (convolve data k1) /\
  fft_convolve data (Py.scale h k1)
  = option_map (Py.scale h) (fft_convolve data k1) /\
  (data <> [] -> length k1 = length data -> length k2 = length data ->
   exists A B,
     convolve data k1 = Some A /\ convolve data k2 = Some B /\
     convolve data (Py.add k1 (Py.scale h k2))
     = Some (Py.add A (Py.scale h B))).
Proof.
  split; [apply convolve_scale_kernel|].
  split; [rewrite !fft_convolve_convolve; apply convolve_scale_kernel|].
  intros Hd H1 H2.
  destruct (convolve_points data k1 Hd H1) as [A [HA [HlA HpA]]].
  destruct (convolve_points data k2 Hd H2) as [B [HB [HlB HpB]]].
  assert (Hl : length (Py.add k1 (Py.scale h k2)) = length data).
  { rewrite length_add_scale; lia. }
  destruct (convolve_points data _ Hd Hl) as [r [Hr [Hlr Hpr]]].
  exists A, B. split; [exact HA|]. split; [exact HB|].
  rewrite Hr. f_equal. apply (nth_ext _ _ 0 0).
  - rewrite length_add_scale; lia.
  - intros i Hi. rewrite nth_add_scale by lia.
    rewrite Hpr, conv_point_linear_kernel, HpA, HpB by lia. reflexivity.
Qed.

Lemma convolve_linear_kernel_witness :
  convolve [] (Py.scale 3 [1; 0]) = option_map (Py.scale 3) (convolve [] [1; 0])
  /\
  convolve [1; 2] (Py.scale 3 [1; 0; 5])
  = option_map (Py.scale 3) (convolve [1; 2] [1; 0; 5]) /\
  exists A B,
    convolve [1; 2] [1; 0] = Some A /\ convolve [1; 2] [0; 1] = Some B /\
    convolve [1; 2] (Py.add [1; 0] (Py.scale 3 [0; 1]))
    = Some (Py.add A (Py.scale 3 B)).
Proof.
  split; [exact (proj1 (convolve_linear_kernel 3 [] [1; 0] []))|].
  split; [exact (proj1 (convolve_linear_kernel 3 [1; 2] [1; 0; 5] []))|].
  assert (Hd : [1; 2] <> ([] : list R)) by discriminate.
  exact (proj2 (proj2 (convolve_linear_kernel 3 [1; 2] [1; 0] [0; 1])) Hd
           eq_refl eq_refl).
Defined.

(** X6: [convolve] is linear in the data, edge padding included: for two
    curves and a kernel of one length, the result of [u + h w] is the
    result of [u] plus [h] times the result of [w]. *)
Theorem convolve_linear_data (h : R) (u w kernel : list R) :
  u <> [] -> length w = length u -> length kernel = length u ->
  exists A B,
    convolve u kernel = Some A /\ convolve w kernel = Some B /\
    convolve (Py.add u (Py.scale h w)) kernel
    = Some (Py.add A (Py.scale h B)).
Proof.
  intros Hu Hw Hk.
  assert (Hwne : w <> []).
  { intros ->. apply nonempty_length in Hu. simpl in Hw. lia. }
  destruct (convolve_points u kernel Hu Hk) as [A [HA [HlA HpA]]].
  destruct (convolve_points w kernel Hwne) as [B [HB [HlB HpB]]]; [lia|].
  assert (Hl : length (Py.add u (Py.scale h w)) = length u).
  { rewrite length_add_scale; lia. }
  destruct (convolve_points (Py.add u (Py.scale h w)) kernel)
    as [r [Hr [Hlr Hpr]]].
  { intros E. rewrite E in Hl. apply nonempty_length in Hu. simpl in Hl. lia. }
  { lia. }
  exists A, B. split; [exact HA|]. split; [exact HB|].
  rewrite Hr. f_equal. apply (nth_ext _ _ 0 0).
  - rewrite length_add_scale; lia.
  - intros i Hi. rewrite nth_add_scale by lia.
    rewrite Hpr, conv_point_linear, HpA, HpB by (assumption || lia).
    reflexivity.
Qed.

Lemma convolve_linear_data_witness :
  [1; 2] <> ([] : list R) /\ length [3; 5] = length [1; 2] /\
  length [1; 1] = length [1; 2] /\
  exists A B,
    convolve [1; 2] [1; 1] = Some A /\ convolve [3; 5] [1; 1] = Some B /\
    convolve (Py.add [1; 2] (Py.scale 2 [3; 5])) [1; 1]
    = Some (Py.add A (Py.scale 2 B)).
Proof.
  assert (Hd : [1; 2] <> ([] : list R)) by discriminate.
  repeat (split; [first [assumption | reflexivity]|]).
  exact (convolve_linear_data 2 [1; 2] [3; 5] [1; 1] Hd eq_refl eq_refl).
Defined.

Lemma Rbig_le (f g : nat -> R) (n : nat) :
  (forall i, (i < n)%nat -> f i <= g i) -> Rbig f n <= Rbig g n.
Proof.
  intros H. induction n as [|n IH]; [unfold Rbig, big; simpl; lra|].
  rewrite !Rbig_S.
  assert (f n <= g n) by (apply H; lia).
  assert (Rbig f n <= Rbig g n) by (apply IH; intros; apply H; lia).
  lra.
Qed.

Lemma padded_in_range (data : list R) (lo hi : R) (t : nat) :
  data <> [] -> (forall a, In a data -> lo <= a <= hi) ->
  (t < 3 * length data)%nat ->
  lo <= nth t (repeat (hd 0 data) (length data) ++ data
               ++ repeat (last data 0) (length data)) 0 <= hi.
Proof.
  intros Hd Hr Ht. apply Hr.
  pose proof (nonempty_length _ Hd) as HN.
  rewrite nth_padded.
  repeat match goal with |- context [(?a <? ?b)%nat] =>
           destruct (Nat.ltb_spec a b) end;
    try (apply nth_In; lia).
  lia.
Qed.

(** X7: with a kernel that is nowhere negative, [convolve] cannot
    overshoot: for data within [[lo, hi]] and a kernel of the same
    length, every point of the result lies within
    [[lo * sum(kernel), hi * sum(kernel)]]. *)
Theorem convolve_within_range (data kernel : list R) (lo hi : R) :
  data <> [] -> length kernel = length data ->
  (forall k, In k kernel -> 0 <= k) ->
  (forall a, In a data -> lo <= a <= hi) ->
  exists r, convolve data kernel = Some r /\ length r = length data /\
    forall c, In c r ->
      lo * Py.sum kernel <= c <= hi * Py.sum kernel.
Proof.
  intros Hd Hlen Hk Hr.
  destruct (convolve_points data kernel Hd Hlen) as [r [Hc [Hlr Hp]]].
  exists r. split; [exact Hc|]. split; [exact Hlr|].
  intros c Hin. apply (In_nth _ _ 0) in Hin. destruct Hin as [i [Hi <-]].
  rewrite Hlr in Hi. rewrite Hp by assumption.
  unfold conv_point. rewrite sum_nth, Hlen, <- !Rbig_scal.
  split; apply Rbig_le; intros j Hj.
  - assert (Hkj : 0 <= nth j kernel 0) by (apply Hk, nth_In; lia).
    apply Rmult_le_compat_r; [assumption|].
    apply (padded_in_range data lo hi); try assumption.
    assert ((length data + 1) / 2 <= length data)%nat by lia. lia.
  - assert (Hkj : 0 <= nth j kernel 0) by (apply Hk, nth_In; lia).
    apply Rmult_le_compat_r; [assumption|].
    apply (padded_in_range data lo hi); try assumption.
    assert ((length data + 1) / 2 <= length data)%nat by lia. lia.
Qed.

Lemma convolve_within_range_witness :
  [1; 3] <> ([] : list R) /\ length [1; 2] = length [1; 3] /\
  exists r, convolve [1; 3] [1; 2] = Some r /\ length r = length [1; 3] /\
    forall c, In c r -> 1 * Py.sum [1; 2] <= c <= 3 * Py.sum [1; 2].
Proof.
  assert (Hd : [1; 3] <> ([] : list R)) by discriminate.
  repeat (split; [first [assumption | reflexivity]|]).
  apply (convolve_within_range [1; 3] [1; 2] 1 3 Hd eq_refl).
  - intros k [<-|[<-|[]]]; lra.
  - intros a [<-|[<-|[]]]; lra.
Defined.

(** * Further properties of the composite lineshapes *)

Lemma lineshape_length (s : shape) (x r : list R) (amplitude : R) :
  lineshape s x amplitude = Some r -> length r = length x.
Proof.
  rewrite lineshape_kernel.
  destruct (primitive s x) as [data|] eqn:Ep; [|discriminate]. cbn [bind].
  destruct (gaussian_kernel x (kernel_width s)) as [kernel|] eqn:Ek;
    [|discriminate].
  cbn [bind]. unfold with_kernel. rewrite fft_convolve_convolve.
  pose proof (primitive_length _ _ _ Ep) as Hld.
  pose proof (gaussian_kernel_length _ _ _ Ek) as Hlk.
  destruct data as [|d0 data]; [discriminate|].
  destruct (convolve_points (d0 :: data) kernel) as [c [Hc [Hlc _]]];
    [discriminate|lia|].
  rewrite Hc. cbn [bind]. unfold scale_to_amplitude.
  destruct (Py.max c); [|discriminate]. cbn [bind].
  destruct (Req_dec_T r0 0); [discriminate|].
  intros [= <-]. rewrite length_map. lia.
Qed.

(** X8: a composite lineshape fails on an empty grid, at kernel width 0,
    and when its primitive raises, which [singlett] does at [sigma = 0]
    with [gamma > 1] and [dublett] also at [fct_coster_kronig = 0] with
    [gamma > 1], whatever its height ratio; a curve that is returned has
    one point per grid point. *)
Theorem lineshape_failures (s : shape) (x : list R) (amplitude : R) :
  (x = [] \/ kernel_width s = 0 \/ primitive s x = None ->
   lineshape s x amplitude = None) /\
  (forall gamma gaussian_sigma center soc height_ratio fct sigma,
     1 < gamma ->
     singlett x amplitude 0 gamma gaussian_sigma center = None /\
     dublett x amplitude 0 gamma gaussian_sigma center soc height_ratio fct
     = None /\
     dublett x amplitude sigma gamma gaussian_sigma center soc height_ratio 0
     = None) /\
  (forall r, lineshape s x amplitude = Some r -> length r = length x).
Proof.
  split; [|split].
  - intros [->|[Hw|Hp]].
    + rewrite lineshape_kernel.
      destruct (primitive s []) as [d|] eqn:Ep; [|reflexivity].
      rewrite (primitive_nil _ _ Ep). cbn [bind].
      now destruct (gaussian_kernel [] (kernel_width s)).
    + rewrite lineshape_kernel.
      destruct (primitive s x); [|reflexivity]. cbn [bind].
      unfold gaussian_kernel.
      destruct (Req_dec_T _ 0) as [_|H]; [reflexivity|].
      elim H. rewrite Hw. ring.
    + now rewrite lineshape_kernel, Hp.
  - intros gamma gaussian_sigma center soc height_ratio fct sigma Hg.
    assert (H0 : Lineshapes.float_pow 0 (1 - gamma) = None)
      by (apply float_pow_zero_negative; lra).
    split; [|split].
    + unfold singlett, singlett_conv_temp.
      now rewrite (proj2 (doniach_defined x 1 center 0 gamma) H0).
    + apply dublett_undefined. now rewrite Rmult_0_r.
    + apply dublett_undefined. now rewrite Rmult_0_l.
  - intros r. apply lineshape_length.
Qed.

Lemma mean_shift (t : R) (x : list R) :
  x <> [] -> Py.mean (shift t x) = Py.mean x + t.
Proof.
  intros Hx. unfold Py.mean, shift. rewrite length_map.
  assert (Hs : Py.sum (map (fun xi => xi + t) x)
               = Py.sum x + INR (length x) * t).
  { clear Hx. induction x as [|a x IH]; [simpl; ring|].
    change (Py.sum (map (fun xi => xi + t) (a :: x)))
      with (a + t + Py.sum (map (fun xi => xi + t) x)).
    change (Py.sum (a :: x)) with (a + Py.sum x).
    change (length (a :: x)) with (S (length x)).
    rewrite IH, S_INR. ring. }
  rewrite Hs.
  assert (INR (length x) <> 0).
  { apply not_0_INR. apply nonempty_length in Hx. lia. }
  field. assumption.
Qed.

Lemma gaussian_shift (t m w : R) (x : list R) :
  Lineshapes.gaussian (shift t x) 1 (m + t) w = Lineshapes.gaussian x 1 m w.
Proof.
  unfold Lineshapes.gaussian, shift. rewrite map_map. apply map_ext.
  intros a. replace (1 * (a + t) - (m + t)) with (1 * a - m) by ring.
  reflexivity.
Qed.

Lemma doniach_shift (t h c c' sigma gamma : R) (x : list R) :
  c' = c + t ->
  Lineshapes.doniach (shift t x) h c' sigma gamma
  = Lineshapes.doniach x h c sigma gamma.
Proof.
  intros ->. unfold Lineshapes.doniach, shift.
  destruct (Lineshapes.float_pow sigma (1 - gamma)); [|reflexivity].
  f_equal. rewrite map_map. apply map_ext. intros a.
  replace (a + t - (c + t)) with (a - c) by ring. reflexivity.
Qed.

Lemma thermal_shift (t h c kt : R) (x : list R) :
  Lineshapes.thermal_distribution_fermi (shift t x) h (c + t) kt
  = Lineshapes.thermal_distribution_fermi x h c kt.
Proof.
  unfold Lineshapes.thermal_distribution_fermi, shift. rewrite map_map.
  apply map_ext. intros a.
  replace (a + t - (c + t)) with (a - c) by ring. reflexivity.
Qed.

(** X11: the composite lineshapes depend on the grid only through its
    distances to the centre: moving the grid and the centre by the same
    amount leaves the curve as it was. *)
Theorem lineshape_translation (t : R) (s : shape) (x : list R)
    (amplitude : R) :
  lineshape (shift_center t s) (shift t x) amplitude
  = lineshape s x amplitude.
Proof.
  assert (Hw : kernel_width (shift_center t s) = kernel_width s)
    by now destruct s.
  assert (Hp : primitive (shift_center t s) (shift t x) = primitive s x).
  { destruct s; unfold primitive, shift_center.
    - now apply doniach_shift.
    - rewrite (doniach_shift t 1 center); [|reflexivity].
      rewrite (doniach_shift t height_ratio (center - soc)); [reflexivity|].
      ring.
    - now rewrite thermal_shift. }
  rewrite !lineshape_kernel, Hw, Hp.
  destruct x as [|x0 x]; [reflexivity|].
  assert (Hk : gaussian_kernel (shift t (x0 :: x)) (kernel_width s)
               = gaussian_kernel (x0 :: x) (kernel_width s)).
  { unfold gaussian_kernel.
    rewrite mean_shift by discriminate. now rewrite gaussian_shift. }
  now rewrite Hk.
Qed.

(** * Further properties of the derived widths *)

Lemma sqrt_pow2_nonneg (a : R) : 0 <= a -> sqrt (a ^ 2) = a.
Proof. intros Ha. replace (a ^ 2) with (a * a) by ring. now apply sqrt_square. Qed.

Lemma sqrt_02166_bounds : 0.4654 < sqrt 0.2166 < 0.4655.
Proof.
  assert (E1 : sqrt (0.4654 ^ 2) = 0.4654) by (apply sqrt_pow2_nonneg; lra).
  assert (E2 : sqrt (0.4655 ^ 2) = 0.4655) by (apply sqrt_pow2_nonneg; lra).
  split.
  - rewrite <- E1. apply sqrt_lt_1; lra.
  - rewrite <- E2. apply sqrt_lt_1; lra.
Qed.

Lemma sqrt_sum_le (a b : R) :
  0 <= a -> 0 <= b -> sqrt (a + b) <= sqrt a + sqrt b.
Proof.
  intros Ha Hb.
  pose proof (sqrt_pos a) as Pa. pose proof (sqrt_pos b) as Pb.
  rewrite <- (sqrt_pow2_nonneg (sqrt a + sqrt b)) by lra.
  apply sqrt_le_1; [lra| |].
  - rewrite <- Rsqr_pow2. apply Rle_0_sqr.
  - replace ((sqrt a + sqrt b) ^ 2)
      with (sqrt a * sqrt a + sqrt b * sqrt b + 2 * (sqrt a * sqrt b)) by ring.
    rewrite !sqrt_sqrt by assumption.
    assert (0 <= sqrt a * sqrt b) by now apply Rmult_le_pos. lra.
Qed.

Lemma sqrt_scaled_square (L : R) :
  0 <= L -> sqrt (0.2166 * L ^ 2) = sqrt 0.2166 * L.
Proof.
  intros HL. rewrite sqrt_mult; [|lra|].
  - now rewrite sqrt_pow2_nonneg.
  - rewrite <- Rsqr_pow2. apply Rle_0_sqr.
Qed.

(** X12: the full width is the Gaussian width when there is no
    Lorentzian part, the Lorentzian width (to within 0.01 percent) when
    there is no Gaussian part, and otherwise lies between the larger of the
    two widths and their sum (to the same accuracy). *)
Theorem fwhm_limits (L G : R) :
  0 <= L -> 0 <= G ->
  Derived.fwhm 0 G = G /\
  L <= Derived.fwhm L 0 <= 1.0001 * L /\
  Rmax L G <= Derived.fwhm L G <= 1.0001 * L + G.
Proof.
  intros HL HG. unfold Derived.fwhm.
  pose proof sqrt_02166_bounds as [Hs1 Hs2].
  assert (HL2 : 0 <= 0.2166 * L ^ 2).
  { assert (0 <= L ^ 2) by (rewrite <- Rsqr_pow2; apply Rle_0_sqr). lra. }
  assert (HG2 : 0 <= G ^ 2) by (rewrite <- Rsqr_pow2; apply Rle_0_sqr).
  assert (Hs : sqrt 0.2166 * L <= sqrt (0.2166 * L ^ 2 + G ^ 2)).
  { rewrite <- sqrt_scaled_square by assumption. apply sqrt_le_1; lra. }
  assert (EG : sqrt (G ^ 2) = G) by now apply sqrt_pow2_nonneg.
  assert (Hg : G <= sqrt (0.2166 * L ^ 2 + G ^ 2)).
  { apply Rle_trans with (sqrt (G ^ 2)); [lra|]. apply sqrt_le_1; lra. }
  assert (Hu : sqrt (0.2166 * L ^ 2 + G ^ 2) <= sqrt 0.2166 * L + G).
  { apply Rle_trans with (sqrt (0.2166 * L ^ 2) + sqrt (G ^ 2)).
    - now apply sqrt_sum_le.
    - rewrite sqrt_scaled_square by assumption. lra. }
  split; [|split].
  - replace (0.2166 * 0 ^ 2 + G ^ 2) with (G ^ 2) by ring.
    rewrite sqrt_pow2_nonneg by assumption. ring.
  - replace (0.2166 * L ^ 2 + 0 ^ 2) with (0.2166 * L ^ 2) by ring.
    rewrite sqrt_scaled_square by assumption. split; nra.
  - split; [apply Rmax_lub; nra | nra].
Qed.

Lemma fwhm_limits_witness :
  0 <= 1 /\ 0 <= 2 /\
  Derived.fwhm 0 2 = 2 /\
  1 <= Derived.fwhm 1 0 <= 1.0001 * 1 /\
  Rmax 1 2 <= Derived.fwhm 1 2 <= 1.0001 * 1 + 2.
Proof.
  assert (H1 : 0 <= 1) by lra. assert (H2 : 0 <= 2) by lra.
  repeat (split; [assumption|]).
  exact (fwhm_limits 1 2 H1 H2).
Defined.

(** X13: the full width grows with both of its parts: it is strictly
    increasing in the Lorentzian width and increasing in the Gaussian
    width, on widths that are not negative. *)
Theorem fwhm_increasing (L1 L2 G1 G2 : R) :
  0 <= L1 -> 0 <= G1 -> L1 < L2 -> G1 <= G2 ->
  Derived.fwhm L1 G1 < Derived.fwhm L2 G2 /\
  Derived.fwhm L1 G1 <= Derived.fwhm L1 G2.
Proof.
  intros HL HG HL12 HG12. unfold Derived.fwhm.
  assert (Hp : forall a b, 0 <= a -> a <= b -> a ^ 2 <= b ^ 2).
  { intros a b Ha Hab. apply pow_incr. lra. }
  assert (HL2 : L1 ^ 2 <= L2 ^ 2) by (apply Hp; lra).
  assert (HG2 : G1 ^ 2 <= G2 ^ 2) by (apply Hp; lra).
  assert (H0L : 0 <= L1 ^ 2) by (rewrite <- Rsqr_pow2; apply Rle_0_sqr).
  assert (H0G : 0 <= G1 ^ 2) by (rewrite <- Rsqr_pow2; apply Rle_0_sqr).
  split.
  - assert (sqrt (0.2166 * L1 ^ 2 + G1 ^ 2)
            <= sqrt (0.2166 * L2 ^ 2 + G2 ^ 2)) by (apply sqrt_le_1; lra).
    lra.
  - assert (sqrt (0.2166 * L1 ^ 2 + G1 ^ 2)
            <= sqrt (0.2166 * L1 ^ 2 + G2 ^ 2)) by (apply sqrt_le_1; lra).
    lra.
Qed.

Lemma fwhm_increasing_witness :
  0 <= 1 /\ 0 <= 1 /\ 1 < 2 /\ 1 <= 3 /\
  Derived.fwhm 1 1 < Derived.fwhm 2 3 /\
  Derived.fwhm 1 1 <= Derived.fwhm 1 3.
Proof.
  assert (H1 : 0 <= 1) by lra. assert (H2 : 1 < 2) by lra.
  assert (H3 : 1 <= 3) by lra.
  repeat (split; [assumption|]).
  exact (fwhm_increasing 1 2 1 3 H1 H1 H2 H3).
Defined.

(** X14: the doublet's second Lorentzian width is the first one times
    [fct_coster_kronig], neither is below [2 sigma] times its factor, and
    with [fct_coster_kronig = 1] the two components have one full width,
    so that their areas are in the ratio [height_ratio]. *)
Theorem doublet_components (amplitude sigma gamma gaussian_sigma
    height_ratio fct : R) :
  0 <= sigma -> 0 <= gamma -> 0 <= fct ->
  let l1 := Derived.lorentzian_fwhm sigma gamma in
  let l2 := Derived.lorentzian_fwhm_p2 sigma gamma fct in
  let g := Derived.gaussian_fwhm gaussian_sigma in
  l2 = fct * l1 /\ 2 * sigma <= l1 /\ 2 * sigma * fct <= l2 /\
  (fct = 1 ->
   Derived.area (Derived.fwhm l2 g)
     (Derived.height_p2 amplitude height_ratio)
   = height_ratio
     * Derived.area (Derived.fwhm l1 g) (Derived.height amplitude)).
Proof.
  intros Hs Hg Hf l1 l2 g.
  unfold l1, l2, Derived.lorentzian_fwhm, Derived.lorentzian_fwhm_p2.
  assert (H4 : 0 <= (gamma * 3.6398) ^ 4).
  { replace ((gamma * 3.6398) ^ 4) with (((gamma * 3.6398) ^ 2) ^ 2) by ring.
    rewrite <- Rsqr_pow2. apply Rle_0_sqr. }
  assert (Hb : 2 <= 2 + gamma * 2.5135 + (gamma * 3.6398) ^ 4) by nra.
  split; [ring|]. split; [nra|]. split.
  - assert (2 * sigma <= sigma * (2 + gamma * 2.5135 + (gamma * 3.6398) ^ 4))
      by nra.
    nra.
  - intros ->. unfold Derived.area, Derived.height_p2, Derived.height.
    rewrite Rmult_1_r. ring.
Qed.

Lemma doublet_components_witness :
  0 <= 0.2 /\ 0 <= 0.02 /\ 0 <= 1 /\
  Derived.lorentzian_fwhm_p2 0.2 0.02 1
  = 1 * Derived.lorentzian_fwhm 0.2 0.02 /\
  2 * 0.2 <= Derived.lorentzian_fwhm 0.2 0.02.
Proof.
  assert (H1 : 0 <= 0.2) by lra. assert (H2 : 0 <= 0.02) by lra.
  assert (H3 : 0 <= 1) by lra.
  repeat (split; [assumption|]).
  destruct (doublet_components 100 0.2 0.02 0.2 0.75 1 H1 H2 H3)
    as [Ha [Hb _]].
  split; [exact Ha|exact Hb].
Defined.

(** * Further properties of the initial guesses *)

Lemma merge_merge (h kw : ParamHint) : merge (merge h kw) kw = merge h kw.
Proof.
  destruct h as [v l u e], kw as [v' l' u' e']. unfold merge. simpl.
  destruct v', l', u', e'; reflexivity.
Qed.

(** Setting a hint again with the same keywords changes nothing. *)
Lemma update_hint_absorb (name : string) (kw h : ParamHint)
    (hs : ParamHints) :
  lookup name hs = Some h -> merge h kw = h ->
  update_hint name kw hs = hs.
Proof.
  induction hs as [|[n h'] hs IH]; simpl; [discriminate|].
  destruct (String.eqb_spec n name) as [->|Hne].
  - intros [= ->] ->. reflexivity.
  - intros Hl Hm. now rewrite IH.
Qed.

Lemma set_hint_again (self : Model) (n : string) (kw : ParamHint) :
  (exists h, lookup (strip_prefix (prefix self) n) (param_hints self)
             = Some h /\ merge h kw = h) ->
  set_hint self n kw = self.
Proof.
  intros [h [Hl Hm]]. unfold set_hint, set_param_hint.
  rewrite (update_hint_absorb _ kw h _ Hl Hm). now destruct self.
Qed.

Ltac distinct_names :=
  apply strip_prefix_distinct;
  [ intros c s s' E1 E2; inversion E1; inversion E2; subst; congruence
  | intros E; vm_compute in E; discriminate
  | intros E; vm_compute in E; discriminate ].

(** The four names [FermiEdgeModel.guess] sets hints for stay four
    different names under every prefix. *)
Lemma fermi_names_distinct (pre : string) :
  String.eqb (strip_prefix pre "kt") (strip_prefix pre "center") = false /\
  String.eqb (strip_prefix pre "amplitude") (strip_prefix pre "center")
  = false /\
  String.eqb (strip_prefix pre "sigma") (strip_prefix pre "center") = false /\
  String.eqb (strip_prefix pre "amplitude") (strip_prefix pre "kt") = false /\
  String.eqb (strip_prefix pre "sigma") (strip_prefix pre "kt") = false /\
  String.eqb (strip_prefix pre "sigma") (strip_prefix pre "amplitude")
  = false.
Proof. repeat split; distinct_names. Qed.

(** X15: [FermiEdgeModel.guess] is idempotent on the model: a second call
    with the same arguments returns what the first returned and leaves the
    parameter hints as the first call left them, whatever the inputs. *)
Theorem fermi_guess_idempotent (self : Model) (data : list R)
    (x : option (list R)) (kwargs : Kwargs) :
  FermiEdgeModel.guess (snd (FermiEdgeModel.guess self data x kwargs))
    data x kwargs
  = FermiEdgeModel.guess self data x kwargs.
Proof.
  destruct x as [x|]; [|reflexivity].
  unfold FermiEdgeModel.guess.
  destruct (Py.min x) as [min_x|]; [|reflexivity].
  destruct (Py.max x) as [max_x|]; [|reflexivity].
  destruct (fermi_names_distinct (prefix self))
    as [Dkc [Dac [Dsc [Dak [Dsk Dsa]]]]].
  set (k1 := value_min_max (Py.mean x) min_x max_x).
  set (k2 := value_min_max (kb * 300) 0 (kb * 1500)).
  assert (A2 : forall s,
             s = set_hint (set_hint self "center" k1) "kt" k2 ->
             set_hint (set_hint s "center" k1) "kt" k2 = s).
  { intros s ->.
    assert (Hc : forall s', s' = set_hint (set_hint self "center" k1) "kt" k2 ->
                 set_hint s' "center" k1 = s').
    { intros s' ->. apply set_hint_again.
      rewrite !lookup_after_set. cbn [prefix set_hint].
      rewrite Dkc, String.eqb_refl.
      eexists. split; [reflexivity|]. apply merge_merge. }
    rewrite (Hc _ eq_refl). apply set_hint_again.
    rewrite !lookup_after_set. cbn [prefix set_hint].
    rewrite String.eqb_refl.
    eexists. split; [reflexivity|]. apply merge_merge. }
  destruct (Py.max data) as [max_d|];
    [|cbn [snd]; fold k1 k2; now rewrite (A2 _ eq_refl)].
  destruct (Py.min data) as [min_d|];
    [|cbn [snd]; fold k1 k2; now rewrite (A2 _ eq_refl)].
  cbv zeta. cbn [snd]. fold k1 k2.
  set (k3 := value_min_max ((max_d - min_d) / 10) 0 (max_d - min_d)).
  set (k4 := value_min_max ((max_x - min_x) / INR (length x)) 0 2).
  set (s4 := set_hint (set_hint (set_hint (set_hint self "center" k1)
                                   "kt" k2) "amplitude" k3) "sigma" k4).
  assert (A4c : set_hint s4 "center" k1 = s4).
  { apply set_hint_again. unfold s4.
    rewrite !lookup_after_set. cbn [prefix set_hint].
    rewrite Dsc, Dac, Dkc, String.eqb_refl.
    eexists. split; [reflexivity|]. apply merge_merge. }
  assert (A4k : set_hint s4 "kt" k2 = s4).
  { apply set_hint_again. unfold s4.
    rewrite !lookup_after_set. cbn [prefix set_hint].
    rewrite Dsk, Dak, String.eqb_refl.
    eexists. split; [reflexivity|]. apply merge_merge. }
  assert (A4a : set_hint s4 "amplitude" k3 = s4).
  { apply set_hint_again. unfold s4.
    rewrite !lookup_after_set. cbn [prefix set_hint].
    rewrite Dsa, String.eqb_refl.
    eexists. split; [reflexivity|]. apply merge_merge. }
  assert (A4s : set_hint s4 "sigma" k4 = s4).
  { apply set_hint_again. unfold s4.
    rewrite !lookup_after_set. cbn [prefix set_hint].
    rewrite String.eqb_refl.
    eexists. split; [reflexivity|]. apply merge_merge. }
  now rewrite A4c, A4k, A4a, A4s.
Qed.










Lemma fermi_init_prefix (pre : string) : prefix (FermiEdgeModel.init pre) = pre.
Proof. reflexivity. Qed.









(** X18: [FermiEdgeModel.guess] fails on an empty grid before it touches
    the model; on empty data with a grid [x] that is not empty it fails
    after the hints of [center] and [kt] have been replaced, the hints of
    [amplitude] and [sigma] still being the old ones (for a prefix that
    does not start the names [center] and [kt]). *)
Theorem fermi_guess_failure (self : Model) (data x : list R)
    (kwargs : Kwargs) :
  strip_prefix (prefix self) "center" = "center"%string ->
  strip_prefix (prefix self) "kt" = "kt"%string ->
  x <> [] ->
  FermiEdgeModel.guess self data (Some []) kwargs = (Failed, self) /\
  exists self' min_x max_x,
    FermiEdgeModel.guess self [] (Some x) kwargs = (Failed, self') /\
    Py.min x = Some min_x /\ Py.max x = Some max_x /\
    (exists h, lookup "center" (param_hints self') = Some h /\
               hint_value h = Some (Py.mean x) /\
               hint_min h = Some min_x /\ hint_max h = Some max_x) /\
    (exists h, lookup "kt" (param_hints self') = Some h /\
               hint_value h = Some (kb * 300) /\
               hint_min h = Some 0 /\ hint_max h = Some (kb * 1500)) /\
    lookup "amplitude" (param_hints self')
    = lookup "amplitude" (param_hints self) /\
    lookup "sigma" (param_hints self') = lookup "sigma" (param_hints self).
Proof.
  intros Hc Hk Hx. split; [reflexivity|].
  destruct (min_some x Hx) as [min_x Hminx].
  destruct (max_some x Hx) as [max_x Hmaxx].
  unfold FermiEdgeModel.guess. rewrite Hminx, Hmaxx. simpl Py.max.
  cbv iota.
  eexists. exists min_x, max_x. split; [reflexivity|].
  repeat (split; [reflexivity|]).
  rewrite !lookup_after_set. cbn [prefix set_hint]. rewrite Hc, Hk.
  cbn [String.eqb Ascii.eqb Bool.eqb andb].
  split; [eexists; split; [reflexivity|]; now repeat split|].
  split; [eexists; split; [reflexivity|]; now repeat split|].
  split; reflexivity.
Qed.

Lemma fermi_guess_failure_witness :
  strip_prefix (prefix (FermiEdgeModel.init "f1_")) "center"
  = "center"%string /\
  strip_prefix (prefix (FermiEdgeModel.init "f1_")) "kt" = "kt"%string /\
  [1; 2] <> ([] : list R) /\
  FermiEdgeModel.guess (FermiEdgeModel.init "f1_") [3; 5] (Some []) []
  = (Failed, FermiEdgeModel.init "f1_") /\
  exists self' min_x max_x,
    FermiEdgeModel.guess (FermiEdgeModel.init "f1_") [] (Some [1; 2]) []
    = (Failed, self') /\
    Py.min [1; 2] = Some min_x /\ Py.max [1; 2] = Some max_x /\
    (exists h, lookup "center" (param_hints self') = Some h /\
               hint_value h = Some (Py.mean [1; 2]) /\
               hint_min h = Some min_x /\ hint_max h = Some max_x) /\
    (exists h, lookup "kt" (param_hints self') = Some h /\
               hint_value h = Some (kb * 300) /\
               hint_min h = Some 0 /\ hint_max h = Some (kb * 1500)) /\
    lookup "amplitude" (param_hints self')
    = lookup "amplitude" (param_hints (FermiEdgeModel.init "f1_")) /\
    lookup "sigma" (param_hints self')
    = lookup "sigma" (param_hints (FermiEdgeModel.init "f1_")).
Proof.
  assert (H1 : [1; 2] <> ([] : list R)) by discriminate.
  split; [reflexivity|]. split; [reflexivity|]. split; [exact H1|].
  exact (fermi_guess_failure (FermiEdgeModel.init "f1_") [3; 5] [1; 2] []
           eq_refl eq_refl H1).
Defined.





(** ** The two peak models *)













(** X20: on a grid that is not empty, the singlet [guess] leaves the
    model with [0.3 * (x[-1] - x[0])] as the [max] hint of [sigma] and of
    [gaussian_sigma], also when it fails afterwards, and with every other
    hint and the prefix as they were (for a prefix that does not start
    the names [sigma] and [gaussian_sigma]). *)
Theorem singlett_guess_hints
    (guess_from_peak : list R -> list R -> option PeakPars)
    (self : Model) (data x : list R) (kwargs : Kwargs) (x0 xl : R) :
  strip_prefix (prefix self) "sigma" = "sigma"%string ->
  strip_prefix (prefix self) "gaussian_sigma" = "gaussian_sigma"%string ->
  Py.first x = Some x0 -> Py.last_elt x = Some xl ->
  let self' :=
    snd (ConvGaussianDoniachSinglett.guess guess_from_peak self data
           (Some x) kwargs) in
  prefix self' = prefix self /\
  (forall n, n = "sigma"%string \/ n = "gaussian_sigma"%string ->
     exists h, lookup n (param_hints self') = Some h /\
               hint_max h = Some (0.3 * (xl - x0))) /\
  (forall n, n <> "sigma"%string -> n <> "gaussian_sigma"%string ->
     lookup n (param_hints self') = lookup n (param_hints self)).
Proof.
  intros Hs Hg H0 Hl self'.
  assert (E : self' = set_hint (set_hint self "sigma"
                                  (only_max (0.3 * (xl - x0))))
                        "gaussian_sigma" (only_max (0.3 * (xl - x0)))).
  { unfold self', ConvGaussianDoniachSinglett.guess. rewrite H0, Hl.
    destruct (guess_from_peak data x); [|reflexivity].
    destruct (nth_error x 1); [|reflexivity].
    destruct (Rlt_dec 0 (Py.sum x)); reflexivity. }
  rewrite E. split; [reflexivity|]. split.
  - intros n [-> | ->]; rewrite !lookup_after_set; cbn [prefix set_hint];
      rewrite Hs, Hg; cbn [String.eqb Ascii.eqb Bool.eqb andb];
      eexists; (split; [reflexivity|reflexivity]).
  - intros n Hns Hng. rewrite !lookup_after_set. cbn [prefix set_hint].
    rewrite Hs, Hg.
    destruct (String.eqb_spec "gaussian_sigma" n) as [<- | _]; [congruence|].
    destruct (String.eqb_spec "sigma" n) as [<- | _]; [congruence|].
    reflexivity.
Qed.

Lemma singlett_guess_hints_witness :
  strip_prefix (prefix (ConvGaussianDoniachSinglett.init "p1_")) "sigma"
  = "sigma"%string /\
  strip_prefix (prefix (ConvGaussianDoniachSinglett.init "p1_"))
    "gaussian_sigma" = "gaussian_sigma"%string /\
  Py.first [1; 3] = Some 1 /\ Py.last_elt [1; 3] = Some 3 /\
  let self' :=
    snd (ConvGaussianDoniachSinglett.guess (fun _ _ => None)
           (ConvGaussianDoniachSinglett.init "p1_") [2; 4] (Some [1; 3])
           []) in
  prefix self' = prefix (ConvGaussianDoniachSinglett.init "p1_") /\
  (forall n, n = "sigma"%string \/ n = "gaussian_sigma"%string ->
     exists h, lookup n (param_hints self') = Some h /\
               hint_max h = Some (0.3 * (3 - 1))) /\
  (forall n, n <> "sigma"%string -> n <> "gaussian_sigma"%string ->
     lookup n (param_hints self')
     = lookup n (param_hints (ConvGaussianDoniachSinglett.init "p1_"))).
Proof.
  split; [reflexivity|]. split; [reflexivity|].
  split; [reflexivity|]. split; [reflexivity|].
  exact (singlett_guess_hints (fun _ _ => None)
           (ConvGaussianDoniachSinglett.init "p1_") [2; 4] [1; 3] [] 1 3
           eq_refl eq_refl eq_refl eq_refl).
Defined.

(** X21: the doublet [guess] never changes the model: whatever it is
    given and whether it returns a seed, fails or returns nothing, the
    prefix and the parameter hints are afterwards what they were. *)
Theorem dublett_guess_keeps_model
    (guess_from_peak : list R -> list R -> option PeakPars)
    (self : Model) (data : list R) (x : option (list R))
    (kwargs : Kwargs) :
  snd (ConvGaussianDoniachDublett.guess guess_from_peak self data x kwargs)
  = self.
Proof.
  unfold ConvGaussianDoniachDublett.guess.
  destruct x as [x|]; [|reflexivity].
  destruct (guess_from_peak data x); [|reflexivity].
  destruct (nth_error x 1); [|reflexivity].
  destruct (Py.first x); [|reflexivity].
  destruct (Py.last_elt x); [|reflexivity].
  destruct (Rlt_dec 0 (Py.sum x)); reflexivity.
Qed.







